(** * tbd-notify: the OpenSea stream client of [src/index.js]

    A shallow embedding of the bot's connection supervisor, subscription
    registry and event router.  The module-level variables of [index.js]
    become the fields of one [State] record, every callback (WebSocket
    listener, timer callback, Discord command or interaction handler)
    becomes a function [State -> State], and the Node event loop becomes
    the transition function [step] over an explicit queue of armed timers.

    Conventions.
    - JavaScript [Map]s and [Set]s iterate in insertion order, so they are
      association lists and duplicate-free lists with the insertion
      behaviour written out ([JsMap], [JsSet]).
    - The arrays stored in [userSubscriptions] are objects that handlers
      mutate in place ([push]) and keep references to across an [await];
      they live in the store [arrays] and the map holds their addresses.
    - Numbers are mathematical integers.  [currentRef] and
      [connectionAttempts] only ever grow by one from zero, far inside the
      range in which JavaScript numbers are exact.
    - What the [ws] library, Discord and the file system do is the
      environment: socket events, incoming commands, the passing of time
      and whether [ws.send] raises are inputs of [step].  A timer may run
      late, never early.
    - Left out: presence updates and log lines, the rendering and delivery
      of a notification ([sendNotification] is recorded as a call), the
      read-only commands and buttons, the exit handler, and failures of
      the file system, of [JSON.parse] on [subscriptions.json] and of the
      socket constructor. *)

From Stdlib Require Import ZArith List String Ascii Bool Lia Sorted.
Import ListNotations.

Local Open Scope string_scope.
Local Open Scope list_scope.
Local Open Scope Z_scope.

(** ** JavaScript containers *)

Module JsMap.
Section WithValue.
Context {V : Type}.

Fixpoint get (k : string) (m : list (string * V)) : option V :=
  match m with
  | [] => None
  | (k', v) :: rest => if String.eqb k k' then Some v else get k rest
  end.

(** [Map.prototype.set]: an existing key keeps its position. *)
Fixpoint set (k : string) (v : V) (m : list (string * V)) : list (string * V) :=
  match m with
  | [] => [(k, v)]
  | (k', v') :: rest =>
      if String.eqb k k' then (k, v) :: rest else (k', v') :: set k v rest
  end.

Definition delete (k : string) (m : list (string * V)) : list (string * V) :=
  filter (fun kv => negb (String.eqb k (fst kv))) m.

Definition values (m : list (string * V)) : list V := map snd m.
End WithValue.

Definition t (V : Type) : Type := list (string * V).
End JsMap.

Module JsSet.
Definition has (x : string) (l : list string) : bool :=
  existsb (String.eqb x) l.

(** [Set.prototype.add]: a new element goes last, a present one stays. *)
Definition add (x : string) (l : list string) : list string :=
  if has x l then l else l ++ [x].

Definition delete (x : string) (l : list string) : list string :=
  filter (fun y => negb (String.eqb x y)) l.

(** [new Set(iterable)] *)
Definition of_list (l : list string) : list string :=
  fold_left (fun acc x => add x acc) l [].
End JsSet.

(** [Array.prototype.includes] on an array of strings. *)
Definition includes (l : list string) (x : string) : bool :=
  existsb (String.eqb x) l.

(** ** Constants *)

Definition RECONNECT_DELAY : Z := 5000.
Definition MAX_RECONNECT_ATTEMPTS : Z := 5.
Definition MAX_BACKOFF : Z := 30000.
Definition HANDSHAKE_TIMEOUT : Z := 10000.
Definition SUBSCRIPTION_DELAY : Z := 2000.
Definition HEARTBEAT_INTERVAL : Z := 30000.

Definition VALID_EVENTS : list string :=
  [ "item_listed"; "item_sold"; "item_transferred"; "item_received_offer";
    "item_received_bid"; "item_metadata_updated"; "item_cancelled" ].

(** [isValidCollectionSlug]: a non-empty string matching [/^[a-z0-9-]+$/]. *)
Definition slug_char (c : ascii) : bool :=
  let n := nat_of_ascii c in
  (((97 <=? n) && (n <=? 122)) || ((48 <=? n) && (n <=? 57)) || (n =? 45))%nat.

Fixpoint all_slug_chars (s : string) : bool :=
  match s with
  | EmptyString => true
  | String c rest => slug_char c && all_slug_chars rest
  end.

Definition isValidCollectionSlug (slug : string) : bool :=
  (0 <? String.length slug)%nat && all_slug_chars slug.

(** ** Wire data *)

(** An outbound frame [{topic, event, payload: {}, ref}]. *)
Record frame := { f_topic : string; f_event : string; f_ref : Z }.

Definition collection_topic (slug : string) : string :=
  String.append "collection:" slug.

Definition join_frame (slug : string) (ref : Z) : frame :=
  {| f_topic := collection_topic slug; f_event := "phx_join"; f_ref := ref |}.
Definition leave_frame (slug : string) (ref : Z) : frame :=
  {| f_topic := collection_topic slug; f_event := "phx_leave"; f_ref := ref |}.
Definition heartbeat_frame : frame :=
  {| f_topic := "phoenix"; f_event := "heartbeat"; f_ref := 0 |}.

(** A frame that left through [ws.send], with the socket it was written to
    (the sockets are numbered in creation order) and the time. *)
Record sent_frame := { on_conn : nat; at_time : Z; frame_of : frame }.

(** An inbound message once decoded.  [m_payload] is [message.payload];
    its [p_inner] is [payload.payload] of a stream event and [i_slug] is
    [payload.payload.collection?.slug] ([None] when [collection] or [slug]
    is missing). *)
Record inner := { i_slug : option string }.
Record envelope := { p_status : option string; p_inner : option inner }.
Record wsmessage := {
  m_topic : string;
  m_event : string;
  m_ref : option Z;
  m_payload : option envelope
}.

(** What a ['message'] listener is handed.  [Text] is a text or buffer
    payload, carrying the message it is the JSON of, if any; [Obj] is an
    already decoded object.  [JSON.parse] succeeds on the first only, and
    only the second has [event] and [ref] properties. *)
Inductive wsdata :=
| Text (decoded : option wsmessage)
| Obj (m : wsmessage).

Definition JSON_parse (d : wsdata) : option wsmessage :=
  match d with
  | Text decoded => decoded
  | Obj _ => None
  end.

Definition data_event (d : wsdata) : option string :=
  match d with
  | Text _ => None
  | Obj m => Some (m_event m)
  end.

Definition data_ref (d : wsdata) : option Z :=
  match d with
  | Text _ => None
  | Obj m => m_ref m
  end.

(** ** The state *)

Inductive readyState := CONNECTING | OPEN | CLOSING | CLOSED.

(** The closures handed to [setTimeout] and [setInterval]. *)
Inductive timer_action :=
| TConnectionTimeout
| TInitialHeartbeat
| THeartbeat
| TStartSubscriptions
| TSubscribeNext (collections : list string) (index : nat)
| TReconnect
| TRotation
| TAckTimeout (ref : Z).

Record timer := { t_id : nat; t_due : Z; t_action : timer_action }.

(** A subscribe command suspended at [await subscriptionPromise]:
    the locals it resumes with, the socket its one-shot listener is
    attached to and the timer that rejects the promise. *)
Record pending := {
  p_user : string;
  p_slug : string;
  p_ref : Z;
  p_array : nat;
  p_conn : nat;
  p_timer : nat
}.

(** [subscriptions.json]: user id to slugs, user id to event kinds. *)
Record FileData := {
  fd_subscriptions : list (string * list string);
  fd_eventFilters : list (string * list string)
}.

(** Replies of the bot to the author of a command or interaction. *)
Inductive reply :=
| RUsage
| RInvalidSlug
| RInvalidEvent (e : string)
| RCapacityExceeded
| RAlreadySubscribed
| RSubscriptionSuccessful
| RSubscribedWhenConnected
| RFailedToSubscribe
| RNotSubscribed
| RUnsubscribed
| RCleared
| RFiltersUpdated.

Record State := {
  (* the module-level variables of index.js *)
  userSubscriptions : JsMap.t nat;
  arrays : list (list string);
  pendingSubscriptions : JsMap.t string;
  subscriptionRefs : JsMap.t Z;
  activeCollections : list string;
  eventFilters : JsMap.t (list string);
  ws : option readyState;
  wsGen : nat;
  isWsConnected : bool;
  heartbeatInterval : option nat;
  reconnectInterval : option nat;
  currentRef : Z;
  connectionAttempts : Z;
  reconnectTimeout : option nat;
  (* the [connectionTimeout] of the current socket's listeners *)
  connectionTimeout : option nat;
  (* suspended subscribe handlers *)
  awaiting : list pending;
  (* the environment *)
  now : Z;
  timers : list timer;
  nextTimer : nat;
  file : option FileData;
  sendThrows : bool;
  (* what the program did to the outside *)
  sent : list sent_frame;
  replies : list (string * reply);
  notifications : list (string * wsmessage)
}.

(** Field updates: [set_x v s] is [s] with field [x] replaced by [v]. *)
Definition set_userSubscriptions (v : JsMap.t nat) (s : State) : State :=
  Build_State v (arrays s) (pendingSubscriptions s) (subscriptionRefs s)
    (activeCollections s) (eventFilters s) (ws s) (wsGen s) (isWsConnected s)
    (heartbeatInterval s) (reconnectInterval s) (currentRef s)
    (connectionAttempts s) (reconnectTimeout s) (connectionTimeout s)
    (awaiting s) (now s) (timers s) (nextTimer s) (file s) (sendThrows s)
    (sent s) (replies s) (notifications s).
Definition set_arrays (v : list (list string)) (s : State) : State :=
  Build_State (userSubscriptions s) v (pendingSubscriptions s) (subscriptionRefs s)
    (activeCollections s) (eventFilters s) (ws s) (wsGen s) (isWsConnected s)
    (heartbeatInterval s) (reconnectInterval s) (currentRef s)
    (connectionAttempts s) (reconnectTimeout s) (connectionTimeout s)
    (awaiting s) (now s) (timers s) (nextTimer s) (file s) (sendThrows s)
    (sent s) (replies s) (notifications s).
Definition set_pendingSubscriptions (v : JsMap.t string) (s : State) : State :=
  Build_State (userSubscriptions s) (arrays s) v (subscriptionRefs s) (activeCollections
    s) (eventFilters s) (ws s) (wsGen s) (isWsConnected s) (heartbeatInterval
    s) (reconnectInterval s) (currentRef s) (connectionAttempts s)
    (reconnectTimeout s) (connectionTimeout s) (awaiting s) (now s) (timers s)
    (nextTimer s) (file s) (sendThrows s) (sent s) (replies s) (notifications
    s).
Definition set_subscriptionRefs (v : JsMap.t Z) (s : State) : State :=
  Build_State (userSubscriptions s) (arrays s) (pendingSubscriptions s) v
    (activeCollections s) (eventFilters s) (ws s) (wsGen s) (isWsConnected s)
    (heartbeatInterval s) (reconnectInterval s) (currentRef s)
    (connectionAttempts s) (reconnectTimeout s) (connectionTimeout s)
    (awaiting s) (now s) (timers s) (nextTimer s) (file s) (sendThrows s)
    (sent s) (replies s) (notifications s).
Definition set_activeCollections (v : list string) (s : State) : State :=
  Build_State (userSubscriptions s) (arrays s) (pendingSubscriptions s)
    (subscriptionRefs s) v (eventFilters s) (ws s) (wsGen s) (isWsConnected s)
    (heartbeatInterval s) (reconnectInterval s) (currentRef s)
    (connectionAttempts s) (reconnectTimeout s) (connectionTimeout s)
    (awaiting s) (now s) (timers s) (nextTimer s) (file s) (sendThrows s)
    (sent s) (replies s) (notifications s).
Definition set_eventFilters (v : JsMap.t (list string)) (s : State) : State :=
  Build_State (userSubscriptions s) (arrays s) (pendingSubscriptions s)
    (subscriptionRefs s) (activeCollections s) v (ws s) (wsGen s)
    (isWsConnected s) (heartbeatInterval s) (reconnectInterval s) (currentRef
    s) (connectionAttempts s) (reconnectTimeout s) (connectionTimeout s)
    (awaiting s) (now s) (timers s) (nextTimer s) (file s) (sendThrows s)
    (sent s) (replies s) (notifications s).
Definition set_ws (v : option readyState) (s : State) : State :=
  Build_State (userSubscriptions s) (arrays s) (pendingSubscriptions s)
    (subscriptionRefs s) (activeCollections s) (eventFilters s) v (wsGen s)
    (isWsConnected s) (heartbeatInterval s) (reconnectInterval s) (currentRef
    s) (connectionAttempts s) (reconnectTimeout s) (connectionTimeout s)
    (awaiting s) (now s) (timers s) (nextTimer s) (file s) (sendThrows s)
    (sent s) (replies s) (notifications s).
Definition set_wsGen (v : nat) (s : State) : State :=
  Build_State (userSubscriptions s) (arrays s) (pendingSubscriptions s)
    (subscriptionRefs s) (activeCollections s) (eventFilters s) (ws s) v
    (isWsConnected s) (heartbeatInterval s) (reconnectInterval s) (currentRef
    s) (connectionAttempts s) (reconnectTimeout s) (connectionTimeout s)
    (awaiting s) (now s) (timers s) (nextTimer s) (file s) (sendThrows s)
    (sent s) (replies s) (notifications s).
Definition set_isWsConnected (v : bool) (s : State) : State :=
  Build_State (userSubscriptions s) (arrays s) (pendingSubscriptions s)
    (subscriptionRefs s) (activeCollections s) (eventFilters s) (ws s) (wsGen
    s) v (heartbeatInterval s) (reconnectInterval s) (currentRef s)
    (connectionAttempts s) (reconnectTimeout s) (connectionTimeout s)
    (awaiting s) (now s) (timers s) (nextTimer s) (file s) (sendThrows s)
    (sent s) (replies s) (notifications s).
Definition set_heartbeatInterval (v : option nat) (s : State) : State :=
  Build_State (userSubscriptions s) (arrays s) (pendingSubscriptions s)
    (subscriptionRefs s) (activeCollections s) (eventFilters s) (ws s) (wsGen
    s) (isWsConnected s) v (reconnectInterval s) (currentRef s)
    (connectionAttempts s) (reconnectTimeout s) (connectionTimeout s)
    (awaiting s) (now s) (timers s) (nextTimer s) (file s) (sendThrows s)
    (sent s) (replies s) (notifications s).
Definition set_reconnectInterval (v : option nat) (s : State) : State :=
  Build_State (userSubscriptions s) (arrays s) (pendingSubscriptions s)
    (subscriptionRefs s) (activeCollections s) (eventFilters s) (ws s) (wsGen
    s) (isWsConnected s) (heartbeatInterval s) v (currentRef s)
    (connectionAttempts s) (reconnectTimeout s) (connectionTimeout s)
    (awaiting s) (now s) (timers s) (nextTimer s) (file s) (sendThrows s)
    (sent s) (replies s) (notifications s).
Definition set_currentRef (v : Z) (s : State) : State :=
  Build_State (userSubscriptions s) (arrays s) (pendingSubscriptions s)
    (subscriptionRefs s) (activeCollections s) (eventFilters s) (ws s) (wsGen
    s) (isWsConnected s) (heartbeatInterval s) (reconnectInterval s) v
    (connectionAttempts s) (reconnectTimeout s) (connectionTimeout s)
    (awaiting s) (now s) (timers s) (nextTimer s) (file s) (sendThrows s)
    (sent s) (replies s) (notifications s).
Definition set_connectionAttempts (v : Z) (s : State) : State :=
  Build_State (userSubscriptions s) (arrays s) (pendingSubscriptions s)
    (subscriptionRefs s) (activeCollections s) (eventFilters s) (ws s) (wsGen
    s) (isWsConnected s) (heartbeatInterval s) (reconnectInterval s)
    (currentRef s) v (reconnectTimeout s) (connectionTimeout s) (awaiting s)
    (now s) (timers s) (nextTimer s) (file s) (sendThrows s) (sent s) (replies
    s) (notifications s).
Definition set_reconnectTimeout (v : option nat) (s : State) : State :=
  Build_State (userSubscriptions s) (arrays s) (pendingSubscriptions s)
    (subscriptionRefs s) (activeCollections s) (eventFilters s) (ws s) (wsGen
    s) (isWsConnected s) (heartbeatInterval s) (reconnectInterval s)
    (currentRef s) (connectionAttempts s) v (connectionTimeout s) (awaiting s)
    (now s) (timers s) (nextTimer s) (file s) (sendThrows s) (sent s) (replies
    s) (notifications s).
Definition set_connectionTimeout (v : option nat) (s : State) : State :=
  Build_State (userSubscriptions s) (arrays s) (pendingSubscriptions s)
    (subscriptionRefs s) (activeCollections s) (eventFilters s) (ws s) (wsGen
    s) (isWsConnected s) (heartbeatInterval s) (reconnectInterval s)
    (currentRef s) (connectionAttempts s) (reconnectTimeout s) v (awaiting s)
    (now s) (timers s) (nextTimer s) (file s) (sendThrows s) (sent s) (replies
    s) (notifications s).
Definition set_awaiting (v : list pending) (s : State) : State :=
  Build_State (userSubscriptions s) (arrays s) (pendingSubscriptions s)
    (subscriptionRefs s) (activeCollections s) (eventFilters s) (ws s) (wsGen
    s) (isWsConnected s) (heartbeatInterval s) (reconnectInterval s)
    (currentRef s) (connectionAttempts s) (reconnectTimeout s)
    (connectionTimeout s) v (now s) (timers s) (nextTimer s) (file s)
    (sendThrows s) (sent s) (replies s) (notifications s).
Definition set_now (v : Z) (s : State) : State :=
  Build_State (userSubscriptions s) (arrays s) (pendingSubscriptions s)
    (subscriptionRefs s) (activeCollections s) (eventFilters s) (ws s) (wsGen
    s) (isWsConnected s) (heartbeatInterval s) (reconnectInterval s)
    (currentRef s) (connectionAttempts s) (reconnectTimeout s)
    (connectionTimeout s) (awaiting s) v (timers s) (nextTimer s) (file s)
    (sendThrows s) (sent s) (replies s) (notifications s).
Definition set_timers (v : list timer) (s : State) : State :=
  Build_State (userSubscriptions s) (arrays s) (pendingSubscriptions s)
    (subscriptionRefs s) (activeCollections s) (eventFilters s) (ws s) (wsGen
    s) (isWsConnected s) (heartbeatInterval s) (reconnectInterval s)
    (currentRef s) (connectionAttempts s) (reconnectTimeout s)
    (connectionTimeout s) (awaiting s) (now s) v (nextTimer s) (file s)
    (sendThrows s) (sent s) (replies s) (notifications s).
Definition set_nextTimer (v : nat) (s : State) : State :=
  Build_State (userSubscriptions s) (arrays s) (pendingSubscriptions s)
    (subscriptionRefs s) (activeCollections s) (eventFilters s) (ws s) (wsGen
    s) (isWsConnected s) (heartbeatInterval s) (reconnectInterval s)
    (currentRef s) (connectionAttempts s) (reconnectTimeout s)
    (connectionTimeout s) (awaiting s) (now s) (timers s) v (file s)
    (sendThrows s) (sent s) (replies s) (notifications s).
Definition set_file (v : option FileData) (s : State) : State :=
  Build_State (userSubscriptions s) (arrays s) (pendingSubscriptions s)
    (subscriptionRefs s) (activeCollections s) (eventFilters s) (ws s) (wsGen
    s) (isWsConnected s) (heartbeatInterval s) (reconnectInterval s)
    (currentRef s) (connectionAttempts s) (reconnectTimeout s)
    (connectionTimeout s) (awaiting s) (now s) (timers s) (nextTimer s) v
    (sendThrows s) (sent s) (replies s) (notifications s).
Definition set_sendThrows (v : bool) (s : State) : State :=
  Build_State (userSubscriptions s) (arrays s) (pendingSubscriptions s)
    (subscriptionRefs s) (activeCollections s) (eventFilters s) (ws s) (wsGen
    s) (isWsConnected s) (heartbeatInterval s) (reconnectInterval s)
    (currentRef s) (connectionAttempts s) (reconnectTimeout s)
    (connectionTimeout s) (awaiting s) (now s) (timers s) (nextTimer s) (file
    s) v (sent s) (replies s) (notifications s).
Definition set_sent (v : list sent_frame) (s : State) : State :=
  Build_State (userSubscriptions s) (arrays s) (pendingSubscriptions s)
    (subscriptionRefs s) (activeCollections s) (eventFilters s) (ws s) (wsGen
    s) (isWsConnected s) (heartbeatInterval s) (reconnectInterval s)
    (currentRef s) (connectionAttempts s) (reconnectTimeout s)
    (connectionTimeout s) (awaiting s) (now s) (timers s) (nextTimer s) (file
    s) (sendThrows s) v (replies s) (notifications s).
Definition set_replies (v : list (string * reply)) (s : State) : State :=
  Build_State (userSubscriptions s) (arrays s) (pendingSubscriptions s)
    (subscriptionRefs s) (activeCollections s) (eventFilters s) (ws s) (wsGen
    s) (isWsConnected s) (heartbeatInterval s) (reconnectInterval s)
    (currentRef s) (connectionAttempts s) (reconnectTimeout s)
    (connectionTimeout s) (awaiting s) (now s) (timers s) (nextTimer s) (file
    s) (sendThrows s) (sent s) v (notifications s).
Definition set_notifications (v : list (string * wsmessage)) (s : State) : State :=
  Build_State (userSubscriptions s) (arrays s) (pendingSubscriptions s)
    (subscriptionRefs s) (activeCollections s) (eventFilters s) (ws s) (wsGen
    s) (isWsConnected s) (heartbeatInterval s) (reconnectInterval s)
    (currentRef s) (connectionAttempts s) (reconnectTimeout s)
    (connectionTimeout s) (awaiting s) (now s) (timers s) (nextTimer s) (file
    s) (sendThrows s) (sent s) (replies s) v.

(** ** Primitives: the array store, timers, replies and the socket *)

(** The contents of the array at an address. *)
Definition deref (a : nat) (s : State) : list string := nth a (arrays s) [].

(** [userSubscriptions.get(userId) || []] where the array is only read. *)
Definition subs_of (s : State) (userId : string) : list string :=
  match JsMap.get userId (userSubscriptions s) with
  | Some a => deref a s
  | None => []
  end.

(** A new array object. *)
Definition alloc (l : list string) (s : State) : nat * State :=
  (List.length (arrays s), set_arrays (arrays s ++ [l]) s).

Fixpoint update_nth {A : Type} (n : nat) (f : A -> A) (l : list A) : list A :=
  match l, n with
  | [], _ => []
  | x :: rest, O => f x :: rest
  | x :: rest, S n' => x :: update_nth n' f rest
  end.

(** [array.push(x)] on the array at address [a]. *)
Definition push (a : nat) (x : string) (s : State) : State :=
  set_arrays (update_nth a (fun l => l ++ [x]) (arrays s)) s.

(** [userSubscriptions.get(userId) || []] where the array is kept and
    mutated later: a missing entry yields a fresh empty array. *)
Definition subscriptions_array (userId : string) (s : State) : nat * State :=
  match JsMap.get userId (userSubscriptions s) with
  | Some a => (a, s)
  | None => alloc [] s
  end.

(** [setTimeout(action, delay)]; also the arming of a [setInterval]. *)
Definition setTimeout (delay : Z) (action : timer_action) (s : State) : nat * State :=
  let id := nextTimer s in
  (id, set_nextTimer (S id)
         (set_timers (timers s ++ [{| t_id := id; t_due := now s + delay;
                                      t_action := action |}]) s)).

(** The queue without the timer of a handle. *)
Definition cancel (id : nat) (l : list timer) : list timer :=
  filter (fun t => negb (t_id t =? id)%nat) l.

(** [if (handle) clearTimeout(handle)], and [clearInterval] alike. *)
Definition clearTimer (handle : option nat) (s : State) : State :=
  match handle with
  | Some id => set_timers (cancel id (timers s)) s
  | None => s
  end.

(** [message.reply(...)], [interaction.reply(...)] and
    [interaction.update(...)]. *)
Definition say (userId : string) (r : reply) (s : State) : State :=
  set_replies (replies s ++ [(userId, r)]) s.

(** [ws && ws.readyState === WebSocket.OPEN] *)
Definition ws_is_open (s : State) : bool :=
  match ws s with
  | Some OPEN => true
  | _ => false
  end.

(** [ws.send(JSON.stringify(f))].  The result tells whether the call
    raised.  It raises on a socket that is still connecting (and on
    [null]); [sendThrows] stands for every other condition under which the
    library's [send] raises.  An open socket otherwise takes the frame,
    and a socket that is closing or closed drops it. *)
Definition ws_send (f : frame) (s : State) : bool * State :=
  if sendThrows s then (true, s)
  else
    match ws s with
    | None | Some CONNECTING => (true, s)
    | Some OPEN =>
        (false, set_sent (sent s ++ [{| on_conn := wsGen s; at_time := now s;
                                        frame_of := f |}]) s)
    | Some _ => (false, s)
    end.

(** [ws.terminate()] and [ws.close()] leave a socket closing until its
    ['close'] event. *)
Definition closing (r : readyState) : readyState :=
  match r with
  | CLOSED => CLOSED
  | _ => CLOSING
  end.

Definition ws_terminate (s : State) : State :=
  set_ws (option_map closing (ws s)) s.

(** ** Reconciliation: [resubscribeToCollections] *)

(** One call of the closure [subscribeNext], which shares [collections]
    and [index] with the pass that created it.  Whether or not [send]
    raises, the next call is armed 500 ms later and [index] advances. *)
Definition subscribeNext (collections : list string) (index : nat) (s : State) : State :=
  match nth_error collections index with
  | Some collectionSlug =>
      let ref := currentRef s + 1 in
      let s := set_currentRef ref s in
      let s := set_subscriptionRefs
                 (JsMap.set collectionSlug ref (subscriptionRefs s)) s in
      let s := snd (ws_send (join_frame collectionSlug ref) s) in
      snd (setTimeout 500 (TSubscribeNext collections (S index)) s)
  | None => s
  end.

Definition resubscribeToCollections (s : State) : State :=
  if negb (isWsConnected s) || negb (ws_is_open s) then s
  else
    let s := set_subscriptionRefs [] s in
    subscribeNext (activeCollections s) 0 s.

(** ** Persistence: [loadSubscriptions] and [saveSubscriptions] *)

Definition load_user (s : State) (entry : string * list string) : State :=
  let validSubscriptions := filter isValidCollectionSlug (snd entry) in
  if (0 <? List.length validSubscriptions)%nat then
    let (a, s) := alloc validSubscriptions s in
    let s := set_userSubscriptions
               (JsMap.set (fst entry) a (userSubscriptions s)) s in
    set_activeCollections
      (fold_left (fun acc slug => JsSet.add slug acc) validSubscriptions
         (activeCollections s)) s
  else s.

Definition load_filters (s : State) (entry : string * list string) : State :=
  let validFilters := filter (includes VALID_EVENTS) (snd entry) in
  if (0 <? List.length validFilters)%nat then
    set_eventFilters
      (JsMap.set (fst entry) (JsSet.of_list validFilters) (eventFilters s)) s
  else s.

Definition loadSubscriptions (s : State) : State :=
  match file s with
  | None => s
  | Some data =>
      let s := set_userSubscriptions [] s in
      let s := set_eventFilters [] s in
      let s := set_activeCollections [] s in
      let s := set_subscriptionRefs [] s in
      let s := fold_left load_user (fd_subscriptions data) s in
      let s := fold_left load_filters (fd_eventFilters data) s in
      if ws_is_open s then resubscribeToCollections s else s
  end.

(** The loop over [userSubscriptions.entries()]: the document's
    [subscriptions] and the active set, which only ever gains slugs. *)
Definition save_user (s : State)
    (acc : list (string * list string) * list string) (entry : string * nat)
    : list (string * list string) * list string :=
  let subscriptions := deref (snd entry) s in
  if (0 <? List.length subscriptions)%nat then
    (fst acc ++ [(fst entry, subscriptions)],
     fold_left (fun a slug => JsSet.add slug a) subscriptions (snd acc))
  else acc.

Definition saveSubscriptions (s : State) : State :=
  let saved := fold_left (save_user s) (userSubscriptions s)
                 ([], activeCollections s) in
  let filters := filter (fun kv => (0 <? List.length (snd kv))%nat) (eventFilters s) in
  let s := set_activeCollections (snd saved) s in
  let s := set_file (Some {| fd_subscriptions := fst saved;
                             fd_eventFilters := filters |}) s in
  if ws_is_open s then resubscribeToCollections s else s.

(** ** The connection supervisor *)

(** [delay] of [reconnect] at the attempt count [n]. *)
Definition backoff_delay (n : Z) : Z :=
  Z.min (RECONNECT_DELAY * 2 ^ (n - 1)) MAX_BACKOFF.

Definition reconnect (s : State) : State :=
  let s := clearTimer (reconnectTimeout s) s in
  let s := set_connectionAttempts (connectionAttempts s + 1) s in
  if connectionAttempts s <=? MAX_RECONNECT_ATTEMPTS then
    let (id, s) := setTimeout (backoff_delay (connectionAttempts s)) TReconnect s in
    set_reconnectTimeout (Some id) s
  else s.

(** [connectToOpenSea] up to the registration of the listeners; the
    listeners are [on_open], [on_error], [on_close] and [on_message]. *)
Definition connectToOpenSea (s : State) : State :=
  if ws_is_open s then s
  else
    let s := clearTimer (reconnectTimeout s) s in
    let s := clearTimer (heartbeatInterval s) s in
    let s := ws_terminate s in
    let s := set_wsGen (S (wsGen s)) (set_ws (Some CONNECTING) s) in
    let (id, s) := setTimeout HANDSHAKE_TIMEOUT TConnectionTimeout s in
    set_connectionTimeout (Some id) s.

Definition on_open (s : State) : State :=
  let s := clearTimer (connectionTimeout s) s in
  let s := set_isWsConnected true s in
  let s := set_connectionAttempts 0 s in
  let s := snd (setTimeout 1000 TInitialHeartbeat s) in
  let (id, s) := setTimeout HEARTBEAT_INTERVAL THeartbeat s in
  let s := set_heartbeatInterval (Some id) s in
  snd (setTimeout SUBSCRIPTION_DELAY TStartSubscriptions s).

Definition on_error (s : State) : State :=
  let s := clearTimer (connectionTimeout s) s in
  let s := set_isWsConnected false s in
  reconnect s.

Definition on_close (s : State) : State :=
  let s := clearTimer (connectionTimeout s) s in
  let s := set_isWsConnected false s in
  let s := clearTimer (heartbeatInterval s) s in
  reconnect s.

(** ** The event router: [handleOpenSeaEvent] *)

(** [eventFilters.get(userId) || new Set(VALID_EVENTS)]: a [Set] is an
    object, so the default applies to a missing entry only. *)
Definition filters_or_default (s : State) (userId : string) : list string :=
  match JsMap.get userId (eventFilters s) with
  | Some userFilters => userFilters
  | None => VALID_EVENTS
  end.

(** The body of the loop over [userSubscriptions.entries()]. *)
Definition route_to (event : wsmessage) (collectionSlug : string)
    (s : State) (entry : string * nat) : State :=
  if includes (deref (snd entry) s) collectionSlug then
    if JsSet.has (m_event event) (filters_or_default s (fst entry)) then
      set_notifications (notifications s ++ [(fst entry, event)]) s
    else s
  else s.

(** [payload.collection?.slug] of an event that has [payload.payload],
    when it is truthy. *)
Definition event_slug (event : wsmessage) : option string :=
  match m_payload event with
  | None => None
  | Some p =>
      match p_inner p with
      | None => None
      | Some i =>
          match i_slug i with
          | None => None
          | Some slug => if (String.length slug =? 0)%nat then None else Some slug
          end
      end
  end.

Definition handleOpenSeaEvent (event : wsmessage) (s : State) : State :=
  match event_slug event with
  | None => s
  | Some collectionSlug =>
      fold_left (route_to event collectionSlug) (userSubscriptions s) s
  end.

(** ** Inbound frames *)

(** The ['message'] listener installed by [connectToOpenSea]. *)
Definition main_listener (data : wsdata) (s : State) : State :=
  match JSON_parse data with
  | None => s
  | Some message =>
      if String.eqb (m_event message) "phx_reply" then s
      else if String.eqb (m_event message) "phx_close" then s
      else handleOpenSeaEvent message s
  end.

(** The one-shot listener of a suspended subscribe command:
    [event.event === 'phx_reply' && event.ref === ref], on the socket it
    was attached to. *)
Definition ack_matches (data : wsdata) (s : State) (p : pending) : bool :=
  (p_conn p =? wsGen s)%nat
  && match data_event data with
     | Some e => String.eqb e "phx_reply"
     | None => false
     end
  && match data_ref data with
     | Some r => r =? p_ref p
     | None => false
     end.

(** The subscribe command after [await subscriptionPromise]. *)
Definition resume_subscribe (s : State) (p : pending) : State :=
  let s := push (p_array p) (p_slug p) s in
  let s := set_userSubscriptions
             (JsMap.set (p_user p) (p_array p) (userSubscriptions s)) s in
  let s := saveSubscriptions s in
  say (p_user p) RSubscriptionSuccessful s.

Definition on_message (data : wsdata) (s : State) : State :=
  let s := main_listener data s in
  let resolved := filter (ack_matches data s) (awaiting s) in
  let s := set_awaiting
             (filter (fun p => negb (ack_matches data s p)) (awaiting s)) s in
  let s := fold_left (fun s p => clearTimer (Some (p_timer p)) s) resolved s in
  fold_left resume_subscribe resolved s.

(** The rejection of a promise that timed out: the [catch] of the
    subscribe command. *)
Definition ack_timeout (ref : Z) (s : State) : State :=
  match filter (fun p => p_ref p =? ref) (awaiting s) with
  | [] => s
  | p :: _ =>
      let s := set_awaiting
                 (filter (fun p => negb (p_ref p =? ref)) (awaiting s)) s in
      say (p_user p) RFailedToSubscribe s
  end.

(** ** Commands ([messageCreate]) *)

(** The loop over [args.slice(1)]: the kinds collected so far, or the
    first argument that is not a recognized kind. *)
Fixpoint parse_events (eventArgs : list string) (userEvents : list string)
    : list string + string :=
  match eventArgs with
  | [] => inl userEvents
  | e :: rest =>
      if includes VALID_EVENTS e then parse_events rest (JsSet.add e userEvents)
      else inr e
  end.

Definition requested_events (eventArgs : list string) : list string + string :=
  match eventArgs with
  | [] => inl VALID_EVENTS
  | _ => parse_events eventArgs []
  end.

(** [!subscribe <collection-slug> [events]], up to the [await] when the
    socket is open and to the end otherwise.  [args] are the words after
    the command. *)
Definition cmd_subscribe (userId : string) (args : list string) (s : State) : State :=
  match args with
  | [] => say userId RUsage s
  | collectionSlug :: eventArgs =>
      if (String.length collectionSlug =? 0)%nat then say userId RUsage s
      else if negb (isValidCollectionSlug collectionSlug) then
        say userId RInvalidSlug s
      else
        match requested_events eventArgs with
        | inr e => say userId (RInvalidEvent e) s
        | inl userEvents =>
            let (a, s) := subscriptions_array userId s in
            if (3 <=? List.length (deref a s))%nat then
              say userId RCapacityExceeded s
            else if includes (deref a s) collectionSlug then
              say userId RAlreadySubscribed s
            else
              let s := set_eventFilters
                         (JsMap.set userId userEvents (eventFilters s)) s in
              let ref := currentRef s + 1 in
              let s := set_currentRef ref s in
              let s := set_subscriptionRefs
                         (JsMap.set collectionSlug ref (subscriptionRefs s)) s in
              let s := set_activeCollections
                         (JsSet.add collectionSlug (activeCollections s)) s in
              if ws_is_open s then
                let (threw, s) := ws_send (join_frame collectionSlug ref) s in
                if threw then say userId RFailedToSubscribe s
                else
                  let (id, s) := setTimeout 5000 (TAckTimeout ref) s in
                  set_awaiting
                    (awaiting s ++ [{| p_user := userId; p_slug := collectionSlug;
                                       p_ref := ref; p_array := a;
                                       p_conn := wsGen s; p_timer := id |}]) s
              else
                let s := set_pendingSubscriptions
                           (JsMap.set collectionSlug "join" (pendingSubscriptions s)) s in
                let s := push a collectionSlug s in
                let s := set_userSubscriptions
                           (JsMap.set userId a (userSubscriptions s)) s in
                let s := set_activeCollections
                           (JsSet.add collectionSlug (activeCollections s)) s in
                let s := saveSubscriptions s in
                say userId RSubscribedWhenConnected s
        end
  end.

(** [subscriptions.filter(slug => slug !== collectionSlug)] *)
Definition without (collectionSlug : string) (l : list string) : list string :=
  filter (fun slug => negb (String.eqb slug collectionSlug)) l.

Definition still_subscribed (collectionSlug : string) (s : State) : bool :=
  existsb (fun a => includes (deref a s) collectionSlug)
    (JsMap.values (userSubscriptions s)).

(** The end of the unsubscribe command: save and answer. *)
Definition unsubscribe_done (userId : string) (s : State) : State :=
  say userId RUnsubscribed (saveSubscriptions s).

(** [!unsubscribe <collection-slug>].  The [send] of the leave frame is
    outside any [try]: when it raises, the handler ends there. *)
Definition cmd_unsubscribe (userId : string) (args : list string) (s : State) : State :=
  match args with
  | [] => say userId RUsage s
  | collectionSlug :: _ =>
      if (String.length collectionSlug =? 0)%nat then say userId RUsage s
      else if negb (isValidCollectionSlug collectionSlug) then
        say userId RInvalidSlug s
      else if negb (includes (subs_of s userId) collectionSlug) then
        say userId RNotSubscribed s
      else
        let (a, s) := alloc (without collectionSlug (subs_of s userId)) s in
        let s := set_userSubscriptions
                   (JsMap.set userId a (userSubscriptions s)) s in
        if still_subscribed collectionSlug s then unsubscribe_done userId s
        else
          let s := set_activeCollections
                     (JsSet.delete collectionSlug (activeCollections s)) s in
          if ws_is_open s then
            match JsMap.get collectionSlug (subscriptionRefs s) with
            | None => unsubscribe_done userId s
            | Some ref =>
                if ref =? 0 then unsubscribe_done userId s
                else
                  let (threw, s) := ws_send (leave_frame collectionSlug ref) s in
                  if threw then s
                  else
                    unsubscribe_done userId
                      (set_subscriptionRefs
                         (JsMap.delete collectionSlug (subscriptionRefs s)) s)
            end
          else unsubscribe_done userId s
  end.

(** ** Interactions ([interactionCreate]) *)

(** Button [clear_confirm]. *)
Definition clear_confirm (userId : string) (s : State) : State :=
  let s := set_userSubscriptions (JsMap.delete userId (userSubscriptions s)) s in
  let s := set_eventFilters (JsMap.delete userId (eventFilters s)) s in
  let s := saveSubscriptions s in
  say userId RCleared s.

(** Select menu [remove_collection]. *)
Definition remove_collection (userId collectionSlug : string) (s : State) : State :=
  let (a, s) := alloc (without collectionSlug (subs_of s userId)) s in
  let s := set_userSubscriptions (JsMap.set userId a (userSubscriptions s)) s in
  let s := saveSubscriptions s in
  say userId RUnsubscribed s.

(** The property names every plain object inherits from
    [Object.prototype]. *)
Definition OBJECT_PROTOTYPE_KEYS : list string :=
  [ "constructor"; "__defineGetter__"; "__defineSetter__"; "hasOwnProperty";
    "__lookupGetter__"; "__lookupSetter__"; "isPrototypeOf";
    "propertyIsEnumerable"; "toString"; "valueOf"; "__proto__";
    "toLocaleString" ].

(** [EVENT_TYPES[event]] is neither [undefined] nor [null], so that reading
    [.emoji] and [.name] off it does not raise: [EVENT_TYPES] is a plain
    object whose own keys are those of [VALID_EVENTS], and it answers for
    the inherited names too (with a function, or with the prototype itself
    for [__proto__]). *)
Definition event_type_defined (event : string) : bool :=
  includes VALID_EVENTS event || includes OBJECT_PROTOTYPE_KEYS event.

(** Select menu [event_filters].  The answer reads [EVENT_TYPES[event].emoji]
    and [.name] for every selected value; a value for which [EVENT_TYPES]
    has nothing raises there, after the filter is stored and saved. *)
Definition event_filters_menu (userId : string) (values : list string)
    (s : State) : State :=
  let s := set_eventFilters
             (JsMap.set userId (JsSet.of_list values) (eventFilters s)) s in
  let s := saveSubscriptions s in
  if forallb event_type_defined values then say userId RFiltersUpdated s
  else s.

(** Buttons [filter_sales], [filter_listings] and [filter_all]. *)
Definition filter_button (userId subAction : string) (s : State) : State :=
  let userFilters :=
    match JsMap.get userId (eventFilters s) with
    | Some f => f
    | None => []
    end in
  let store f :=
    say userId RFiltersUpdated
      (saveSubscriptions (set_eventFilters (JsMap.set userId f (eventFilters s)) s)) in
  if String.eqb subAction "sales" then store ["item_sold"]
  else if String.eqb subAction "listings" then store ["item_listed"]
  else if String.eqb subAction "all" then
    store (fold_left (fun acc e => JsSet.add e acc) VALID_EVENTS userFilters)
  else s.

(** Modal [add_collection_modal]. *)
Definition add_collection_modal (userId collectionSlug : string) (s : State) : State :=
  if negb (isValidCollectionSlug collectionSlug) then say userId RInvalidSlug s
  else
    let (a, s) := subscriptions_array userId s in
    if (3 <=? List.length (deref a s))%nat then say userId RCapacityExceeded s
    else if includes (deref a s) collectionSlug then say userId RAlreadySubscribed s
    else
      let s := push a collectionSlug s in
      let s := set_userSubscriptions (JsMap.set userId a (userSubscriptions s)) s in
      let s := saveSubscriptions s in
      say userId RSubscriptionSuccessful s.

(** ** Timers *)

Definition run_timer (action : timer_action) (s : State) : State :=
  match action with
  | TConnectionTimeout =>
      match ws s with
      | None | Some OPEN => s
      | Some _ => reconnect (ws_terminate s)
      end
  | TInitialHeartbeat => snd (ws_send heartbeat_frame s)
  | THeartbeat =>
      if isWsConnected s && ws_is_open s then
        let (threw, s) := ws_send heartbeat_frame s in
        if threw then reconnect s else s
      else s
  | TStartSubscriptions => resubscribeToCollections (loadSubscriptions s)
  | TSubscribeNext collections index => subscribeNext collections index s
  | TReconnect => connectToOpenSea s
  | TRotation => if ws_is_open s then set_ws (Some CLOSING) s else s
  | TAckTimeout ref => ack_timeout ref s
  end.

(** The period of the closures armed with [setInterval]. *)
Definition period (action : timer_action) : option Z :=
  match action with
  | THeartbeat => Some HEARTBEAT_INTERVAL
  | TRotation => Some (5 * 60 * 1000)
  | _ => None
  end.

(** An armed timer runs once it is due; an interval is armed again. *)
Definition fire (id : nat) (s : State) : State :=
  match find (fun t => (t_id t =? id)%nat) (timers s) with
  | None => s
  | Some t =>
      if t_due t <=? now s then
        let rest := cancel id (timers s) in
        let again :=
          match period (t_action t) with
          | Some p => [{| t_id := id; t_due := now s + p; t_action := t_action t |}]
          | None => []
          end in
        run_timer (t_action t) (set_timers (rest ++ again) s)
      else s
  end.

(** ** The event loop *)

(** [client.on('ready')] *)
Definition on_ready (s : State) : State :=
  let s := loadSubscriptions s in
  let s := connectToOpenSea s in
  let (id, s) := setTimeout (5 * 60 * 1000) TRotation s in
  set_reconnectInterval (Some id) s.

(** What the event loop reacts to: the Discord client becoming ready,
    time passing, an armed timer running, the library's [send] starting or
    ceasing to raise, the four socket events, the two commands and the
    five interactions that change the state. *)
Inductive event :=
| Ready
| Elapse (dt : Z)
| Fire (id : nat)
| SendRaises (b : bool)
| WsOpen
| WsError
| WsClose
| WsMessage (data : wsdata)
| Subscribe (userId : string) (args : list string)
| Unsubscribe (userId : string) (args : list string)
| ClearConfirm (userId : string)
| RemoveCollection (userId collectionSlug : string)
| EventFiltersMenu (userId : string) (values : list string)
| FilterButton (userId subAction : string)
| AddCollectionModal (userId collectionSlug : string).

(** One turn of the event loop.  The socket events carry the socket's new
    [readyState] and are delivered to the listeners of the current socket
    only ([connectToOpenSea] removes those of the socket it replaces). *)
Definition step (e : event) (s : State) : State :=
  match e with
  | Ready => on_ready s
  | Elapse dt => set_now (now s + Z.max 0 dt) s
  | Fire id => fire id s
  | SendRaises b => set_sendThrows b s
  | WsOpen =>
      match ws s with
      | Some CONNECTING => on_open (set_ws (Some OPEN) s)
      | _ => s
      end
  | WsError =>
      match ws s with
      | None | Some CLOSED => s
      | Some _ => on_error (set_ws (Some CLOSING) s)
      end
  | WsClose =>
      match ws s with
      | None | Some CLOSED => s
      | Some _ => on_close (set_ws (Some CLOSED) s)
      end
  | WsMessage data =>
      match ws s with
      | Some OPEN | Some CLOSING => on_message data s
      | _ => s
      end
  | Subscribe userId args => cmd_subscribe userId args s
  | Unsubscribe userId args => cmd_unsubscribe userId args s
  | ClearConfirm userId => clear_confirm userId s
  | RemoveCollection userId slug => remove_collection userId slug s
  | EventFiltersMenu userId values => event_filters_menu userId values s
  | FilterButton userId subAction => filter_button userId subAction s
  | AddCollectionModal userId slug => add_collection_modal userId slug s
  end.

Definition run (trace : list event) (s : State) : State :=
  fold_left (fun s e => step e s) trace s.

(** The process at start-up, next to a [subscriptions.json] or none. *)
Definition init (f : option FileData) : State :=
  {| userSubscriptions := []; arrays := []; pendingSubscriptions := [];
     subscriptionRefs := []; activeCollections := []; eventFilters := [];
     ws := None; wsGen := 0; isWsConnected := false;
     heartbeatInterval := None; reconnectInterval := None;
     currentRef := 0; connectionAttempts := 0;
     reconnectTimeout := None; connectionTimeout := None;
     awaiting := []; now := 0; timers := []; nextTimer := 0;
     file := f; sendThrows := false;
     sent := []; replies := []; notifications := [] |}.

Definition reachable (s : State) : Prop :=
  exists f trace, s = run trace (init f).

(** ** Derived notions used in the statements *)

(** Whether the loop body of [handleOpenSeaEvent] notifies the user of
    this entry. *)
Definition interested (event : wsmessage) (collectionSlug : string)
    (s : State) (entry : string * nat) : bool :=
  includes (deref (snd entry) s) collectionSlug
  && JsSet.has (m_event event) (filters_or_default s (fst entry)).

(** What one inbound event hands to [sendNotification]. *)
Definition routed (event : wsmessage) (s : State) : list (string * wsmessage) :=
  match event_slug event with
  | None => []
  | Some slug =>
      map (fun entry => (fst entry, event))
        (filter (interested event slug s) (userSubscriptions s))
  end.


Definition is_join (f : frame) : bool := String.eqb (f_event f) "phx_join".
Definition is_leave (f : frame) : bool := String.eqb (f_event f) "phx_leave".
Definition is_heartbeat (f : frame) : bool := String.eqb (f_event f) "heartbeat".

(** The refs of the join frames of a log, in the order they were sent. *)
Definition join_refs (log : list sent_frame) : list Z :=
  map f_ref (filter is_join (map frame_of log)).

(** The frames the program sends when the counter stands at [cur]:
    heartbeats with ref 0, joins and leaves with a ref the counter has
    issued. *)
Definition frame_ok (cur : Z) (f : frame) : Prop :=
  (is_heartbeat f = true /\ f_ref f = 0)
  \/ ((is_join f = true \/ is_leave f = true) /\ 1 <= f_ref f <= cur).

(** The invariant of the ref counter, the stored refs and the log. *)
Definition refs_inv (s : State) : Prop :=
  0 <= currentRef s
  /\ (forall slug r,
        JsMap.get slug (subscriptionRefs s) = Some r -> 1 <= r <= currentRef s)
  /\ StronglySorted Z.lt (join_refs (sent s))
  /\ Forall (fun sf => frame_ok (currentRef s) (frame_of sf)) (sent s).

(** A transition that keeps the invariant and lowers neither counter. *)
Definition progress (s s' : State) : Prop :=
  (refs_inv s -> refs_inv s')
  /\ currentRef s <= currentRef s'
  /\ connectionAttempts s <= connectionAttempts s'.

(** The invariant of the timer queue: handles are fresh, the only
    reconnection timer that can be armed is the one [reconnectTimeout]
    names, and none is armed once the attempts are used up. *)
Definition timers_inv (s : State) : Prop :=
  (forall t, In t (timers s) -> (t_id t < nextTimer s)%nat)
  /\ (forall t, In t (timers s) -> t_action t = TReconnect ->
        reconnectTimeout s = Some (t_id t))
  /\ (MAX_RECONNECT_ATTEMPTS < connectionAttempts s ->
      forall t, In t (timers s) -> t_action t <> TReconnect).

Definition keeps_timers (s s' : State) : Prop := timers_inv s -> timers_inv s'.

(** The invariant of the array store: [userSubscriptions] has one entry
    per key, every address it or a suspended handler holds is allocated,
    and suspended handlers wait for distinct refs the counter has
    issued. *)
Definition store_inv (s : State) : Prop :=
  0 <= currentRef s
  /\ NoDup (map fst (userSubscriptions s))
  /\ (forall userId a, In (userId, a) (userSubscriptions s) ->
        (a < List.length (arrays s))%nat)
  /\ Forall (fun p => (p_array p < List.length (arrays s))%nat
                      /\ 1 <= p_ref p <= currentRef s) (awaiting s)
  /\ NoDup (map p_ref (awaiting s)).

(** A transition that keeps it; the counter and the store only grow. *)
Definition keeps_store (s s' : State) : Prop :=
  store_inv s ->
  store_inv s'
  /\ currentRef s <= currentRef s'
  /\ (List.length (arrays s) <= List.length (arrays s'))%nat.

(** The refs of all frames written to one socket, in order. *)
Definition refs_on (conn : nat) (log : list sent_frame) : list Z :=
  map (fun sf => f_ref (frame_of sf))
    (filter (fun sf => (on_conn sf =? conn)%nat) log).

(** ** Scenarios *)

Definition item_sold_azuki : wsmessage :=
  {| m_topic := "collection:azuki"; m_event := "item_sold"; m_ref := None;
     m_payload := Some {| p_status := None;
                          p_inner := Some {| i_slug := Some "azuki" |} |} |}.

(** A user with three subscriptions, made through the modal while the
    first socket is still connecting. *)
Definition three_subscriptions : State :=
  run [ Ready; AddCollectionModal "U1" "azuki";
        AddCollectionModal "U1" "doodles-official";
        AddCollectionModal "U1" "moonbirds" ] (init None).

(** A user whose select menu came back with no kind selected. *)
Definition empty_filter : State :=
  run [ Ready; AddCollectionModal "U1" "azuki"; EventFiltersMenu "U1" [] ]
    (init None).

(** The first connection, up to the second heartbeat. *)
Definition two_heartbeats : State :=
  run [ Ready; WsOpen; Elapse 1000; Fire 2; Elapse 29000; Fire 3 ] (init None).

(** Three connections that fail in a row.  A failed handshake raises
    ['error'] and then ['close'], and each of them calls [reconnect]; the
    state is the one between the third ['error'] and its ['close']. *)
Definition third_failure : State :=
  run [ Ready; WsError; WsClose; Elapse 10000; Fire 3; WsError; WsClose;
        Elapse 30000; Fire 6; WsError ] (init None).

(** A subscription saved while the first socket is connecting, then a
    connection that is closed and established again, every timer firing
    when due. *)
Definition reconnect_cycle : list event :=
  [ Ready; AddCollectionModal "U1" "azuki"; WsOpen;
    Elapse 1000; Fire 2; Elapse 1000; Fire 4; Elapse 500; Fire 5; Fire 6;
    WsClose; Elapse 5000; Fire 7; WsOpen;
    Elapse 1000; Fire 9; Elapse 1000; Fire 11; Elapse 500; Fire 12; Fire 13 ].

Definition two_connections : State := run reconnect_cycle (init None).

(** The join frames for one collection written to one socket. *)
Definition joins_of (collectionSlug : string) (conn : nat)
    (log : list sent_frame) : list sent_frame :=
  filter (fun sf => (on_conn sf =? conn)%nat
                    && is_join (frame_of sf)
                    && String.eqb (f_topic (frame_of sf))
                         (collection_topic collectionSlug)) log.

(** A subscribe command on the first connection whose ack never comes:
    the timers fire when due, the ack timer last. *)
Definition connected_idle : State := run [ Ready; WsOpen ] (init None).

Definition subscribe_timed_out : State :=
  run [ Subscribe "U1" ["azuki"]; Elapse 1000; Fire 2; Elapse 1000; Fire 4;
        Elapse 500; Fire 6; Elapse 2500; Fire 5 ] connected_idle.

(** A subscription made and withdrawn by command before the socket has
    opened. *)
Definition offline_unsubscribed : State :=
  run [ Ready; Subscribe "U1" ["azuki"]; Unsubscribe "U1" ["azuki"] ] (init None).

(** The only subscriber of a joined collection confirms "clear all" on
    the second connection. *)
Definition cleared : State := step (ClearConfirm "U1") two_connections.

(** [ws.send] raises on the first connection: for the initial heartbeat,
    and later for the first heartbeat of the interval. *)
Definition initial_heartbeat_failed : State :=
  run [ SendRaises true; Elapse 1000; Fire 2 ] connected_idle.

Definition interval_heartbeat_failed : State :=
  run [ Elapse 1000; Fire 4; Elapse 28000; Fire 3 ] initial_heartbeat_failed.

(** ** One reconciliation pass, run to its end *)

(** The turns of the event loop that carry a pass through [n]
    collections when nothing else happens: 500 ms pass and the timer the
    previous call armed fires.  [id] is the handle of the first of them. *)
Fixpoint pass_turns (id : nat) (n : nat) : list event :=
  match n with
  | O => []
  | S n' => Elapse 500 :: Fire id :: pass_turns (S id) n'
  end.

(** One join per collection, with consecutive refs from [ref] on and
    500 ms apart from [time] on. *)
Fixpoint joins_from (conn : nat) (collections : list string) (ref time : Z)
    : list sent_frame :=
  match collections with
  | [] => []
  | slug :: rest =>
      {| on_conn := conn; at_time := time; frame_of := join_frame slug ref |}
      :: joins_from conn rest (ref + 1) (time + 500)
  end.

(** ** Process exit *)

(** [process.on('SIGINT')], up to [process.exit()]. *)
Definition on_sigint (s : State) : State :=
  let s := saveSubscriptions s in
  let s := ws_terminate s in
  let s := clearTimer (heartbeatInterval s) s in
  clearTimer (reconnectInterval s) s.

(** ** Further notions used in the statements *)

(** The leave frames of a log. *)
Definition leaves (log : list sent_frame) : list sent_frame :=
  filter (fun sf => is_leave (frame_of sf)) log.

(** What [saveSubscriptions] writes for the entries of
    [userSubscriptions]: the users whose array is not empty, in order. *)
Definition saved_subscriptions (s : State) (entries : list (string * nat))
    : list (string * list string) :=
  flat_map (fun entry =>
              if (0 <? List.length (deref (snd entry) s))%nat
              then [(fst entry, deref (snd entry) s)] else []) entries.

(** What a text frame hands to the router: nothing for a frame that does
    not decode, a [phx_reply] or a [phx_close]. *)
Definition text_routed (decoded : option wsmessage) (s : State)
    : list (string * wsmessage) :=
  match decoded with
  | None => []
  | Some message =>
      if String.eqb (m_event message) "phx_reply"
         || String.eqb (m_event message) "phx_close"
      then [] else routed message s
  end.

(** The answers of a subscribe command that was turned down. *)
Definition is_rejection (r : reply) : bool :=
  match r with
  | RUsage | RInvalidSlug | RInvalidEvent _ | RCapacityExceeded
  | RAlreadySubscribed => true
  | _ => false
  end.

(** A subscription made by command before the socket has opened. *)
Definition subscribed_offline : State :=
  run [ Ready; Subscribe "U1" ["azuki"; "item_sold"] ] (init None).

(** Two users who hold the same collection. *)
Definition shared_collection : State :=
  run [ Ready; AddCollectionModal "U1" "azuki"; AddCollectionModal "U2" "azuki" ]
    (init None).

(** A subscribe command on the first connection, suspended on ref 1,
    and the reply to it as a decoded object. *)
Definition awaiting_ack : State :=
  run [ Ready; WsOpen; Subscribe "U1" ["azuki"] ] (init None).

Definition ack_of_first_join : wsmessage :=
  {| m_topic := "collection:azuki"; m_event := "phx_reply"; m_ref := Some 1;
     m_payload := Some {| p_status := Some "ok"; p_inner := None |} |}.

(** The first connection when the scheduled reconnect is due. *)
Definition rotation_due : State :=
  run [ Ready; WsOpen; Elapse 300000 ] (init None).

(** Three collections subscribed through the modal, and the socket
    opens. *)
Definition offline_three : State :=
  run [ Ready; AddCollectionModal "U1" "azuki"; AddCollectionModal "U1" "doodles";
        AddCollectionModal "U1" "moonbirds"; WsOpen ] (init None).

(** A file in which one of a user's slugs is not well formed. *)
Definition file_with_bad_slug : FileData :=
  {| fd_subscriptions := [("U1", ["azuki"; "Not A Slug"; "doodles"])];
     fd_eventFilters := [] |}.

(** The process started next to that file. *)
Definition started_with_bad_slug : State :=
  run [Ready] (init (Some file_with_bad_slug)).

(** ** Invariants of the registry and of the timer queue *)

(** A transition that keeps an invariant. *)
Definition keeps (inv : State -> Prop) (s s' : State) : Prop := inv s -> inv s'.

Definition well_formed (l : list string) : Prop :=
  Forall (fun slug => isValidCollectionSlug slug = true) l.

(** The frames the program writes: the heartbeat, and joins and leaves
    on the topic of a well-formed slug. *)
Definition frame_wf (f : frame) : Prop :=
  f = heartbeat_frame
  \/ exists slug ref,
       isValidCollectionSlug slug = true
       /\ (f = join_frame slug ref \/ f = leave_frame slug ref).

(** A pass in progress walks through well-formed slugs. *)
Definition action_wf (action : timer_action) : Prop :=
  match action with
  | TSubscribeNext collections _ => well_formed collections
  | _ => True
  end.

(** Every slug the process holds anywhere has gone through
    [isValidCollectionSlug]. *)
Definition slugs_inv (s : State) : Prop :=
  Forall well_formed (arrays s)
  /\ well_formed (activeCollections s)
  /\ Forall (fun t => action_wf (t_action t)) (timers s)
  /\ Forall (fun p => isValidCollectionSlug (p_slug p) = true) (awaiting s)
  /\ Forall (fun sf => frame_wf (frame_of sf)) (sent s).

(** The armed timers that open a new connection, and those that send
    the heartbeat. *)
Definition is_reconnect (t : timer) : bool :=
  match t_action t with
  | TReconnect => true
  | _ => false
  end.

Definition is_beat (t : timer) : bool :=
  match t_action t with
  | THeartbeat => true
  | _ => false
  end.

(** The timer [reconnect] arms at the attempt count [n]. *)
Definition reconnection (id : nat) (time n : Z) : timer :=
  {| t_id := id; t_due := time + backoff_delay n; t_action := TReconnect |}.

(** The invariant of the heartbeat: timer handles are never shared, the
    only heartbeat interval that can be armed is the one
    [heartbeatInterval] names, and none is armed while a socket is being
    connected. *)
Definition beat_inv (s : State) : Prop :=
  (forall t, In t (timers s) -> (t_id t < nextTimer s)%nat)
  /\ NoDup (map t_id (timers s))
  /\ (forall t, In t (timers s) -> t_action t = THeartbeat ->
                heartbeatInterval s = Some (t_id t))
  /\ (ws s = None \/ ws s = Some CONNECTING ->
      forall t, In t (timers s) -> t_action t <> THeartbeat).

(** Arrays are not shared.  The array at [a] is [userId]'s: no other
    user's entry and no other user's suspended command refers to it. *)
Definition owned_by (userId : string) (a : nat) (s : State) : Prop :=
  (forall v, In (v, a) (userSubscriptions s) -> v = userId)
  /\ (forall p, In p (awaiting s) -> p_array p = a -> p_user p = userId)
  /\ (a < List.length (arrays s))%nat.

(** Every array in use has one owner, and every user has one filter. *)
Definition own_inv (s : State) : Prop :=
  (forall u a, In (u, a) (userSubscriptions s) -> owned_by u a s)
  /\ (forall p, In p (awaiting s) -> owned_by (p_user p) (p_array p) s)
  /\ NoDup (map fst (eventFilters s)).

Definition reg_inv (s : State) : Prop := store_inv s /\ own_inv s.

(** The user a command or an interaction comes from. *)
Definition author (e : event) : option string :=
  match e with
  | Subscribe userId _ | Unsubscribe userId _ | ClearConfirm userId
  | RemoveCollection userId _ | EventFiltersMenu userId _
  | FilterButton userId _ | AddCollectionModal userId _ => Some userId
  | _ => None
  end.

(** What the registry holds for one user. *)
Definition holds (userId : string) (subscriptions : list string)
    (kinds : option (list string)) (s : State) : Prop :=
  subs_of s userId = subscriptions
  /\ JsMap.get userId (eventFilters s) = kinds.

(** The leave frames written so far. *)
Definition leaves_are (log : list sent_frame) (s : State) : Prop :=
  leaves (sent s) = log.

(** ** Connections that fail one after the other *)

(** The first connection fails: ['error'], then ['close']. *)
Definition first_failure : State :=
  run [ Ready; WsError; WsClose ] (init None).

(** The reconnection armed by then runs when it is due, and the second
    connection fails too. *)
Definition second_failure : State :=
  run [ Elapse 10000; Fire 3; WsError; WsClose ] first_failure.

(** And so does the third. *)
Definition three_failures : State :=
  run [ Elapse 30000; Fire 6; WsError; WsClose ] second_failure.

(** ** Menus as they are built *)

(** Both [event_filters] menus are built with [setMinValues(1)]: such a
    menu comes back with at least one value selected. *)
Definition min_values (e : event) : Prop :=
  match e with
  | EventFiltersMenu _ values => values <> []
  | _ => True
  end.

(** The states the process gets into when its menus come back as they
    are built. *)
Definition served (s : State) : Prop :=
  exists f trace, Forall min_values trace /\ s = run trace (init f).

(** No stored filter is the empty set. *)
Definition filled (s : State) : Prop :=
  forall u f, In (u, f) (eventFilters s) -> f <> [].

(** * Properties *)

(** Reading a field through the field updates. *)
Ltac fields :=
  cbn [userSubscriptions arrays pendingSubscriptions subscriptionRefs
    activeCollections eventFilters ws wsGen isWsConnected heartbeatInterval
    reconnectInterval currentRef connectionAttempts reconnectTimeout
    connectionTimeout awaiting now timers nextTimer file sendThrows sent
    replies notifications set_userSubscriptions set_arrays
    set_pendingSubscriptions set_subscriptionRefs set_activeCollections
    set_eventFilters set_ws set_wsGen set_isWsConnected
    set_heartbeatInterval set_reconnectInterval set_currentRef
    set_connectionAttempts set_reconnectTimeout set_connectionTimeout
    set_awaiting set_now set_timers set_nextTimer set_file set_sendThrows
    set_sent set_replies set_notifications fst snd].
Ltac fields_in H :=
  cbn [userSubscriptions arrays pendingSubscriptions subscriptionRefs
    activeCollections eventFilters ws wsGen isWsConnected heartbeatInterval
    reconnectInterval currentRef connectionAttempts reconnectTimeout
    connectionTimeout awaiting now timers nextTimer file sendThrows sent
    replies notifications set_userSubscriptions set_arrays
    set_pendingSubscriptions set_subscriptionRefs set_activeCollections
    set_eventFilters set_ws set_wsGen set_isWsConnected
    set_heartbeatInterval set_reconnectInterval set_currentRef
    set_connectionAttempts set_reconnectTimeout set_connectionTimeout
    set_awaiting set_now set_timers set_nextTimer set_file set_sendThrows
    set_sent set_replies set_notifications fst snd] in H.

Ltac head_of t :=
  lazymatch t with
  | ?f _ => head_of f
  | _ => t
  end.

(** Whether a term is a field update. *)
Ltac is_setter t :=
  let h := head_of t in
  lazymatch h with
  | set_userSubscriptions => idtac
  | set_arrays => idtac
  | set_pendingSubscriptions => idtac
  | set_subscriptionRefs => idtac
  | set_activeCollections => idtac
  | set_eventFilters => idtac
  | set_ws => idtac
  | set_wsGen => idtac
  | set_isWsConnected => idtac
  | set_heartbeatInterval => idtac
  | set_reconnectInterval => idtac
  | set_currentRef => idtac
  | set_connectionAttempts => idtac
  | set_reconnectTimeout => idtac
  | set_connectionTimeout => idtac
  | set_awaiting => idtac
  | set_now => idtac
  | set_timers => idtac
  | set_nextTimer => idtac
  | set_file => idtac
  | set_sendThrows => idtac
  | set_sent => idtac
  | set_replies => idtac
  | set_notifications => idtac
  end.

(** ** The containers *)

Section Containers.
Context {V : Type}.
Implicit Types (m : list (string * V)) (k : string) (v : V).

Lemma get_set_same k v m : JsMap.get k (JsMap.set k v m) = Some v.
Proof.
  induction m as [|[k' v'] m IH]; simpl.
  - now rewrite String.eqb_refl.
  - destruct (String.eqb k k') eqn:E; simpl; rewrite ?String.eqb_refl, ?E; auto.
Qed.

Lemma get_set_other k k' v m :
  k <> k' -> JsMap.get k' (JsMap.set k v m) = JsMap.get k' m.
Proof.
  intros Hne. induction m as [|[k0 v0] m IH]; simpl.
  - destruct (String.eqb_spec k' k); congruence.
  - destruct (String.eqb_spec k k0) as [->|]; simpl.
    + destruct (String.eqb_spec k' k0); congruence.
    + destruct (String.eqb_spec k' k0); auto.
Qed.

Lemma get_set k k' v m :
  JsMap.get k' (JsMap.set k v m) =
  if String.eqb k' k then Some v else JsMap.get k' m.
Proof.
  destruct (String.eqb_spec k' k) as [->|Hne].
  - apply get_set_same.
  - apply get_set_other; congruence.
Qed.

Lemma get_delete_same k m : JsMap.get k (JsMap.delete k m) = None.
Proof.
  induction m as [|[k' v'] m IH]; simpl; auto.
  destruct (String.eqb k k') eqn:E; simpl; rewrite ?E; auto.
Qed.

Lemma get_delete_some k k' v m :
  JsMap.get k' (JsMap.delete k m) = Some v -> JsMap.get k' m = Some v.
Proof.
  induction m as [|[k0 v0] m IH]; simpl; auto.
  destruct (String.eqb_spec k k0) as [->|]; simpl.
  - destruct (String.eqb_spec k' k0) as [->|]; auto.
    intros H. now rewrite get_delete_same in H.
  - destruct (String.eqb_spec k' k0); auto.
Qed.

Lemma get_in k v m : JsMap.get k m = Some v -> In (k, v) m.
Proof.
  induction m as [|[k' v'] m IH]; simpl; [discriminate|].
  destruct (String.eqb_spec k k') as [->|]; intros H.
  - left. congruence.
  - right. auto.
Qed.
End Containers.

Lemma includes_In l x : includes l x = true <-> In x l.
Proof.
  unfold includes. rewrite existsb_exists. split.
  - intros (y & Hy & E). apply String.eqb_eq in E. now subst.
  - intros H. exists x. split; auto. apply String.eqb_refl.
Qed.

Lemma has_In x l : JsSet.has x l = true <-> In x l.
Proof. apply includes_In. Qed.

Lemma add_In x y l : In y (JsSet.add x l) <-> y = x \/ In y l.
Proof.
  unfold JsSet.add. destruct (JsSet.has x l) eqn:E.
  - apply has_In in E. split; auto. intros [->|]; auto.
  - rewrite in_app_iff. simpl. intuition congruence.
Qed.

Lemma add_all_In l acc y :
  In y (fold_left (fun a slug => JsSet.add slug a) l acc) <-> In y l \/ In y acc.
Proof.
  revert acc. induction l as [|x l IH]; intros acc; simpl.
  - tauto.
  - rewrite IH, add_In. intuition congruence.
Qed.

Lemma delete_In x y l : In y (JsSet.delete x l) <-> In y l /\ y <> x.
Proof.
  unfold JsSet.delete. rewrite filter_In.
  destruct (String.eqb_spec x y); simpl; intuition congruence.
Qed.

Lemma without_In x y l : In y (without x l) <-> In y l /\ y <> x.
Proof.
  unfold without. rewrite filter_In.
  destruct (String.eqb_spec y x); simpl; intuition congruence.
Qed.

(** ** The subscription cap *)

Lemma subs_of_array s userId :
  (0 < List.length (subs_of s userId))%nat ->
  exists a, JsMap.get userId (userSubscriptions s) = Some a
            /\ subscriptions_array userId s = (a, s)
            /\ deref a s = subs_of s userId.
Proof.
  unfold subs_of, subscriptions_array.
  destruct (JsMap.get userId (userSubscriptions s)) as [a|]; simpl.
  - intros _. now exists a.
  - lia.
Qed.

Lemma parse_events_valid eventArgs userEvents :
  Forall (fun e => In e VALID_EVENTS) eventArgs ->
  exists kinds, parse_events eventArgs userEvents = inl kinds.
Proof.
  intros H. revert userEvents.
  induction H as [|e rest He _ IH]; intros userEvents; cbn [parse_events].
  - now exists userEvents.
  - apply includes_In in He. rewrite He. apply IH.
Qed.

Lemma requested_events_valid eventArgs :
  Forall (fun e => In e VALID_EVENTS) eventArgs ->
  exists kinds, requested_events eventArgs = inl kinds.
Proof.
  intros H. unfold requested_events. destruct eventArgs.
  - now exists VALID_EVENTS.
  - now apply parse_events_valid.
Qed.

Lemma valid_slug_nonempty slug :
  isValidCollectionSlug slug = true -> (String.length slug =? 0)%nat = false.
Proof.
  unfold isValidCollectionSlug. intros H.
  apply andb_prop in H as [H _]. apply Nat.ltb_lt in H.
  apply Nat.eqb_neq. lia.
Qed.

(** ** The event router *)

Lemma route_to_frame event slug s entry :
  arrays (route_to event slug s entry) = arrays s
  /\ eventFilters (route_to event slug s entry) = eventFilters s.
Proof.
  unfold route_to.
  destruct (includes _ _); [destruct (JsSet.has _ _)|]; auto.
Qed.

Lemma interested_frame event slug s s' entry :
  arrays s' = arrays s -> eventFilters s' = eventFilters s ->
  interested event slug s' entry = interested event slug s entry.
Proof.
  unfold interested, filters_or_default, deref. now intros -> ->.
Qed.

Lemma route_to_notifications event slug s entry :
  notifications (route_to event slug s entry) =
  notifications s
    ++ (if interested event slug s entry then [(fst entry, event)] else []).
Proof.
  unfold route_to, interested.
  destruct (includes _ _); simpl; [|now rewrite app_nil_r].
  destruct (JsSet.has _ _); simpl; [reflexivity|now rewrite app_nil_r].
Qed.

Lemma route_all event slug entries : forall s,
  notifications (fold_left (route_to event slug) entries s) =
  notifications s
    ++ map (fun entry => (fst entry, event))
         (filter (interested event slug s) entries).
Proof.
  induction entries as [|entry entries IH]; intros s; simpl.
  - now rewrite app_nil_r.
  - rewrite IH, route_to_notifications.
    destruct (route_to_frame event slug s entry) as [Ha Hf].
    rewrite (filter_ext _ _ (fun e => interested_frame event slug s _ e Ha Hf)).
    rewrite <- app_assoc.
    destruct (interested event slug s entry); reflexivity.
Qed.

Lemma handleOpenSeaEvent_notifications event s :
  notifications (handleOpenSeaEvent event s) = notifications s ++ routed event s.
Proof.
  unfold handleOpenSeaEvent, routed. destruct (event_slug event).
  - apply route_all.
  - now rewrite app_nil_r.
Qed.

(** ** Backoff *)

Lemma backoff_delay_values :
  backoff_delay 1 = 5000 /\ backoff_delay 2 = 10000 /\ backoff_delay 3 = 20000
  /\ backoff_delay 4 = 30000 /\ backoff_delay 5 = 30000.
Proof. repeat split; reflexivity. Qed.

Lemma backoff_delay_bound n : backoff_delay n <= MAX_BACKOFF.
Proof. unfold backoff_delay. apply Z.le_min_r. Qed.

Lemma backoff_delay_mono n m : n <= m -> backoff_delay n <= backoff_delay m.
Proof.
  intros H. unfold backoff_delay.
  apply Z.min_le_compat_r.
  apply Z.mul_le_mono_nonneg_l; [unfold RECONNECT_DELAY; lia|].
  destruct (Z_lt_le_dec (n - 1) 0) as [Hneg|Hpos].
  - rewrite (Z.pow_neg_r 2 (n - 1)) by assumption.
    apply Z.pow_nonneg. lia.
  - apply Z.pow_le_mono_r; lia.
Qed.

Lemma reconnect_arms s :
  connectionAttempts s + 1 <= MAX_RECONNECT_ATTEMPTS ->
  connectionAttempts (reconnect s) = connectionAttempts s + 1
  /\ reconnectTimeout (reconnect s) = Some (nextTimer s)
  /\ timers (reconnect s) =
     timers (clearTimer (reconnectTimeout s) s)
       ++ [{| t_id := nextTimer s;
              t_due := now s + backoff_delay (connectionAttempts s + 1);
              t_action := TReconnect |}].
Proof.
  intros H. unfold reconnect. cbn.
  apply Z.leb_le in H.
  destruct (reconnectTimeout s); cbn; rewrite H; cbn; auto.
Qed.

Lemma reconnect_gives_up s :
  MAX_RECONNECT_ATTEMPTS < connectionAttempts s + 1 ->
  reconnect s =
  set_connectionAttempts (connectionAttempts s + 1)
    (clearTimer (reconnectTimeout s) s).
Proof.
  intros H. unfold reconnect. cbn.
  apply Z.leb_gt in H.
  destruct (reconnectTimeout s); cbn; rewrite H; reflexivity.
Qed.

(** ** The ref counter and the log of frames *)

Lemma progress_refl s : progress s s.
Proof. unfold progress. split; [auto|split; lia]. Qed.

Lemma progress_trans s t u : progress s t -> progress t u -> progress s u.
Proof. unfold progress. intros (?&?&?) (?&?&?). split; [auto|split; lia]. Qed.

(** The relation only looks at four fields. *)
Lemma progress_same s t t' :
  currentRef t' = currentRef t ->
  subscriptionRefs t' = subscriptionRefs t ->
  sent t' = sent t ->
  connectionAttempts t' = connectionAttempts t ->
  progress s t -> progress s t'.
Proof.
  unfold progress, refs_inv. intros -> -> -> ->. auto.
Qed.

Lemma progress_fold {A : Type} (f : State -> A -> State) (l : list A) :
  (forall s x, progress s (f s x)) -> forall s, progress s (fold_left f l s).
Proof.
  intros Hf. induction l as [|x l IH]; intros s; simpl.
  - apply progress_refl.
  - eapply progress_trans; [apply Hf|apply IH].
Qed.

Lemma frame_ok_mono cur cur' f : cur <= cur' -> frame_ok cur f -> frame_ok cur' f.
Proof.
  unfold frame_ok. intros H [?|[? ?]]; [left; assumption|right].
  split; [assumption|lia].
Qed.

Lemma join_refs_app log log' : join_refs (log ++ log') = join_refs log ++ join_refs log'.
Proof. unfold join_refs. now rewrite map_app, filter_app, map_app. Qed.

Lemma join_refs_bound cur log :
  Forall (fun sf => frame_ok cur (frame_of sf)) log ->
  Forall (fun r => r <= cur) (join_refs log).
Proof.
  unfold join_refs. induction 1 as [|sf log Hsf _ IH]; simpl; auto.
  destruct (is_join (frame_of sf)) eqn:E; simpl; auto.
  constructor; auto.
  destruct Hsf as [[Hh _]|[_ H1]]; [|lia].
  unfold is_join, is_heartbeat in *.
  apply String.eqb_eq in E, Hh. congruence.
Qed.

Lemma sorted_snoc l a :
  StronglySorted Z.lt l -> Forall (fun r => r < a) l -> StronglySorted Z.lt (l ++ [a]).
Proof.
  induction 1 as [|x l Hl IH Hx]; intros Ha; simpl.
  - repeat constructor.
  - inversion Ha; subst. constructor; auto.
    apply Forall_app. split; auto.
Qed.

(** Frames other than joins keep the invariant when they carry a ref the
    program is allowed to use. *)
Lemma refs_inv_sent_other s sf :
  is_join (frame_of sf) = false ->
  frame_ok (currentRef s) (frame_of sf) ->
  refs_inv s -> refs_inv (set_sent (sent s ++ [sf]) s).
Proof.
  unfold refs_inv. fields. intros Hj Hok (H0 & Hm & Hs & Hf).
  split; [assumption|]. split; [assumption|]. split.
  - rewrite join_refs_app. unfold join_refs at 2. simpl. rewrite Hj. simpl.
    now rewrite app_nil_r.
  - apply Forall_app. split; auto.
Qed.

Lemma ws_send_cases f s :
  ws_send f s = (true, s) \/ ws_send f s = (false, s)
  \/ ws_send f s =
     (false, set_sent (sent s ++ [{| on_conn := wsGen s; at_time := now s;
                                     frame_of := f |}]) s).
Proof.
  unfold ws_send. destruct (sendThrows s); auto.
  destruct (ws s) as [[]|]; auto.
Qed.

Lemma progress_send_other f s :
  is_join f = false ->
  (refs_inv s -> frame_ok (currentRef s) f) ->
  progress s (snd (ws_send f s)).
Proof.
  intros Hj Hok.
  destruct (ws_send_cases f s) as [E|[E|E]]; rewrite E; simpl;
    try apply progress_refl.
  unfold progress. fields. split; [|split; lia].
  intros Hinv. apply refs_inv_sent_other; auto.
Qed.

Lemma progress_heartbeat s : progress s (snd (ws_send heartbeat_frame s)).
Proof.
  apply progress_send_other; auto.
  intros _. left. split; reflexivity.
Qed.

(** The allocation of a ref and the join frame that carries it:
    [const ref = ++currentRef; subscriptionRefs.set(slug, ref); ...
    ws.send(join)], with any change in between that leaves the counter,
    the refs and the log alone. *)
Lemma stored_refs_bound_set s slug cur' m :
  (forall k r, JsMap.get k (subscriptionRefs s) = Some r -> 1 <= r <= currentRef s) ->
  0 <= currentRef s -> cur' = currentRef s + 1 ->
  m = JsMap.set slug cur' (subscriptionRefs s) ->
  forall k r, JsMap.get k m = Some r -> 1 <= r <= cur'.
Proof.
  intros Hmap H0 -> -> k r. rewrite get_set.
  destruct (String.eqb k slug); intros H.
  - inversion H; lia.
  - apply Hmap in H. lia.
Qed.

Lemma frames_ok_next s :
  refs_inv s ->
  Forall (fun sf => frame_ok (currentRef s + 1) (frame_of sf)) (sent s).
Proof.
  intros (_ & _ & _ & Hf).
  eapply Forall_impl; [|exact Hf]. intros sf. apply frame_ok_mono. lia.
Qed.

(** [const ref = ++currentRef; subscriptionRefs.set(slug, ref)], with any
    change next to it that leaves the counter, the refs and the log
    alone. *)
Lemma progress_issue_ref s t slug :
  currentRef t = currentRef s + 1 ->
  subscriptionRefs t = JsMap.set slug (currentRef s + 1) (subscriptionRefs s) ->
  sent t = sent s ->
  connectionAttempts t = connectionAttempts s ->
  progress s t.
Proof.
  intros Hc Hm Hs Ha.
  unfold progress. rewrite Hc, Ha. split; [|lia].
  intros Hinv. generalize (frames_ok_next s Hinv).
  destruct Hinv as (H0 & Hmap & Hsorted & Hf).
  intros Hf'. unfold refs_inv. rewrite Hc, Hs.
  split; [lia|]. split; [|auto].
  eapply stored_refs_bound_set; eauto.
Qed.

(** The same followed by the join frame that carries the new ref. *)
Lemma progress_join s t slug :
  currentRef t = currentRef s + 1 ->
  subscriptionRefs t = JsMap.set slug (currentRef s + 1) (subscriptionRefs s) ->
  sent t = sent s ->
  connectionAttempts t = connectionAttempts s ->
  progress s (snd (ws_send (join_frame slug (currentRef s + 1)) t)).
Proof.
  intros Hc Hm Hs Ha.
  destruct (ws_send_cases (join_frame slug (currentRef s + 1)) t) as [E|[E|E]];
    rewrite E; simpl; eauto using progress_issue_ref.
  unfold progress. fields. rewrite Hc, Ha. split; [|lia].
  intros Hinv. generalize (frames_ok_next s Hinv).
  destruct Hinv as (H0 & Hmap & Hsorted & Hf).
  intros Hf'. unfold refs_inv. fields. rewrite Hc, Hs.
  split; [lia|]. split; [eapply stored_refs_bound_set; eauto|]. split.
  - rewrite join_refs_app. unfold join_refs at 2. simpl.
    apply sorted_snoc; auto.
    apply join_refs_bound in Hf.
    eapply Forall_impl; [|exact Hf]. simpl. intros; lia.
  - apply Forall_app. split; auto.
    constructor; [|constructor].
    right. simpl. split; [left; reflexivity|lia].
Qed.

(** Peeling a handler from the outside: a branch, a field update that
    leaves the four fields alone, or a call that is known to progress. *)
Create HintDb progress.

Ltac peel :=
  match goal with
  | |- progress ?s ?s => apply progress_refl
  | |- progress ?s (?f ?t) =>
      tryif is_setter f
      then apply (progress_same s t);
           [fields; reflexivity|fields; reflexivity|fields; reflexivity
           |fields; reflexivity|]
      else (apply (progress_trans s t); [|solve [auto with progress]])
  | |- progress _ ?rhs =>
      match rhs with
      | context [match ?x with _ => _ end] => destruct x eqn:?
      end
  end.

(** The primitives that return a pair are opened; the others are peeled
    as calls. *)
Ltac unfold_prims := unfold setTimeout, alloc in *; cbn [fst snd].

Lemma progress_say userId r s : progress s (say userId r s).
Proof. unfold say. peel. peel. Qed.

Lemma progress_clearTimer handle s : progress s (clearTimer handle s).
Proof. unfold clearTimer. destruct handle; peel; peel. Qed.

Lemma progress_push a x s : progress s (push a x s).
Proof. unfold push. peel. peel. Qed.

Lemma progress_ws_terminate s : progress s (ws_terminate s).
Proof. unfold ws_terminate. peel. peel. Qed.

#[local] Hint Extern 0 (progress _ (say _ _ _)) =>
  simple apply progress_say : progress.
#[local] Hint Extern 0 (progress _ (clearTimer _ _)) =>
  simple apply progress_clearTimer : progress.
#[local] Hint Extern 0 (progress _ (push _ _ _)) =>
  simple apply progress_push : progress.
#[local] Hint Extern 0 (progress _ (ws_terminate _)) =>
  simple apply progress_ws_terminate : progress.

Lemma progress_subscribeNext collections index s :
  progress s (subscribeNext collections index s).
Proof.
  unfold subscribeNext.
  destruct (nth_error collections index) as [slug|]; [|apply progress_refl].
  unfold_prims.
  eapply progress_same; [..|apply progress_join with (slug := slug)]; reflexivity.
Qed.
#[local] Hint Extern 0 (progress _ (subscribeNext _ _ _)) =>
  simple apply progress_subscribeNext : progress.

Lemma progress_clear_refs s : progress s (set_subscriptionRefs [] s).
Proof.
  unfold progress, refs_inv. fields. split; [|split; lia].
  intros (H0 & _ & Hs & Hf). repeat split; auto; simpl in *; discriminate.
Qed.

Lemma progress_resubscribe s : progress s (resubscribeToCollections s).
Proof.
  unfold resubscribeToCollections.
  destruct (negb (isWsConnected s) || negb (ws_is_open s)); [apply progress_refl|].
  eapply progress_trans; [apply progress_clear_refs|].
  apply progress_subscribeNext.
Qed.
#[local] Hint Extern 0 (progress _ (resubscribeToCollections _)) =>
  simple apply progress_resubscribe : progress.

Lemma progress_load_user s entry : progress s (load_user s entry).
Proof. unfold load_user. unfold_prims. repeat peel. Qed.

Lemma progress_load_filters s entry : progress s (load_filters s entry).
Proof. unfold load_filters. repeat peel. Qed.

Lemma progress_loadSubscriptions s : progress s (loadSubscriptions s).
Proof.
  unfold loadSubscriptions. destruct (file s) as [data|]; [|apply progress_refl].
  assert (H : progress s
                (fold_left load_filters (fd_eventFilters data)
                   (fold_left load_user (fd_subscriptions data)
                      (set_subscriptionRefs []
                         (set_activeCollections []
                            (set_eventFilters [] (set_userSubscriptions [] s))))))).
  { eapply progress_trans; [|apply progress_fold, progress_load_filters].
    eapply progress_trans; [|apply progress_fold, progress_load_user].
    eapply progress_trans; [|apply progress_clear_refs].
    repeat peel. }
  destruct (ws_is_open _); auto.
  eapply progress_trans; [exact H|apply progress_resubscribe].
Qed.
#[local] Hint Extern 0 (progress _ (loadSubscriptions _)) =>
  simple apply progress_loadSubscriptions : progress.

Lemma progress_saveSubscriptions s : progress s (saveSubscriptions s).
Proof. unfold saveSubscriptions. repeat peel. Qed.
#[local] Hint Extern 0 (progress _ (saveSubscriptions _)) =>
  simple apply progress_saveSubscriptions : progress.

Lemma progress_reconnect s : progress s (reconnect s).
Proof.
  unfold reconnect. unfold_prims.
  eapply progress_trans; [apply (progress_clearTimer (reconnectTimeout s))|].
  match goal with
  | |- progress ?t _ =>
      assert (H' : progress t (set_connectionAttempts (connectionAttempts t + 1) t))
  end.
  { unfold progress, refs_inv. fields. split; [auto|split; lia]. }
  destruct (_ <=? _); repeat peel; exact H'.
Qed.
#[local] Hint Extern 0 (progress _ (reconnect _)) =>
  simple apply progress_reconnect : progress.

Lemma progress_connectToOpenSea s : progress s (connectToOpenSea s).
Proof.
  unfold connectToOpenSea. unfold_prims.
  repeat peel.
Qed.
#[local] Hint Extern 0 (progress _ (connectToOpenSea _)) =>
  simple apply progress_connectToOpenSea : progress.

Lemma progress_on_error s : progress s (on_error s).
Proof.
  unfold on_error. repeat peel.
Qed.

Lemma progress_on_close s : progress s (on_close s).
Proof.
  unfold on_close. repeat peel.
Qed.

(** Opening resets the attempt counter and touches nothing else of the
    invariant. *)
Lemma on_open_refs s :
  currentRef (on_open s) = currentRef s
  /\ subscriptionRefs (on_open s) = subscriptionRefs s
  /\ sent (on_open s) = sent s
  /\ connectionAttempts (on_open s) = 0.
Proof.
  unfold on_open, clearTimer. unfold_prims.
  destruct (connectionTimeout s); repeat split; reflexivity.
Qed.

Lemma progress_route_to event slug s entry : progress s (route_to event slug s entry).
Proof. unfold route_to. repeat peel. Qed.

Lemma progress_handleOpenSeaEvent event s : progress s (handleOpenSeaEvent event s).
Proof.
  unfold handleOpenSeaEvent. destruct (event_slug event); [|apply progress_refl].
  apply progress_fold. intros. apply progress_route_to.
Qed.
#[local] Hint Extern 0 (progress _ (handleOpenSeaEvent _ _)) =>
  simple apply progress_handleOpenSeaEvent : progress.

Lemma progress_main_listener data s : progress s (main_listener data s).
Proof. unfold main_listener. repeat peel. Qed.
#[local] Hint Extern 0 (progress _ (main_listener _ _)) =>
  simple apply progress_main_listener : progress.

Lemma progress_resume_subscribe s p : progress s (resume_subscribe s p).
Proof. unfold resume_subscribe. unfold_prims. repeat peel. Qed.

Lemma progress_on_message data s : progress s (on_message data s).
Proof.
  unfold on_message.
  eapply progress_trans; [|apply progress_fold, progress_resume_subscribe].
  eapply progress_trans; [|apply progress_fold].
  - repeat peel.
  - intros t p. repeat peel.
Qed.

Lemma progress_ack_timeout ref s : progress s (ack_timeout ref s).
Proof. unfold ack_timeout. unfold_prims. repeat peel. Qed.

Lemma progress_subscriptions_array userId s :
  progress s (snd (subscriptions_array userId s)).
Proof.
  unfold subscriptions_array.
  destruct (JsMap.get userId (userSubscriptions s)); unfold_prims; repeat peel.
Qed.

Lemma progress_cmd_subscribe userId args s : progress s (cmd_subscribe userId args s).
Proof.
  unfold cmd_subscribe.
  destruct args as [|slug eventArgs]; [unfold_prims; repeat peel|].
  destruct (_ =? _)%nat; [unfold_prims; repeat peel|].
  destruct (negb _); [unfold_prims; repeat peel|].
  destruct (requested_events eventArgs) as [userEvents|e];
    [|unfold_prims; repeat peel].
  generalize (progress_subscriptions_array userId s).
  destruct (subscriptions_array userId s) as [a s0]. cbn [snd]. intros H0.
  apply (progress_trans _ _ _ H0).
  destruct (_ <=? _)%nat; [unfold_prims; repeat peel|].
  destruct (includes _ _); [unfold_prims; repeat peel|].
  set (s1 := set_eventFilters (JsMap.set userId userEvents (eventFilters s0)) s0).
  assert (H1 : progress s0 s1) by (subst s1; repeat peel).
  apply (progress_trans _ _ _ H1). cbv zeta.
  destruct (ws_is_open _).
  - match goal with
    | |- context [ws_send ?f ?t] =>
        assert (Hj : progress s1 (snd (ws_send f t)))
          by (apply progress_join with (slug := slug); reflexivity);
        destruct (ws_send f t) as [threw s2]
    end.
    cbn [snd] in Hj. apply (progress_trans _ _ _ Hj).
    destruct threw; unfold_prims; repeat peel.
  - unfold_prims. repeat peel.
    apply progress_issue_ref with (slug := slug); reflexivity.
Qed.

Lemma progress_unsubscribe_done userId s : progress s (unsubscribe_done userId s).
Proof. unfold unsubscribe_done. unfold_prims. repeat peel. Qed.
#[local] Hint Extern 0 (progress _ (unsubscribe_done _ _)) =>
  simple apply progress_unsubscribe_done : progress.

Lemma progress_delete_ref slug s :
  progress s (set_subscriptionRefs (JsMap.delete slug (subscriptionRefs s)) s).
Proof.
  unfold progress, refs_inv. fields. split; [|split; lia].
  intros (H0 & Hmap & Hs & Hf). split; [assumption|]. split; [|auto].
  intros k r H. apply get_delete_some in H. now apply Hmap in H.
Qed.

Lemma progress_cmd_unsubscribe userId args s :
  progress s (cmd_unsubscribe userId args s).
Proof.
  unfold cmd_unsubscribe.
  destruct args as [|slug rest]; [unfold_prims; repeat peel|].
  destruct (_ =? _)%nat; [unfold_prims; repeat peel|].
  destruct (negb (isValidCollectionSlug _)); [unfold_prims; repeat peel|].
  destruct (negb (includes _ _)); [unfold_prims; repeat peel|].
  unfold_prims.
  destruct (still_subscribed _ _); [repeat peel|].
  destruct (ws_is_open _); [|repeat peel].
  fields.
  destruct (JsMap.get slug (subscriptionRefs s)) as [ref|] eqn:Eref; [|repeat peel].
  destruct (Z.eqb_spec ref 0); [repeat peel|].
  match goal with
  | |- context [ws_send ?f ?t] =>
      assert (Hl : progress s (snd (ws_send f t)));
      [|destruct (ws_send f t) as [threw s1]]
  end.
  - eapply progress_trans; [|apply progress_send_other].
    + repeat peel.
    + reflexivity.
    + intros (_ & Hmap & _). fields_in Hmap. fields.
      right. split; [right; reflexivity|]. simpl. apply (Hmap _ _ Eref).
  - simpl in Hl. apply (progress_trans _ _ _ Hl).
    destruct threw; [apply progress_refl|].
    eapply progress_trans; [apply progress_delete_ref|].
    apply progress_unsubscribe_done.
Qed.

Lemma progress_clear_confirm userId s : progress s (clear_confirm userId s).
Proof. unfold clear_confirm. unfold_prims. repeat peel. Qed.

Lemma progress_remove_collection userId slug s :
  progress s (remove_collection userId slug s).
Proof. unfold remove_collection. unfold_prims. repeat peel. Qed.

Lemma progress_event_filters_menu userId values s :
  progress s (event_filters_menu userId values s).
Proof. unfold event_filters_menu. unfold_prims. repeat peel. Qed.

Lemma progress_filter_button userId subAction s :
  progress s (filter_button userId subAction s).
Proof. unfold filter_button. unfold_prims. repeat peel. Qed.

Lemma progress_add_collection_modal userId slug s :
  progress s (add_collection_modal userId slug s).
Proof.
  unfold add_collection_modal.
  destruct (negb _); [unfold_prims; repeat peel|].
  generalize (progress_subscriptions_array userId s).
  destruct (subscriptions_array userId s) as [a s0]. cbn [snd]. intros H0.
  apply (progress_trans _ _ _ H0).
  unfold_prims. repeat peel.
Qed.

Lemma progress_run_timer action s : progress s (run_timer action s).
Proof.
  destruct action; simpl.
  - unfold ws_terminate. destruct (ws s) as [[]|]; repeat peel.
  - apply progress_heartbeat.
  - destruct (isWsConnected s && ws_is_open s); [|apply progress_refl].
    generalize (progress_heartbeat s).
    destruct (ws_send heartbeat_frame s) as [threw s1]. simpl. intros H.
    destruct threw; auto.
    eapply progress_trans; [exact H|apply progress_reconnect].
  - repeat peel.
  - apply progress_subscribeNext.
  - apply progress_connectToOpenSea.
  - repeat peel.
  - apply progress_ack_timeout.
Qed.
#[local] Hint Extern 0 (progress _ (run_timer _ _)) =>
  simple apply progress_run_timer : progress.

Lemma progress_fire id s : progress s (fire id s).
Proof. unfold fire. repeat peel. Qed.

Lemma progress_on_ready s : progress s (on_ready s).
Proof. unfold on_ready. unfold_prims. repeat peel. Qed.

(** Every turn of the event loop but the opening of the socket keeps the
    invariant and lowers neither counter. *)
Lemma progress_step e s : e <> WsOpen -> progress s (step e s).
Proof.
  intros He. destruct e; simpl; try congruence.
  - apply progress_on_ready.
  - repeat peel.
  - apply progress_fire.
  - repeat peel.
  - destruct (ws s) as [[]|]; try apply progress_refl;
      (eapply progress_trans; [|apply progress_on_error]); repeat peel.
  - destruct (ws s) as [[]|]; try apply progress_refl;
      (eapply progress_trans; [|apply progress_on_close]); repeat peel.
  - destruct (ws s) as [[]|]; try apply progress_refl; apply progress_on_message.
  - apply progress_cmd_subscribe.
  - apply progress_cmd_unsubscribe.
  - apply progress_clear_confirm.
  - apply progress_remove_collection.
  - apply progress_event_filters_menu.
  - apply progress_filter_button.
  - apply progress_add_collection_modal.
Qed.

Lemma step_refs e s :
  (refs_inv s -> refs_inv (step e s)) /\ currentRef s <= currentRef (step e s).
Proof.
  destruct e;
    try (match goal with
         | |- context [step ?e s] =>
             destruct (progress_step e s) as (H1 & H2 & _);
             [discriminate|split; assumption]
         end).
  cbn [step]. destruct (ws s) as [[]|]; try (split; [auto|lia]).
  destruct (on_open_refs (set_ws (Some OPEN) s)) as (Hc & Hm & Hs & _).
  unfold refs_inv. rewrite Hc, Hm, Hs. fields. split; [auto|lia].
Qed.

Lemma run_refs trace : forall s,
  (refs_inv s -> refs_inv (run trace s)) /\ currentRef s <= currentRef (run trace s).
Proof.
  induction trace as [|e trace IH]; intros s; simpl.
  - split; [auto|lia].
  - destruct (step_refs e s) as [H1 H2].
    destruct (IH (step e s)) as [H3 H4]. split; [auto|lia].
Qed.

Lemma refs_inv_init f : refs_inv (init f).
Proof.
  unfold refs_inv. simpl. repeat split; try lia; try constructor; discriminate.
Qed.

Lemma reachable_refs_inv s : reachable s -> refs_inv s.
Proof.
  intros (f & trace & ->). apply run_refs, refs_inv_init.
Qed.

(** ** The timer queue *)

Create HintDb timers.

Lemma keeps_timers_refl s : keeps_timers s s.
Proof. unfold keeps_timers. auto. Qed.

Lemma keeps_timers_trans s t u :
  keeps_timers s t -> keeps_timers t u -> keeps_timers s u.
Proof. unfold keeps_timers. auto. Qed.

Lemma keeps_timers_same s t t' :
  timers t' = timers t ->
  nextTimer t' = nextTimer t ->
  reconnectTimeout t' = reconnectTimeout t ->
  connectionAttempts t' = connectionAttempts t ->
  keeps_timers s t -> keeps_timers s t'.
Proof. unfold keeps_timers, timers_inv. intros -> -> -> ->. auto. Qed.

Lemma keeps_timers_fold {A : Type} (f : State -> A -> State) (l : list A) :
  (forall s x, keeps_timers s (f s x)) -> forall s, keeps_timers s (fold_left f l s).
Proof.
  intros Hf. induction l as [|x l IH]; intros s; simpl.
  - apply keeps_timers_refl.
  - eapply keeps_timers_trans; [apply Hf|apply IH].
Qed.

Ltac peel_timers :=
  match goal with
  | |- keeps_timers ?s ?s => apply keeps_timers_refl
  | |- keeps_timers ?s (set_nextTimer _ (set_timers (timers ?t ++ _) ?t)) =>
      apply (keeps_timers_trans s t); [|solve [auto with timers]]
  | |- keeps_timers ?s (?f ?t) =>
      first [ apply (keeps_timers_trans s t); [|solve [auto with timers]]
            | is_setter f;
              apply (keeps_timers_same s t);
              [fields; reflexivity|fields; reflexivity|fields; reflexivity
              |fields; reflexivity|] ]
  | |- keeps_timers _ ?rhs =>
      match rhs with
      | context [match ?x with _ => _ end] => destruct x eqn:?
      end
  end.

Lemma cancel_In id t l : In t (cancel id l) <-> In t l /\ t_id t <> id.
Proof.
  unfold cancel. rewrite filter_In.
  destruct (Nat.eqb_spec (t_id t) id); simpl; intuition congruence.
Qed.

(** Arming a timer that is not a reconnection. *)
Lemma keeps_timers_arm delay action s :
  action <> TReconnect ->
  keeps_timers s
    (set_nextTimer (S (nextTimer s))
       (set_timers (timers s ++ [{| t_id := nextTimer s; t_due := now s + delay;
                                    t_action := action |}]) s)).
Proof.
  intros Ha. unfold keeps_timers, timers_inv. fields.
  intros (Hid & Hre & Hmax). repeat split.
  - intros t [Ht|[<-|[]]]%in_app_iff; simpl; [apply Hid in Ht|]; lia.
  - intros t [Ht|[<-|[]]]%in_app_iff; simpl; auto. congruence.
  - intros Hgt t [Ht|[<-|[]]]%in_app_iff; simpl; auto.
Qed.

Lemma keeps_timers_clearTimer handle s : keeps_timers s (clearTimer handle s).
Proof.
  unfold clearTimer. destruct handle as [id|]; [|apply keeps_timers_refl].
  unfold keeps_timers, timers_inv. fields.
  intros (Hid & Hre & Hmax). repeat split.
  - intros t [Ht _]%cancel_In. auto.
  - intros t [Ht _]%cancel_In. auto.
  - intros Hgt t [Ht _]%cancel_In. auto.
Qed.

Lemma keeps_timers_say userId r s : keeps_timers s (say userId r s).
Proof. unfold say. peel_timers. peel_timers. Qed.

Lemma keeps_timers_push a x s : keeps_timers s (push a x s).
Proof. unfold push. peel_timers. peel_timers. Qed.

Lemma keeps_timers_ws_terminate s : keeps_timers s (ws_terminate s).
Proof. unfold ws_terminate. peel_timers. peel_timers. Qed.

#[local] Hint Extern 0 (keeps_timers _ (clearTimer _ _)) =>
  simple apply keeps_timers_clearTimer : timers.
#[local] Hint Extern 0 (keeps_timers _ (say _ _ _)) =>
  simple apply keeps_timers_say : timers.
#[local] Hint Extern 0 (keeps_timers _ (push _ _ _)) =>
  simple apply keeps_timers_push : timers.
#[local] Hint Extern 0 (keeps_timers _ (ws_terminate _)) =>
  simple apply keeps_timers_ws_terminate : timers.
#[local] Hint Extern 1 (keeps_timers _ (set_nextTimer _ (set_timers _ _))) =>
  apply keeps_timers_arm; discriminate : timers.

Lemma keeps_timers_ws_send f s : keeps_timers s (snd (ws_send f s)).
Proof.
  destruct (ws_send_cases f s) as [E|[E|E]]; rewrite E; cbn [snd];
    repeat peel_timers.
Qed.

Lemma keeps_timers_subscribeNext collections index s :
  keeps_timers s (subscribeNext collections index s).
Proof.
  unfold subscribeNext.
  destruct (nth_error collections index) as [slug|]; [|apply keeps_timers_refl].
  unfold_prims.
  eapply keeps_timers_trans; [|apply keeps_timers_arm; discriminate].
  eapply keeps_timers_trans; [|apply keeps_timers_ws_send].
  repeat peel_timers.
Qed.
#[local] Hint Extern 0 (keeps_timers _ (subscribeNext _ _ _)) =>
  simple apply keeps_timers_subscribeNext : timers.

Lemma keeps_timers_resubscribe s : keeps_timers s (resubscribeToCollections s).
Proof. unfold resubscribeToCollections. repeat peel_timers. Qed.
#[local] Hint Extern 0 (keeps_timers _ (resubscribeToCollections _)) =>
  simple apply keeps_timers_resubscribe : timers.

Lemma keeps_timers_load_user s entry : keeps_timers s (load_user s entry).
Proof. unfold load_user. unfold_prims. repeat peel_timers. Qed.

Lemma keeps_timers_load_filters s entry : keeps_timers s (load_filters s entry).
Proof. unfold load_filters. repeat peel_timers. Qed.

Lemma keeps_timers_loadSubscriptions s : keeps_timers s (loadSubscriptions s).
Proof.
  unfold loadSubscriptions. destruct (file s) as [data|]; [|apply keeps_timers_refl].
  assert (H : keeps_timers s
                (fold_left load_filters (fd_eventFilters data)
                   (fold_left load_user (fd_subscriptions data)
                      (set_subscriptionRefs []
                         (set_activeCollections []
                            (set_eventFilters [] (set_userSubscriptions [] s))))))).
  { eapply keeps_timers_trans; [|apply keeps_timers_fold, keeps_timers_load_filters].
    eapply keeps_timers_trans; [|apply keeps_timers_fold, keeps_timers_load_user].
    repeat peel_timers. }
  destruct (ws_is_open _); auto.
  eapply keeps_timers_trans; [exact H|apply keeps_timers_resubscribe].
Qed.
#[local] Hint Extern 0 (keeps_timers _ (loadSubscriptions _)) =>
  simple apply keeps_timers_loadSubscriptions : timers.

Lemma keeps_timers_saveSubscriptions s : keeps_timers s (saveSubscriptions s).
Proof. unfold saveSubscriptions. repeat peel_timers. Qed.
#[local] Hint Extern 0 (keeps_timers _ (saveSubscriptions _)) =>
  simple apply keeps_timers_saveSubscriptions : timers.

(** [reconnect] cancels the armed reconnection, and arms a new one only
    while attempts are left. *)
Lemma keeps_timers_reconnect s : keeps_timers s (reconnect s).
Proof.
  unfold reconnect, clearTimer, keeps_timers, timers_inv. unfold_prims.
  intros (Hid & Hre & Hmax).
  assert (Hnone : forall t,
             In t (timers (match reconnectTimeout s with
                           | Some id => set_timers (cancel id (timers s)) s
                           | None => s
                           end)) ->
             In t (timers s) /\ t_action t <> TReconnect).
  { intros t Ht. destruct (reconnectTimeout s) as [id|] eqn:E; fields_in Ht.
    - apply cancel_In in Ht as [Ht Hne]. split; auto.
      intros Ha. apply Hre in Ha; auto. congruence.
    - split; auto. intros Ha. apply Hre in Ha; auto. congruence. }
  fields.
  match goal with
  | |- context [if ?b then _ else _] => destruct b eqn:Hle
  end; fields.
  - apply Z.leb_le in Hle. repeat split.
    + intros t [Ht|[<-|[]]]%in_app_iff; simpl; [|destruct (reconnectTimeout s); simpl; lia].
      apply Hnone in Ht as [Ht _]. apply Hid in Ht.
      destruct (reconnectTimeout s); simpl; lia.
    + intros t [Ht|[<-|[]]]%in_app_iff; simpl; auto.
      apply Hnone in Ht as [_ Ht]. congruence.
    + destruct (reconnectTimeout s); fields_in Hle; fields; lia.
  - repeat split.
    + intros t Ht. apply Hnone in Ht as [Ht _]. apply Hid in Ht.
      destruct (reconnectTimeout s); simpl; lia.
    + intros t Ht. apply Hnone in Ht as [_ Ht]. congruence.
    + intros _ t Ht. apply Hnone in Ht as [_ Ht]. auto.
Qed.
#[local] Hint Extern 0 (keeps_timers _ (reconnect _)) =>
  simple apply keeps_timers_reconnect : timers.

Lemma keeps_timers_connectToOpenSea s : keeps_timers s (connectToOpenSea s).
Proof. unfold connectToOpenSea. unfold_prims. repeat peel_timers. Qed.
#[local] Hint Extern 0 (keeps_timers _ (connectToOpenSea _)) =>
  simple apply keeps_timers_connectToOpenSea : timers.

Lemma keeps_timers_reset s : keeps_timers s (set_connectionAttempts 0 s).
Proof.
  unfold keeps_timers, timers_inv. fields. intros (Hid & Hre & _).
  repeat split; auto. unfold MAX_RECONNECT_ATTEMPTS. lia.
Qed.
#[local] Hint Extern 0 (keeps_timers _ (set_connectionAttempts 0 _)) =>
  simple apply keeps_timers_reset : timers.

Lemma keeps_timers_on_open s : keeps_timers s (on_open s).
Proof. unfold on_open. unfold_prims. repeat peel_timers. Qed.

Lemma keeps_timers_on_error s : keeps_timers s (on_error s).
Proof. unfold on_error. repeat peel_timers. Qed.

Lemma keeps_timers_on_close s : keeps_timers s (on_close s).
Proof. unfold on_close. repeat peel_timers. Qed.

Lemma keeps_timers_route_to event slug s entry :
  keeps_timers s (route_to event slug s entry).
Proof. unfold route_to. repeat peel_timers. Qed.

Lemma keeps_timers_handleOpenSeaEvent event s :
  keeps_timers s (handleOpenSeaEvent event s).
Proof.
  unfold handleOpenSeaEvent. destruct (event_slug event); [|apply keeps_timers_refl].
  apply keeps_timers_fold. intros. apply keeps_timers_route_to.
Qed.
#[local] Hint Extern 0 (keeps_timers _ (handleOpenSeaEvent _ _)) =>
  simple apply keeps_timers_handleOpenSeaEvent : timers.

Lemma keeps_timers_main_listener data s : keeps_timers s (main_listener data s).
Proof. unfold main_listener. repeat peel_timers. Qed.
#[local] Hint Extern 0 (keeps_timers _ (main_listener _ _)) =>
  simple apply keeps_timers_main_listener : timers.

Lemma keeps_timers_resume_subscribe s p : keeps_timers s (resume_subscribe s p).
Proof. unfold resume_subscribe. repeat peel_timers. Qed.

Lemma keeps_timers_on_message data s : keeps_timers s (on_message data s).
Proof.
  unfold on_message.
  eapply keeps_timers_trans; [|apply keeps_timers_fold, keeps_timers_resume_subscribe].
  eapply keeps_timers_trans; [|apply keeps_timers_fold].
  - repeat peel_timers.
  - intros t p. repeat peel_timers.
Qed.

Lemma keeps_timers_ack_timeout ref s : keeps_timers s (ack_timeout ref s).
Proof. unfold ack_timeout. repeat peel_timers. Qed.

Lemma keeps_timers_subscriptions_array userId s :
  keeps_timers s (snd (subscriptions_array userId s)).
Proof.
  unfold subscriptions_array.
  destruct (JsMap.get userId (userSubscriptions s)); unfold_prims; repeat peel_timers.
Qed.

Lemma keeps_timers_cmd_subscribe userId args s :
  keeps_timers s (cmd_subscribe userId args s).
Proof.
  unfold cmd_subscribe.
  destruct args as [|slug eventArgs]; [repeat peel_timers|].
  destruct (String.length slug =? 0)%nat; [repeat peel_timers|].
  destruct (negb _); [repeat peel_timers|].
  destruct (requested_events eventArgs) as [userEvents|e]; [|repeat peel_timers].
  generalize (keeps_timers_subscriptions_array userId s).
  destruct (subscriptions_array userId s) as [a s0]. cbn [snd]. intros H0.
  apply (keeps_timers_trans _ _ _ H0).
  destruct (3 <=? _)%nat; [repeat peel_timers|].
  destruct (includes _ _); [repeat peel_timers|].
  cbv zeta. destruct (ws_is_open _); [|repeat peel_timers].
  match goal with
  | |- context [ws_send ?f ?t] =>
      generalize (keeps_timers_ws_send f t);
      destruct (ws_send f t) as [threw s2]
  end.
  cbn [snd]. intros Hs.
  apply (keeps_timers_trans _ s2).
  - eapply keeps_timers_trans; [|exact Hs]. repeat peel_timers.
  - destruct threw; unfold_prims; repeat peel_timers.
Qed.

Lemma keeps_timers_unsubscribe_done userId s :
  keeps_timers s (unsubscribe_done userId s).
Proof. unfold unsubscribe_done. repeat peel_timers. Qed.
#[local] Hint Extern 0 (keeps_timers _ (unsubscribe_done _ _)) =>
  simple apply keeps_timers_unsubscribe_done : timers.

Lemma keeps_timers_cmd_unsubscribe userId args s :
  keeps_timers s (cmd_unsubscribe userId args s).
Proof.
  unfold cmd_unsubscribe.
  destruct args as [|slug rest]; [repeat peel_timers|].
  destruct (String.length slug =? 0)%nat; [repeat peel_timers|].
  destruct (negb (isValidCollectionSlug _)); [repeat peel_timers|].
  destruct (negb (includes _ _)); [repeat peel_timers|].
  unfold_prims.
  destruct (still_subscribed _ _); [repeat peel_timers|].
  destruct (ws_is_open _); [|repeat peel_timers].
  destruct (JsMap.get slug _) as [ref|]; [|repeat peel_timers].
  destruct (ref =? 0); [repeat peel_timers|].
  match goal with
  | |- context [ws_send ?f ?t] =>
      generalize (keeps_timers_ws_send f t);
      destruct (ws_send f t) as [threw s2]
  end.
  cbn [snd]. intros Hs.
  apply (keeps_timers_trans _ s2).
  - eapply keeps_timers_trans; [|exact Hs]. repeat peel_timers.
  - destruct threw; repeat peel_timers.
Qed.

Lemma keeps_timers_clear_confirm userId s : keeps_timers s (clear_confirm userId s).
Proof. unfold clear_confirm. repeat peel_timers. Qed.

Lemma keeps_timers_remove_collection userId slug s :
  keeps_timers s (remove_collection userId slug s).
Proof. unfold remove_collection. unfold_prims. repeat peel_timers. Qed.

Lemma keeps_timers_event_filters_menu userId values s :
  keeps_timers s (event_filters_menu userId values s).
Proof. unfold event_filters_menu. repeat peel_timers. Qed.

Lemma keeps_timers_filter_button userId subAction s :
  keeps_timers s (filter_button userId subAction s).
Proof. unfold filter_button. repeat peel_timers. Qed.

Lemma keeps_timers_add_collection_modal userId slug s :
  keeps_timers s (add_collection_modal userId slug s).
Proof.
  unfold add_collection_modal.
  destruct (negb _); [repeat peel_timers|].
  generalize (keeps_timers_subscriptions_array userId s).
  destruct (subscriptions_array userId s) as [a s0]. cbn [snd]. intros H0.
  apply (keeps_timers_trans _ _ _ H0). repeat peel_timers.
Qed.

Lemma keeps_timers_run_timer action s : keeps_timers s (run_timer action s).
Proof.
  destruct action; simpl.
  - destruct (ws s) as [[]|]; repeat peel_timers.
  - apply keeps_timers_ws_send.
  - destruct (isWsConnected s && ws_is_open s); [|apply keeps_timers_refl].
    generalize (keeps_timers_ws_send heartbeat_frame s).
    destruct (ws_send heartbeat_frame s) as [threw s1]. cbn [snd]. intros H.
    destruct threw; auto.
    eapply keeps_timers_trans; [exact H|apply keeps_timers_reconnect].
  - repeat peel_timers.
  - apply keeps_timers_subscribeNext.
  - apply keeps_timers_connectToOpenSea.
  - repeat peel_timers.
  - apply keeps_timers_ack_timeout.
Qed.

Lemma find_timer id l t :
  find (fun t => (t_id t =? id)%nat) l = Some t -> In t l /\ t_id t = id.
Proof.
  intros H. apply find_some in H as [Hin Hid].
  apply Nat.eqb_eq in Hid. auto.
Qed.

(** A timer that fires leaves the queue, and an interval comes back
    under the same handle. *)
Lemma keeps_timers_fire id s : keeps_timers s (fire id s).
Proof.
  unfold fire.
  destruct (find _ (timers s)) as [t|] eqn:Ef; [|apply keeps_timers_refl].
  destruct (t_due t <=? now s); [|apply keeps_timers_refl].
  eapply keeps_timers_trans; [|apply keeps_timers_run_timer].
  apply find_timer in Ef as [Hin Hid].
  unfold keeps_timers, timers_inv. fields. intros (Hfresh & Hre & Hmax).
  assert (Hagain : forall t',
             In t' (cancel id (timers s) ++
                      match period (t_action t) with
                      | Some p => [{| t_id := id; t_due := now s + p;
                                      t_action := t_action t |}]
                      | None => []
                      end) ->
             (t_id t' < nextTimer s)%nat
             /\ (t_action t' = TReconnect -> In t' (timers s))).
  { intros t' [[Ht' _]%cancel_In|Ht']%in_app_iff; [auto|].
    destruct (t_action t) eqn:Ea; simpl in Ht'; try contradiction;
      destruct Ht' as [<-|[]]; simpl; (split; [|discriminate]);
      apply Hfresh in Hin; lia. }
  repeat split.
  - intros t' Ht'. now apply Hagain.
  - intros t' Ht' Ha. apply Hagain in Ht' as [_ Ht']. auto.
  - intros Hgt t' Ht' Ha. apply Hagain in Ht' as [_ Ht'].
    exact (Hmax Hgt t' (Ht' Ha) Ha).
Qed.

Lemma keeps_timers_on_ready s : keeps_timers s (on_ready s).
Proof. unfold on_ready. unfold_prims. repeat peel_timers. Qed.

Lemma keeps_timers_step e s : keeps_timers s (step e s).
Proof.
  destruct e; simpl.
  - apply keeps_timers_on_ready.
  - repeat peel_timers.
  - apply keeps_timers_fire.
  - repeat peel_timers.
  - destruct (ws s) as [[]|]; try apply keeps_timers_refl.
    eapply keeps_timers_trans; [|apply keeps_timers_on_open]. repeat peel_timers.
  - destruct (ws s) as [[]|]; try apply keeps_timers_refl;
      (eapply keeps_timers_trans; [|apply keeps_timers_on_error]); repeat peel_timers.
  - destruct (ws s) as [[]|]; try apply keeps_timers_refl;
      (eapply keeps_timers_trans; [|apply keeps_timers_on_close]); repeat peel_timers.
  - destruct (ws s) as [[]|]; try apply keeps_timers_refl;
      apply keeps_timers_on_message.
  - apply keeps_timers_cmd_subscribe.
  - apply keeps_timers_cmd_unsubscribe.
  - apply keeps_timers_clear_confirm.
  - apply keeps_timers_remove_collection.
  - apply keeps_timers_event_filters_menu.
  - apply keeps_timers_filter_button.
  - apply keeps_timers_add_collection_modal.
Qed.

Lemma reachable_timers_inv s : reachable s -> timers_inv s.
Proof.
  intros (f & trace & ->).
  assert (H : forall s, timers_inv s -> timers_inv (run trace s)).
  { induction trace as [|e trace IH]; intros s Hs; simpl; auto.
    apply IH, keeps_timers_step, Hs. }
  apply H. unfold timers_inv. simpl. repeat split; intros; contradiction.
Qed.

(** ** The array store *)

Create HintDb store.

Lemma keeps_store_intro s s' :
  (store_inv s -> store_inv s') ->
  currentRef s <= currentRef s' ->
  (List.length (arrays s) <= List.length (arrays s'))%nat ->
  keeps_store s s'.
Proof. unfold keeps_store. auto. Qed.

Lemma keeps_store_refl s : keeps_store s s.
Proof. apply keeps_store_intro; auto; lia. Qed.

Lemma keeps_store_trans s t u :
  keeps_store s t -> keeps_store t u -> keeps_store s u.
Proof.
  unfold keeps_store. intros H1 H2 Hs.
  destruct (H1 Hs) as (Ht & ? & ?). destruct (H2 Ht) as (Hu & ? & ?).
  split; [assumption|split; lia].
Qed.

Lemma keeps_store_same s t t' :
  userSubscriptions t' = userSubscriptions t ->
  arrays t' = arrays t ->
  awaiting t' = awaiting t ->
  currentRef t' = currentRef t ->
  keeps_store s t -> keeps_store s t'.
Proof. unfold keeps_store, store_inv. intros -> -> -> ->. auto. Qed.

Lemma keeps_store_fold {A : Type} (f : State -> A -> State) (l : list A) :
  (forall s x, keeps_store s (f s x)) -> forall s, keeps_store s (fold_left f l s).
Proof.
  intros Hf. induction l as [|x l IH]; intros s; simpl.
  - apply keeps_store_refl.
  - eapply keeps_store_trans; [apply Hf|apply IH].
Qed.

Section MapKeys.
Context {V : Type}.
Implicit Types (m : list (string * V)) (k : string) (v : V).

Lemma set_In k v k' v' m :
  In (k', v') (JsMap.set k v m) -> (k', v') = (k, v) \/ In (k', v') m.
Proof.
  induction m as [|[k0 v0] m IH]; simpl.
  - intros [H|[]]; auto.
  - destruct (String.eqb k k0); simpl; intros [H|H]; auto.
    apply IH in H. tauto.
Qed.

Lemma set_keys_In k v k' m :
  In k' (map fst (JsMap.set k v m)) -> k' = k \/ In k' (map fst m).
Proof.
  intros H. apply in_map_iff in H as ([k0 v0] & <- & H).
  apply set_In in H as [H|H].
  - inversion H; auto.
  - right. apply in_map_iff. now exists (k0, v0).
Qed.

Lemma set_keys_NoDup k v m :
  NoDup (map fst m) -> NoDup (map fst (JsMap.set k v m)).
Proof.
  induction m as [|[k0 v0] m IH]; simpl; intros H.
  - repeat constructor. auto.
  - inversion H as [|? ? Hnin Hnd]; subst.
    destruct (String.eqb_spec k k0) as [->|Hne]; simpl.
    + now constructor.
    + constructor; auto.
      intros [->|Hin]%set_keys_In; auto.
Qed.

Lemma delete_entry_In k k' v' m :
  In (k', v') (JsMap.delete k m) -> In (k', v') m.
Proof. unfold JsMap.delete. now intros [H _]%filter_In. Qed.

Lemma delete_keys_NoDup k m :
  NoDup (map fst m) -> NoDup (map fst (JsMap.delete k m)).
Proof.
  unfold JsMap.delete.
  induction m as [|[k0 v0] m IH]; simpl; intros H; auto.
  inversion H as [|? ? Hnin Hnd]; subst.
  destruct (negb (String.eqb k k0)); simpl; auto.
  constructor; auto.
  intros ([k1 v1] & E & [Hin _]%filter_In)%in_map_iff. simpl in E. subst.
  apply Hnin. apply in_map_iff. now exists (k0, v1).
Qed.

Lemma in_get k v m : NoDup (map fst m) -> In (k, v) m -> JsMap.get k m = Some v.
Proof.
  induction m as [|[k0 v0] m IH]; simpl; intros Hnd H; [contradiction|].
  destruct H as [H|H].
  - inversion H; subst. now rewrite String.eqb_refl.
  - inversion Hnd as [|? ? Hnin Hnd']; subst.
    destruct (String.eqb_spec k k0) as [->|]; auto.
    exfalso. apply Hnin. apply in_map_iff. now exists (k0, v).
Qed.
End MapKeys.

Lemma NoDup_snoc {A : Type} (l : list A) (a : A) :
  NoDup l -> ~ In a l -> NoDup (l ++ [a]).
Proof.
  induction l as [|x l IH]; simpl; intros Hnd Hnin.
  - repeat constructor. auto.
  - inversion Hnd; subst. constructor.
    + rewrite in_app_iff. simpl. intuition congruence.
    + apply IH; auto.
Qed.

Lemma update_nth_length {A : Type} n (f : A -> A) l :
  List.length (update_nth n f l) = List.length l.
Proof.
  revert n. induction l as [|x l IH]; intros [|n]; simpl; auto.
Qed.

(** The store only grows. *)
Lemma store_inv_grow s arrays' :
  (List.length (arrays s) <= List.length arrays')%nat ->
  store_inv s -> store_inv (set_arrays arrays' s).
Proof.
  unfold store_inv. fields. intros Hle (Hcur & Hnd & Haddr & Haw & Hrefs).
  split; [assumption|]. split; [assumption|]. split; [|split; [|assumption]].
  - intros u a H. apply Haddr in H. lia.
  - eapply Forall_impl; [|exact Haw]. simpl. intros p [? ?]. split; auto. lia.
Qed.

Lemma keeps_store_alloc l s : keeps_store s (set_arrays (arrays s ++ [l]) s).
Proof.
  apply keeps_store_intro; fields; try lia.
  - apply store_inv_grow. rewrite length_app. simpl. lia.
  - rewrite length_app. simpl. lia.
Qed.

Lemma keeps_store_push a x s : keeps_store s (push a x s).
Proof.
  unfold push. apply keeps_store_intro; fields; try lia.
  - apply store_inv_grow. rewrite update_nth_length. lia.
  - rewrite update_nth_length. lia.
Qed.

Lemma keeps_store_set_user userId a s :
  (store_inv s -> (a < List.length (arrays s))%nat) ->
  keeps_store s
    (set_userSubscriptions (JsMap.set userId a (userSubscriptions s)) s).
Proof.
  intros Ha. apply keeps_store_intro; fields; try lia.
  intros Hinv. generalize (Ha Hinv). destruct Hinv as (Hcur & Hnd & Haddr & Haw & Hrefs).
  intros Hlt. unfold store_inv. fields.
  split; [assumption|]. split; [now apply set_keys_NoDup|]. split; [|auto].
  intros u b [H|H]%set_In; [inversion H; subst; auto|eauto].
Qed.

Lemma keeps_store_delete_user userId s :
  keeps_store s
    (set_userSubscriptions (JsMap.delete userId (userSubscriptions s)) s).
Proof.
  apply keeps_store_intro; fields; try lia.
  intros (Hcur & Hnd & Haddr & Haw & Hrefs). unfold store_inv. fields.
  split; [assumption|]. split; [now apply delete_keys_NoDup|]. split; [|auto].
  intros u b H%delete_entry_In. eauto.
Qed.

Lemma keeps_store_clear_users s : keeps_store s (set_userSubscriptions [] s).
Proof.
  apply keeps_store_intro; fields; try lia.
  intros (Hcur & Hnd & Haddr & Haw & Hrefs). unfold store_inv. fields.
  split; [assumption|]. split; [constructor|]. split; [|auto]. intros u b [].
Qed.

Lemma keeps_store_bump s : keeps_store s (set_currentRef (currentRef s + 1) s).
Proof.
  apply keeps_store_intro; fields; try lia.
  intros (Hcur & Hnd & Haddr & Haw & Hrefs). unfold store_inv. fields.
  split; [lia|]. split; [assumption|]. split; [assumption|]. split; [|assumption].
  eapply Forall_impl; [|exact Haw]. simpl. intros p [? ?]. split; auto. lia.
Qed.

Lemma keeps_store_drop (keep : pending -> bool) s :
  keeps_store s (set_awaiting (filter keep (awaiting s)) s).
Proof.
  apply keeps_store_intro; fields; try lia.
  intros (Hcur & Hnd & Haddr & Haw & Hrefs). unfold store_inv. fields.
  split; [assumption|]. split; [assumption|]. split; [assumption|]. split.
  - apply Forall_forall. intros p [Hp _]%filter_In.
    rewrite Forall_forall in Haw. auto.
  - clear Haw. induction (awaiting s) as [|p l IH]; simpl; auto.
    inversion Hrefs as [|? ? Hnin Hnd']; subst.
    destruct (keep p); simpl; auto.
    constructor; auto.
    intros (q & E & [Hq _]%filter_In)%in_map_iff.
    apply Hnin. apply in_map_iff. now exists q.
Qed.

Ltac peel_store :=
  match goal with
  | |- keeps_store ?s ?s => apply keeps_store_refl
  | |- keeps_store ?s (snd (ws_send _ ?t)) =>
      apply (keeps_store_trans s t); [|solve [auto with store]]
  | |- keeps_store ?s (set_userSubscriptions (JsMap.set _ _ _) ?t) =>
      apply (keeps_store_trans s t);
      [|apply keeps_store_set_user; intros Hstore;
        try (fields; rewrite ?update_nth_length, ?length_app; simpl; lia)]
  | |- keeps_store ?s (?f ?t) =>
      first [ apply (keeps_store_trans s t); [|solve [auto with store]]
            | is_setter f;
              apply (keeps_store_same s t);
              [fields; reflexivity|fields; reflexivity|fields; reflexivity
              |fields; reflexivity|] ]
  | |- keeps_store _ ?rhs =>
      match rhs with
      | context [match ?x with _ => _ end] => destruct x eqn:?
      end
  end.

#[local] Hint Extern 0 (keeps_store _ (push _ _ _)) =>
  simple apply keeps_store_push : store.
#[local] Hint Extern 0 (keeps_store _ (set_arrays (arrays _ ++ _) _)) =>
  simple apply keeps_store_alloc : store.
#[local] Hint Extern 0 (keeps_store _ (set_userSubscriptions (JsMap.delete _ _) _)) =>
 
  simple apply keeps_store_delete_user : store.
#[local] Hint Extern 0 (keeps_store _ (set_userSubscriptions [] _)) =>
  simple apply keeps_store_clear_users : store.
#[local] Hint Extern 0 (keeps_store _ (set_currentRef (currentRef _ + 1) _)) =>
  simple apply keeps_store_bump : store.
#[local] Hint Extern 0 (keeps_store _ (set_awaiting (filter _ _) _)) =>
  simple apply keeps_store_drop : store.
Lemma keeps_store_say userId r s : keeps_store s (say userId r s).
Proof. unfold say. peel_store. peel_store. Qed.

Lemma keeps_store_clearTimer handle s : keeps_store s (clearTimer handle s).
Proof. unfold clearTimer. destruct handle; peel_store; peel_store. Qed.

Lemma keeps_store_ws_terminate s : keeps_store s (ws_terminate s).
Proof. unfold ws_terminate. peel_store. peel_store. Qed.

Lemma keeps_store_ws_send f s : keeps_store s (snd (ws_send f s)).
Proof.
  destruct (ws_send_cases f s) as [E|[E|E]]; rewrite E; cbn [snd];
    repeat peel_store.
Qed.

#[local] Hint Extern 0 (keeps_store _ (say _ _ _)) =>
  simple apply keeps_store_say : store.
#[local] Hint Extern 0 (keeps_store _ (clearTimer _ _)) =>
  simple apply keeps_store_clearTimer : store.
#[local] Hint Extern 0 (keeps_store _ (ws_terminate _)) =>
  simple apply keeps_store_ws_terminate : store.
#[local] Hint Extern 0 (keeps_store _ (snd (ws_send _ _))) =>
  simple apply keeps_store_ws_send : store.

Lemma keeps_store_subscribeNext collections index s :
  keeps_store s (subscribeNext collections index s).
Proof.
  unfold subscribeNext.
  destruct (nth_error collections index) as [slug|]; [|apply keeps_store_refl].
  unfold_prims. repeat peel_store.
Qed.
#[local] Hint Extern 0 (keeps_store _ (subscribeNext _ _ _)) =>
  simple apply keeps_store_subscribeNext : store.

Lemma keeps_store_resubscribe s : keeps_store s (resubscribeToCollections s).
Proof. unfold resubscribeToCollections. repeat peel_store. Qed.
#[local] Hint Extern 0 (keeps_store _ (resubscribeToCollections _)) =>
  simple apply keeps_store_resubscribe : store.

Lemma keeps_store_load_user s entry : keeps_store s (load_user s entry).
Proof. unfold load_user. unfold_prims. repeat peel_store. Qed.

Lemma keeps_store_load_filters s entry : keeps_store s (load_filters s entry).
Proof. unfold load_filters. repeat peel_store. Qed.

Lemma keeps_store_loadSubscriptions s : keeps_store s (loadSubscriptions s).
Proof.
  unfold loadSubscriptions. destruct (file s) as [data|]; [|apply keeps_store_refl].
  assert (H : keeps_store s
                (fold_left load_filters (fd_eventFilters data)
                   (fold_left load_user (fd_subscriptions data)
                      (set_subscriptionRefs []
                         (set_activeCollections []
                            (set_eventFilters [] (set_userSubscriptions [] s))))))).
  { eapply keeps_store_trans; [|apply keeps_store_fold, keeps_store_load_filters].
    eapply keeps_store_trans; [|apply keeps_store_fold, keeps_store_load_user].
    repeat peel_store. }
  destruct (ws_is_open _); auto.
  eapply keeps_store_trans; [exact H|apply keeps_store_resubscribe].
Qed.
#[local] Hint Extern 0 (keeps_store _ (loadSubscriptions _)) =>
  simple apply keeps_store_loadSubscriptions : store.

Lemma keeps_store_saveSubscriptions s : keeps_store s (saveSubscriptions s).
Proof. unfold saveSubscriptions. repeat peel_store. Qed.
#[local] Hint Extern 0 (keeps_store _ (saveSubscriptions _)) =>
  simple apply keeps_store_saveSubscriptions : store.

Lemma keeps_store_reconnect s : keeps_store s (reconnect s).
Proof. unfold reconnect. unfold_prims. repeat peel_store. Qed.
#[local] Hint Extern 0 (keeps_store _ (reconnect _)) =>
  simple apply keeps_store_reconnect : store.

Lemma keeps_store_connectToOpenSea s : keeps_store s (connectToOpenSea s).
Proof. unfold connectToOpenSea. unfold_prims. repeat peel_store. Qed.
#[local] Hint Extern 0 (keeps_store _ (connectToOpenSea _)) =>
  simple apply keeps_store_connectToOpenSea : store.

Lemma keeps_store_on_open s : keeps_store s (on_open s).
Proof. unfold on_open. unfold_prims. repeat peel_store. Qed.

Lemma keeps_store_on_error s : keeps_store s (on_error s).
Proof. unfold on_error. repeat peel_store. Qed.

Lemma keeps_store_on_close s : keeps_store s (on_close s).
Proof. unfold on_close. repeat peel_store. Qed.

Lemma keeps_store_route_to event slug s entry :
  keeps_store s (route_to event slug s entry).
Proof. unfold route_to. repeat peel_store. Qed.

Lemma keeps_store_handleOpenSeaEvent event s :
  keeps_store s (handleOpenSeaEvent event s).
Proof.
  unfold handleOpenSeaEvent. destruct (event_slug event); [|apply keeps_store_refl].
  apply keeps_store_fold. intros. apply keeps_store_route_to.
Qed.
#[local] Hint Extern 0 (keeps_store _ (handleOpenSeaEvent _ _)) =>
  simple apply keeps_store_handleOpenSeaEvent : store.

Lemma keeps_store_main_listener data s : keeps_store s (main_listener data s).
Proof. unfold main_listener. repeat peel_store. Qed.
#[local] Hint Extern 0 (keeps_store _ (main_listener _ _)) =>
  simple apply keeps_store_main_listener : store.

Lemma keeps_store_ack_timeout ref s : keeps_store s (ack_timeout ref s).
Proof. unfold ack_timeout. repeat peel_store. Qed.

Lemma keeps_store_resume_subscribe s p :
  (p_array p < List.length (arrays s))%nat ->
  keeps_store s (resume_subscribe s p).
Proof.
  intros Hp. unfold resume_subscribe. repeat peel_store.
  unfold push. fields. rewrite update_nth_length. exact Hp.
Qed.

Lemma keeps_store_resume_all resolved : forall s,
  Forall (fun p => (p_array p < List.length (arrays s))%nat) resolved ->
  keeps_store s (fold_left resume_subscribe resolved s).
Proof.
  induction resolved as [|p resolved IH]; intros s Hall; cbn [fold_left].
  - apply keeps_store_refl.
  - inversion Hall as [|? ? Hp Hrest]; subst.
    intros Hs.
    destruct (keeps_store_resume_subscribe s p Hp Hs) as (Hs' & Hc & Hl).
    destruct (IH (resume_subscribe s p)) with (2 := Hs') as (Hs'' & Hc' & Hl').
    + eapply Forall_impl; [|exact Hrest]. cbn beta. intros q Hq. lia.
    + split; [assumption|split; lia].
Qed.

Lemma clear_timers_store (resolved : list pending) : forall s,
  let s' := fold_left (fun s p => clearTimer (Some (p_timer p)) s) resolved s in
  userSubscriptions s' = userSubscriptions s /\ arrays s' = arrays s
  /\ awaiting s' = awaiting s /\ currentRef s' = currentRef s.
Proof.
  induction resolved as [|p resolved IH]; intros s; cbn [fold_left]; auto.
  cbv zeta in *.
  destruct (IH (clearTimer (Some (p_timer p)) s)) as (-> & -> & -> & ->).
  repeat split; reflexivity.
Qed.

Lemma keeps_store_on_message data s : keeps_store s (on_message data s).
Proof.
  unfold on_message. intros Hs.
  destruct (keeps_store_main_listener data s Hs) as (Hs1 & Hc1 & Hl1).
  set (s1 := main_listener data s) in *.
  set (resolved := filter (ack_matches data s1) (awaiting s1)).
  set (s2 := set_awaiting _ s1).
  destruct (keeps_store_drop (fun p => negb (ack_matches data s1 p)) s1 Hs1)
    as (Hs2 & Hc2 & Hl2). fold s2 in Hs2, Hc2, Hl2.
  set (s3 := fold_left _ resolved s2).
  destruct (clear_timers_store resolved s2) as (Hu & Ha & Hw & Hc). fold s3 in Hu, Ha, Hw, Hc.
  assert (Hs3 : store_inv s3).
  { unfold store_inv. rewrite Hu, Ha, Hw, Hc. exact Hs2. }
  destruct (keeps_store_resume_all resolved s3) with (2 := Hs3) as (Hs4 & Hc4 & Hl4).
  - apply Forall_forall. intros p [Hp _]%filter_In.
    destruct Hs1 as (_ & _ & _ & Haw & _). rewrite Forall_forall in Haw.
    apply Haw in Hp as [Hp _]. rewrite Ha. subst s2. fields. exact Hp.
  - split; [assumption|]. rewrite Ha, Hc in *. subst s2. fields_in Hc4. fields_in Hl4.
    split; lia.
Qed.

Lemma subscriptions_array_store userId s :
  store_inv s ->
  let a := fst (subscriptions_array userId s) in
  let s0 := snd (subscriptions_array userId s) in
  store_inv s0 /\ (a < List.length (arrays s0))%nat
  /\ currentRef s0 = currentRef s
  /\ (List.length (arrays s) <= List.length (arrays s0))%nat.
Proof.
  intros Hs. unfold subscriptions_array.
  destruct (JsMap.get userId (userSubscriptions s)) as [a|] eqn:E; cbn [fst snd].
  - split; [exact Hs|]. split; [|split; [reflexivity|lia]].
    destruct Hs as (_ & _ & Haddr & _). apply get_in in E. eauto.
  - unfold alloc. cbn [fst snd].
    destruct (keeps_store_alloc [] s Hs) as (Hs' & _ & Hl).
    fields. split; [exact Hs'|]. fields_in Hl.
    split; [|split; [reflexivity|exact Hl]].
    rewrite length_app. simpl. lia.
Qed.

(** A handler that suspends on a ref the counter has just issued. *)
Lemma store_inv_suspend s t p :
  store_inv s ->
  userSubscriptions t = userSubscriptions s ->
  arrays t = arrays s ->
  awaiting t = awaiting s ++ [p] ->
  currentRef t = currentRef s + 1 ->
  (p_array p < List.length (arrays s))%nat ->
  p_ref p = currentRef s + 1 ->
  store_inv t.
Proof.
  intros (Hcur & Hnd & Haddr & Haw & Hrefs) Hu Ha Hw Hc Hp Hr.
  unfold store_inv. rewrite Hu, Ha, Hw, Hc.
  split; [lia|]. split; [assumption|]. split; [assumption|]. split.
  - apply Forall_app. split.
    + eapply Forall_impl; [|exact Haw]. simpl. intros q [? ?]. split; auto. lia.
    + constructor; [|constructor]. split; auto. lia.
  - rewrite map_app. simpl. apply NoDup_snoc; auto.
    intros (q & Eq & Hq)%in_map_iff.
    rewrite Forall_forall in Haw. apply Haw in Hq as [_ Hq]. lia.
Qed.

Lemma keeps_store_cmd_subscribe userId args s :
  keeps_store s (cmd_subscribe userId args s).
Proof.
  unfold cmd_subscribe.
  destruct args as [|slug eventArgs]; [repeat peel_store|].
  destruct (String.length slug =? 0)%nat; [repeat peel_store|].
  destruct (negb _); [repeat peel_store|].
  destruct (requested_events eventArgs) as [userEvents|e]; [|repeat peel_store].
  intros Hs.
  destruct (subscriptions_array_store userId s Hs) as (Hs0 & Ha & Hc0 & Hl0).
  destruct (subscriptions_array userId s) as [a s0]. cbn [fst snd] in *.
  match goal with
  | |- store_inv ?X /\ _ => cut (keeps_store s0 X)
  end.
  { intros H. destruct (H Hs0) as (H1 & H2 & H3).
    split; [exact H1|split; lia]. }
  destruct (3 <=? _)%nat; [repeat peel_store|].
  destruct (includes _ _); [repeat peel_store|].
  cbv zeta. destruct (ws_is_open _).
  - match goal with
    | |- context [ws_send ?f ?t] =>
        destruct (ws_send_cases f t) as [E|[E|E]]; rewrite E
    end; unfold_prims.
    + repeat peel_store.
    + intros Hs0'. split; [|fields; split; lia].
      eapply (store_inv_suspend s0);
        [exact Hs0'|fields; reflexivity|fields; reflexivity|fields; reflexivity
        |fields; reflexivity|exact Ha|reflexivity].
    + intros Hs0'. split; [|fields; split; lia].
      eapply (store_inv_suspend s0);
        [exact Hs0'|fields; reflexivity|fields; reflexivity|fields; reflexivity
        |fields; reflexivity|exact Ha|reflexivity].
  - repeat peel_store.
    unfold push. fields. rewrite update_nth_length. exact Ha.
Qed.

Lemma keeps_store_unsubscribe_done userId s :
  keeps_store s (unsubscribe_done userId s).
Proof. unfold unsubscribe_done. repeat peel_store. Qed.
#[local] Hint Extern 0 (keeps_store _ (unsubscribe_done _ _)) =>
  simple apply keeps_store_unsubscribe_done : store.

Lemma keeps_store_cmd_unsubscribe userId args s :
  keeps_store s (cmd_unsubscribe userId args s).
Proof.
  unfold cmd_unsubscribe.
  destruct args as [|slug rest]; [repeat peel_store|].
  destruct (String.length slug =? 0)%nat; [repeat peel_store|].
  destruct (negb (isValidCollectionSlug _)); [repeat peel_store|].
  destruct (negb (includes _ _)); [repeat peel_store|].
  unfold_prims.
  destruct (still_subscribed _ _); [repeat peel_store|].
  destruct (ws_is_open _); [|repeat peel_store].
  destruct (JsMap.get slug _) as [ref|]; [|repeat peel_store].
  destruct (ref =? 0); [repeat peel_store|].
  match goal with
  | |- context [ws_send ?f ?t] =>
      generalize (keeps_store_ws_send f t);
      destruct (ws_send f t) as [threw s2]
  end.
  cbn [snd]. intros Hsend.
  apply (keeps_store_trans _ s2).
  - eapply keeps_store_trans; [|exact Hsend]. repeat peel_store.
  - destruct threw; repeat peel_store.
Qed.

Lemma keeps_store_clear_confirm userId s : keeps_store s (clear_confirm userId s).
Proof. unfold clear_confirm. repeat peel_store. Qed.

Lemma keeps_store_remove_collection userId slug s :
  keeps_store s (remove_collection userId slug s).
Proof. unfold remove_collection. unfold_prims. repeat peel_store. Qed.

Lemma keeps_store_event_filters_menu userId values s :
  keeps_store s (event_filters_menu userId values s).
Proof. unfold event_filters_menu. repeat peel_store. Qed.

Lemma keeps_store_filter_button userId subAction s :
  keeps_store s (filter_button userId subAction s).
Proof. unfold filter_button. repeat peel_store. Qed.

Lemma keeps_store_add_collection_modal userId slug s :
  keeps_store s (add_collection_modal userId slug s).
Proof.
  unfold add_collection_modal.
  destruct (negb _); [repeat peel_store|].
  intros Hs.
  destruct (subscriptions_array_store userId s Hs) as (Hs0 & Ha & Hc0 & Hl0).
  destruct (subscriptions_array userId s) as [a s0]. cbn [fst snd] in *.
  match goal with
  | |- store_inv ?X /\ _ => cut (keeps_store s0 X)
  end.
  { intros H. destruct (H Hs0) as (H1 & H2 & H3).
    split; [exact H1|split; lia]. }
  repeat peel_store.
  unfold push. fields. rewrite update_nth_length. exact Ha.
Qed.

Lemma keeps_store_run_timer action s : keeps_store s (run_timer action s).
Proof.
  destruct action; simpl.
  - destruct (ws s) as [[]|]; repeat peel_store.
  - apply keeps_store_ws_send.
  - destruct (isWsConnected s && ws_is_open s); [|apply keeps_store_refl].
    generalize (keeps_store_ws_send heartbeat_frame s).
    destruct (ws_send heartbeat_frame s) as [threw s1]. cbn [snd]. intros H.
    destruct threw; auto.
    eapply keeps_store_trans; [exact H|apply keeps_store_reconnect].
  - repeat peel_store.
  - apply keeps_store_subscribeNext.
  - apply keeps_store_connectToOpenSea.
  - repeat peel_store.
  - apply keeps_store_ack_timeout.
Qed.
#[local] Hint Extern 0 (keeps_store _ (run_timer _ _)) =>
  simple apply keeps_store_run_timer : store.

Lemma keeps_store_fire id s : keeps_store s (fire id s).
Proof. unfold fire. repeat peel_store. Qed.

Lemma keeps_store_on_ready s : keeps_store s (on_ready s).
Proof. unfold on_ready. unfold_prims. repeat peel_store. Qed.

Lemma keeps_store_step e s : keeps_store s (step e s).
Proof.
  destruct e; simpl.
  - apply keeps_store_on_ready.
  - repeat peel_store.
  - apply keeps_store_fire.
  - repeat peel_store.
  - destruct (ws s) as [[]|]; try apply keeps_store_refl.
    eapply keeps_store_trans; [|apply keeps_store_on_open]. repeat peel_store.
  - destruct (ws s) as [[]|]; try apply keeps_store_refl;
      (eapply keeps_store_trans; [|apply keeps_store_on_error]); repeat peel_store.
  - destruct (ws s) as [[]|]; try apply keeps_store_refl;
      (eapply keeps_store_trans; [|apply keeps_store_on_close]); repeat peel_store.
  - destruct (ws s) as [[]|]; try apply keeps_store_refl;
      apply keeps_store_on_message.
  - apply keeps_store_cmd_subscribe.
  - apply keeps_store_cmd_unsubscribe.
  - apply keeps_store_clear_confirm.
  - apply keeps_store_remove_collection.
  - apply keeps_store_event_filters_menu.
  - apply keeps_store_filter_button.
  - apply keeps_store_add_collection_modal.
Qed.

Lemma run_store trace : forall s, store_inv s -> store_inv (run trace s).
Proof.
  induction trace as [|e trace IH]; intros s Hs; simpl; auto.
  apply IH. now apply keeps_store_step.
Qed.

Lemma reachable_store_inv s : reachable s -> store_inv s.
Proof.
  intros (f & trace & ->). apply run_store.
  unfold store_inv. simpl.
  split; [lia|]. split; [constructor|]. split; [intros ? ? []|].
  split; constructor.
Qed.

(** * The claims *)

(** ** C1: joins per connection *)

Lemma run_cons e trace s : run (e :: trace) s = run trace (step e s).
Proof. reflexivity. Qed.

Lemma cancel_fresh id (l : list timer) :
  (forall t, In t l -> (t_id t < id)%nat) -> cancel id l = l.
Proof.
  unfold cancel. induction l as [|t l IH]; simpl; intros H; auto.
  destruct (Nat.eqb_spec (t_id t) id) as [E|_]; simpl.
  - specialize (H t (or_introl eq_refl)). lia.
  - f_equal. apply IH. auto.
Qed.

Lemma find_fresh id (l : list timer) (t : timer) :
  (forall x, In x l -> (t_id x < id)%nat) -> t_id t = id ->
  find (fun x => (t_id x =? id)%nat) (l ++ [t]) = Some t.
Proof.
  intros H Ht. induction l as [|x l IH]; simpl.
  - rewrite Ht, Nat.eqb_refl. reflexivity.
  - destruct (Nat.eqb_spec (t_id x) id) as [E|_].
    + specialize (H x (or_introl eq_refl)). lia.
    + apply IH. intros y Hy. apply H. now right.
Qed.

(** From the call of [subscribeNext] at [index] on: while the socket
    stays open and [send] does not raise, the rest of the pass sends one
    join for each remaining collection and nothing else. *)
Lemma pass_from collections : forall remaining done s,
  collections = done ++ remaining ->
  (forall t, In t (timers s) -> (t_id t < nextTimer s)%nat) ->
  ws s = Some OPEN -> sendThrows s = false ->
  let s' := run (pass_turns (nextTimer s) (List.length remaining))
              (subscribeNext collections (List.length done) s) in
  sent s' = sent s ++ joins_from (wsGen s) remaining (currentRef s + 1) (now s)
  /\ currentRef s' = currentRef s + Z.of_nat (List.length remaining)
  /\ timers s' = timers s.
Proof.
  induction remaining as [|slug remaining IH]; intros done s Hc Hfresh Hws Hth.
  - cbn [List.length pass_turns run fold_left joins_from].
    unfold subscribeNext.
    rewrite (proj2 (nth_error_None collections (List.length done)))
      by (subst; rewrite app_nil_r; lia).
    rewrite app_nil_r. cbn. repeat split; auto. lia.
  - assert (Hnth : nth_error collections (List.length done) = Some slug).
    { subst. rewrite nth_error_app2 by lia. now rewrite Nat.sub_diag. }
    set (armed := {| t_id := nextTimer s; t_due := now s + 500;
                     t_action := TSubscribeNext collections
                                   (S (List.length done)) |}).
    set (joined := set_sent
                     (sent s ++ [{| on_conn := wsGen s; at_time := now s;
                                    frame_of := join_frame slug (currentRef s + 1) |}])
                     (set_subscriptionRefs
                        (JsMap.set slug (currentRef s + 1) (subscriptionRefs s))
                        (set_currentRef (currentRef s + 1) s))).
    assert (E1 : subscribeNext collections (List.length done) s
                 = set_nextTimer (S (nextTimer s))
                     (set_timers (timers s ++ [armed]) joined)).
    { unfold subscribeNext. rewrite Hnth.
      unfold ws_send, setTimeout. fields. rewrite Hth, Hws. reflexivity. }
    set (t1 := set_timers (timers s)
                 (set_now (now s + 500)
                    (set_nextTimer (S (nextTimer s))
                       (set_timers (timers s ++ [armed]) joined)))).
    assert (E2 : step (Fire (nextTimer s))
                   (step (Elapse 500)
                      (subscribeNext collections (List.length done) s))
                 = subscribeNext collections (S (List.length done)) t1).
    { rewrite E1. cbn [step]. unfold fire. fields.
      rewrite find_fresh by auto.
      change (Z.max 0 500) with 500. subst armed. cbn [t_due t_action].
      rewrite Z.leb_refl. cbn [period run_timer]. rewrite app_nil_r.
      unfold cancel. rewrite filter_app. cbn [filter t_id].
      rewrite Nat.eqb_refl. cbn [negb]. rewrite app_nil_r.
      fold (cancel (nextTimer s) (timers s)).
      rewrite cancel_fresh by auto. reflexivity. }
    cbn [List.length pass_turns joins_from]. cbv zeta.
    rewrite !run_cons, E2.
    destruct (IH (done ++ [slug]) t1) as (Hsent & Hcur & Htimers).
    + subst. now rewrite <- app_assoc.
    + subst t1. fields. intros t Ht. apply Hfresh in Ht. lia.
    + exact Hws.
    + exact Hth.
    + rewrite length_app in Hsent, Hcur, Htimers.
      cbn [List.length] in Hsent, Hcur, Htimers.
      rewrite Nat.add_1_r in Hsent, Hcur, Htimers.
      change (nextTimer t1) with (S (nextTimer s)) in Hsent, Hcur, Htimers.
      cbv zeta in Hsent, Hcur, Htimers. rewrite Hsent, Hcur, Htimers.
      subst t1 joined. fields.
      split; [|split; [lia|reflexivity]].
      now rewrite <- app_assoc.
Qed.

(** A pass of [resubscribeToCollections] that is left alone joins every
    active collection exactly once, in the order of the active set, with
    fresh consecutive refs and 500 ms between two joins. *)
Lemma resubscribe_pass_joins_each_once (s : State) :
  reachable s ->
  ws s = Some OPEN -> isWsConnected s = true -> sendThrows s = false ->
  let s' := run (pass_turns (nextTimer s) (List.length (activeCollections s)))
              (resubscribeToCollections s) in
  sent s' = sent s ++ joins_from (wsGen s) (activeCollections s)
                        (currentRef s + 1) (now s).
Proof.
  intros Hreach Hws Hconn Hth.
  apply reachable_timers_inv in Hreach as (Hfresh & _).
  unfold resubscribeToCollections, ws_is_open. rewrite Hws, Hconn. cbn [negb orb].
  destruct (pass_from (activeCollections s) (activeCollections s) []
              (set_subscriptionRefs [] s)) as (Hsent & _); auto.
Qed.

(** C1 fails on the code.  With a saved subscription to one collection,
    every connection that is established joins the collection twice: the
    callback armed by the open handler runs [loadSubscriptions], which
    starts a pass of its own on the open socket, and then starts a second
    one.  Both joins of each connection leave at the same time, and both
    passes have ended. *)
Theorem reconnect_joins_twice :
  activeCollections two_connections = ["azuki"]
  /\ joins_of "azuki" 1 (sent two_connections)
     = [ {| on_conn := 1; at_time := 2000; frame_of := join_frame "azuki" 1 |};
         {| on_conn := 1; at_time := 2000; frame_of := join_frame "azuki" 2 |} ]
  /\ joins_of "azuki" 2 (sent two_connections)
     = [ {| on_conn := 2; at_time := 9500; frame_of := join_frame "azuki" 3 |};
         {| on_conn := 2; at_time := 9500; frame_of := join_frame "azuki" 4 |} ]
  /\ map t_action (timers two_connections) = [TRotation; THeartbeat].
Proof. vm_compute. repeat split; reflexivity. Qed.

(** ** C2: a subscribe call whose ack does not arrive *)

Lemma nth_alloc_empty (l : list (list string)) a :
  nth a (l ++ [[]]) [] = nth a l [].
Proof.
  destruct (Nat.lt_ge_cases a (List.length l)) as [H|H].
  - now apply app_nth1.
  - rewrite app_nth2 by assumption. rewrite (nth_overflow l) by assumption.
    destruct (a - List.length l)%nat as [|[|n]]; reflexivity.
Qed.

(** The array the subscribe handlers work on: the subscriber's own, or a
    new empty one, which changes nobody's subscriptions. *)
Lemma subscriptions_array_subs userId s :
  let a := fst (subscriptions_array userId s) in
  let s0 := snd (subscriptions_array userId s) in
  deref a s0 = subs_of s userId
  /\ (forall u, subs_of s0 u = subs_of s u)
  /\ (s0 = s \/ s0 = set_arrays (arrays s ++ [[]]) s).
Proof.
  unfold subscriptions_array, subs_of.
  destruct (JsMap.get userId (userSubscriptions s)) as [a|] eqn:E; cbn [fst snd].
  - auto.
  - unfold alloc, deref. cbn [fst snd]. fields. split; [|split; [|auto]].
    + now rewrite nth_middle.
    + intros u. destruct (JsMap.get u (userSubscriptions s)); auto.
      apply nth_alloc_empty.
Qed.

Lemma filter_none {A : Type} (f : A -> bool) (l : list A) :
  (forall x, In x l -> f x = false) -> filter f l = [].
Proof.
  induction l as [|x l IH]; simpl; intros H; auto.
  rewrite (H x) by now left. apply IH. auto.
Qed.

Lemma unique_ref_filter (l : list pending) (p : pending) :
  NoDup (map p_ref l) -> In p l ->
  filter (fun q => p_ref q =? p_ref p) l = [p].
Proof.
  induction l as [|x l IH]; simpl; intros Hnd Hin; [contradiction|].
  inversion Hnd as [|? ? Hnin Hnd']; subst.
  destruct Hin as [->|Hin].
  - rewrite Z.eqb_refl. f_equal.
    apply filter_none. clear IH.
    intros q Hq. apply Z.eqb_neq. intros E.
    apply Hnin. rewrite <- E. now apply in_map.
  - destruct (Z.eqb_spec (p_ref x) (p_ref p)) as [E|_]; auto.
    exfalso. apply Hnin. rewrite E. now apply in_map.
Qed.

(** The one-shot listener reads [event] and [ref] off what the socket
    hands it: a text or buffer payload has neither, so it resolves no
    suspended command. *)
Lemma text_data_resolves_nothing decoded s :
  filter (ack_matches (Text decoded) s) (awaiting s) = [].
Proof.
  apply filter_none. intros p _. unfold ack_matches. simpl.
  apply andb_false_r.
Qed.




(** ** C3: the refs of outbound frames *)

Lemma heartbeat_not_join_or_leave f :
  is_heartbeat f = true -> is_join f = false /\ is_leave f = false.
Proof.
  unfold is_heartbeat, is_join, is_leave. intros H.
  apply String.eqb_eq in H. rewrite H. now split.
Qed.




(** ** C4: clearing all subscriptions *)

(** C4 fails on the code.  The only subscriber of a joined collection
    clears all subscriptions while connected: the subscriptions and the
    filter are removed and saved, but the collection stays in the active
    set, no leave frame is ever sent, and the save joins the collection
    once more. *)
Theorem clear_all_leaves_nothing :
  userSubscriptions two_connections = [("U1", 2%nat)]
  /\ subs_of two_connections "U1" = ["azuki"]
  /\ userSubscriptions cleared = []
  /\ eventFilters cleared = []
  /\ file cleared = Some {| fd_subscriptions := []; fd_eventFilters := [] |}
  /\ activeCollections cleared = ["azuki"]
  /\ filter (fun sf => is_leave (frame_of sf)) (sent cleared) = []
  /\ sent cleared
     = sent two_connections
         ++ [{| on_conn := 2; at_time := 10000;
                frame_of := join_frame "azuki" 5 |}].
Proof. vm_compute. repeat split; reflexivity. Qed.

(** ** C5: the cap of three subscriptions *)

(** C5, as amended.  For a subscriber who already holds three
    subscriptions, every further subscribe call, by command or by modal,
    only answers the caller and leaves the rest of the state as it was;
    the answer is [RCapacityExceeded] when the slug is well formed (and,
    for the command, every event argument is a recognized kind). *)
Theorem subscribe_at_capacity (s : State) (userId : string) :
  (3 <= List.length (subs_of s userId))%nat ->
  (forall args, exists r, cmd_subscribe userId args s = say userId r s)
  /\ (forall collectionSlug eventArgs,
        isValidCollectionSlug collectionSlug = true ->
        Forall (fun e => In e VALID_EVENTS) eventArgs ->
        cmd_subscribe userId (collectionSlug :: eventArgs) s
        = say userId RCapacityExceeded s)
  /\ (forall collectionSlug,
        exists r, add_collection_modal userId collectionSlug s = say userId r s)
  /\ (forall collectionSlug,
        isValidCollectionSlug collectionSlug = true ->
        add_collection_modal userId collectionSlug s
        = say userId RCapacityExceeded s).
Proof.
  intros Hcap.
  destruct (subs_of_array s userId) as (a & _ & Earr & Ederef); [lia|].
  assert (Hfull : (3 <=? List.length (deref a s))%nat = true).
  { rewrite Ederef. now apply Nat.leb_le. }
  assert (Hcmd : forall collectionSlug eventArgs,
             isValidCollectionSlug collectionSlug = true ->
             forall kinds, requested_events eventArgs = inl kinds ->
             cmd_subscribe userId (collectionSlug :: eventArgs) s
             = say userId RCapacityExceeded s).
  { intros slug eventArgs Hslug kinds Hkinds. unfold cmd_subscribe.
    rewrite (valid_slug_nonempty _ Hslug), Hslug, Hkinds, Earr. cbn [negb].
    now rewrite Hfull. }
  assert (Hmodal : forall collectionSlug,
             isValidCollectionSlug collectionSlug = true ->
             add_collection_modal userId collectionSlug s
             = say userId RCapacityExceeded s).
  { intros slug Hslug. unfold add_collection_modal.
    rewrite Hslug, Earr. cbn [negb]. now rewrite Hfull. }
  repeat split.
  - intros [|slug eventArgs]; [now exists RUsage|].
    unfold cmd_subscribe.
    destruct (String.length slug =? 0)%nat eqn:Elen; [now exists RUsage|].
    destruct (isValidCollectionSlug slug) eqn:Hslug;
      [|now exists RInvalidSlug].
    cbn [negb].
    destruct (requested_events eventArgs) as [kinds|e] eqn:Hkinds;
      [|now exists (RInvalidEvent e)].
    exists RCapacityExceeded.
    rewrite <- (Hcmd slug eventArgs Hslug kinds Hkinds).
    unfold cmd_subscribe. now rewrite Elen, Hslug, Hkinds.
  - intros slug eventArgs Hslug Hargs.
    destruct (requested_events_valid eventArgs Hargs) as [kinds Hkinds].
    eauto.
  - intros slug. destruct (isValidCollectionSlug slug) eqn:Hslug.
    + exists RCapacityExceeded. auto.
    + exists RInvalidSlug. unfold add_collection_modal. now rewrite Hslug.
  - exact Hmodal.
Qed.

Lemma subscribe_at_capacity_witness :
  (3 <= List.length (subs_of three_subscriptions "U1"))%nat
  /\ cmd_subscribe "U1" ["cryptopunks"; "item_sold"] three_subscriptions
     = say "U1" RCapacityExceeded three_subscriptions.
Proof.
  assert (H : (3 <= List.length (subs_of three_subscriptions "U1"))%nat)
    by (vm_compute; lia).
  split; [exact H|].
  apply (subscribe_at_capacity three_subscriptions "U1" H).
  - reflexivity.
  - repeat constructor; simpl; tauto.
Defined.

(** C5 as stated fails: with three subscriptions held, a call with a
    malformed slug is answered [RInvalidSlug], not [RCapacityExceeded]. *)
Lemma subscribe_at_capacity_invalid_slug :
  List.length (subs_of three_subscriptions "U1") = 3%nat
  /\ cmd_subscribe "U1" ["Bad_Slug"] three_subscriptions
     = say "U1" RInvalidSlug three_subscriptions
  /\ cmd_subscribe "U1" ["Bad_Slug"] three_subscriptions
     <> say "U1" RCapacityExceeded three_subscriptions.
Proof.
  split; [reflexivity|]. split; [reflexivity|].
  intros H. apply (f_equal replies) in H. vm_compute in H. discriminate.
Qed.

(** ** C6: reconnection backoff *)

(** Calls of [reconnect].  The [n]th call in a row (n from 1 to 5) arms
    the reconnection after min(5000 * 2^(n-1), 30000) ms; these delays
    never decrease and never exceed 30000 ms; no turn of the event loop
    other than the opening of the socket lowers the attempt counter, and
    the opening sets it to zero; and once five calls are used up, the
    next [reconnect] leaves no reconnection armed, nor is one armed in any
    reachable state whose counter is beyond five. *)
Lemma reconnect_backoff :
  (forall s n,
      1 <= n <= 5 -> connectionAttempts s = n - 1 ->
      connectionAttempts (reconnect s) = n
      /\ reconnectTimeout (reconnect s) = Some (nextTimer s)
      /\ In {| t_id := nextTimer s;
               t_due := now s + Z.min (5000 * 2 ^ (n - 1)) 30000;
               t_action := TReconnect |} (timers (reconnect s)))
  /\ (forall n, backoff_delay n <= backoff_delay (n + 1)
                /\ backoff_delay n <= 30000)
  /\ (forall e s, e <> WsOpen ->
                  connectionAttempts s <= connectionAttempts (step e s))
  /\ (forall s, ws s = Some CONNECTING ->
                connectionAttempts (step WsOpen s) = 0)
  /\ (forall s, ws s <> Some CONNECTING -> step WsOpen s = s)
  /\ (forall s, reachable s -> 5 <= connectionAttempts s ->
                forall t, In t (timers (reconnect s)) -> t_action t <> TReconnect)
  /\ (forall s, reachable s -> 5 < connectionAttempts s ->
                forall t, In t (timers s) -> t_action t <> TReconnect).
Proof.
  split; [|split; [|split; [|split; [|split; [|split]]]]].
  - intros s n Hn Hs.
    destruct (reconnect_arms s) as (Ha & Hr & Ht).
    { unfold MAX_RECONNECT_ATTEMPTS. lia. }
    split; [lia|]. split; [assumption|].
    rewrite Ht. apply in_or_app. right. left.
    now replace (connectionAttempts s + 1) with n by lia.
  - intros n. split.
    + apply backoff_delay_mono. lia.
    + apply backoff_delay_bound.
  - intros e s He. now apply progress_step.
  - intros s Hws. simpl. rewrite Hws.
    now destruct (on_open_refs (set_ws (Some OPEN) s)) as (_ & _ & _ & ->).
  - intros s Hws. simpl. destruct (ws s) as [[]|]; congruence.
  - intros s Hreach Hmax.
    apply reachable_timers_inv in Hreach.
    apply keeps_timers_reconnect in Hreach as (_ & _ & Hnone).
    apply Hnone.
    rewrite reconnect_gives_up by (unfold MAX_RECONNECT_ATTEMPTS; lia).
    fields. unfold MAX_RECONNECT_ATTEMPTS.
    destruct (reconnectTimeout s); fields; lia.
  - intros s Hreach Hmax.
    apply reachable_timers_inv in Hreach as (_ & _ & Hnone).
    now apply Hnone.
Qed.


(** C6.  Connections that fail one after the other, the counter starting
    at zero.  A failed connection raises ['error'] and then ['close'], both
    listeners call [reconnect], and the second call replaces the timer of
    the first.  So the retry after the first failure is armed 10 s ahead,
    as attempt 2, the retry after the second failure 30 s ahead, as
    attempt 4, and the third failure leaves the counter at 6 with nothing
    armed: two retries in all, none of them after 5 s. *)
Theorem three_failures_use_six_attempts :
  connectionAttempts first_failure = 2
  /\ filter is_reconnect (timers first_failure)
     = [{| t_id := 3; t_due := now first_failure + 10000;
           t_action := TReconnect |}]
  /\ connectionAttempts second_failure = 4
  /\ filter is_reconnect (timers second_failure)
     = [{| t_id := 6; t_due := now second_failure + 30000;
           t_action := TReconnect |}]
  /\ connectionAttempts third_failure = 5
  /\ three_failures = step WsClose third_failure
  /\ connectionAttempts three_failures = 6
  /\ ws three_failures = Some CLOSED
  /\ filter is_reconnect (timers three_failures) = [].
Proof.
  repeat (split; [vm_compute; reflexivity|]). vm_compute. reflexivity.
Qed.

(** ** The router and the stored filter *)

(** The router on its own, whatever the state.  A subscriber of the
    event's collection who has no stored filter is handed every event of a
    recognized kind; a stored filter that is the empty set would hand the
    subscriber none. *)
Lemma absent_filter_matches_all (s : State) (userId : string)
    (event : wsmessage) (collectionSlug : string) :
  event_slug event = Some collectionSlug ->
  In collectionSlug (subs_of s userId) ->
  notifications (handleOpenSeaEvent event s) = notifications s ++ routed event s
  /\ (JsMap.get userId (eventFilters s) = None ->
      In (m_event event) VALID_EVENTS ->
      In (userId, event) (routed event s))
  /\ (JsMap.get userId (eventFilters s) = Some [] ->
      ~ In (userId, event) (routed event s)).
Proof.
  intros Hslug Hsub.
  split; [apply handleOpenSeaEvent_notifications|].
  unfold routed. rewrite Hslug. split.
  - intros Hnone Hkind.
    unfold subs_of in Hsub.
    destruct (JsMap.get userId (userSubscriptions s)) as [a|] eqn:Ea;
      [|contradiction].
    apply in_map_iff. exists (userId, a). split; [reflexivity|].
    apply filter_In. split; [now apply get_in|].
    unfold interested, filters_or_default. cbn [fst snd]. rewrite Hnone.
    apply andb_true_intro. split.
    + now apply includes_In.
    + now apply has_In.
  - intros Hempty ([u a] & E & [_ Hint]%filter_In)%in_map_iff.
    inversion E; subst.
    unfold interested, filters_or_default in Hint. cbn [fst snd] in Hint.
    rewrite Hempty in Hint. simpl in Hint.
    now rewrite andb_false_r in Hint.
Qed.

(** The empty set is stored by a menu that comes back with nothing
    selected, which a menu built with [setMinValues(1)] does not do; the
    router would then hand the subscriber nothing. *)
Lemma empty_filter_matches_nothing :
  JsMap.get "U1" (eventFilters empty_filter) = Some []
  /\ In "azuki" (subs_of empty_filter "U1")
  /\ In (m_event item_sold_azuki) VALID_EVENTS
  /\ notifications (handleOpenSeaEvent item_sold_azuki empty_filter) = [].
Proof.
  repeat split; try reflexivity; vm_compute; tauto.
Qed.

(** ** C8: unsubscribing the last holder of a collection *)

Lemma set_In_other {V : Type} k (v : V) k' v' m :
  NoDup (map fst m) ->
  In (k', v') (JsMap.set k v m) ->
  (k', v') = (k, v) \/ (k' <> k /\ In (k', v') m).
Proof.
  induction m as [|[k0 v0] m IH]; simpl; intros Hnd.
  - intros [H|[]]; auto.
  - inversion Hnd as [|? ? Hnin Hnd']; subst.
    destruct (String.eqb_spec k k0) as [->|Hne]; simpl; intros [H|H]; auto.
    + right. split; auto. intros ->. apply Hnin.
      apply in_map_iff. now exists (k0, v').
    + inversion H; subst. right. split; auto.
    + apply IH in H as [H|[H1 H2]]; auto.
Qed.

Lemma save_user_active s entries : forall acc x,
  In x (snd (fold_left (save_user s) entries acc)) ->
  In x (snd acc)
  \/ exists userId a, In (userId, a) entries /\ In x (deref a s).
Proof.
  induction entries as [|[u a] entries IH]; intros acc x; simpl; auto.
  intros H. apply IH in H as [H|(u' & a' & H1 & H2)].
  - unfold save_user in H. cbn [fst snd] in H.
    destruct (0 <? List.length (deref a s))%nat; auto.
    cbn [snd] in H. apply add_all_In in H as [H|H]; auto.
    right. exists u, a. auto.
  - right. exists u', a'. auto.
Qed.

(** What a reconciliation pass leaves alone, and what it may add. *)
Lemma subscribeNext_frame collections index s :
  let s' := subscribeNext collections index s in
  userSubscriptions s' = userSubscriptions s
  /\ arrays s' = arrays s
  /\ activeCollections s' = activeCollections s
  /\ replies s' = replies s
  /\ file s' = file s
  /\ (exists extra, sent s' = sent s ++ extra)
  /\ (forall k r, JsMap.get k (subscriptionRefs s') = Some r ->
                  JsMap.get k (subscriptionRefs s) = Some r \/ In k collections).
Proof.
  unfold subscribeNext.
  destruct (nth_error collections index) as [slug|] eqn:E.
  - apply nth_error_In in E. unfold setTimeout. cbn [snd].
    match goal with
    | |- context [ws_send ?f ?t] =>
        destruct (ws_send_cases f t) as [H|[H|H]]; rewrite H
    end; fields; repeat split; try reflexivity;
      try (exists []; now rewrite app_nil_r); try (eexists; reflexivity);
      intros k r; rewrite get_set;
      destruct (String.eqb_spec k slug); subst; auto.
  - cbv zeta. repeat split; auto. exists []. now rewrite app_nil_r.
Qed.

Lemma resubscribe_frame s :
  let s' := resubscribeToCollections s in
  userSubscriptions s' = userSubscriptions s
  /\ arrays s' = arrays s
  /\ activeCollections s' = activeCollections s
  /\ replies s' = replies s
  /\ file s' = file s
  /\ (exists extra, sent s' = sent s ++ extra)
  /\ (forall k r, JsMap.get k (subscriptionRefs s') = Some r ->
                  JsMap.get k (subscriptionRefs s) = Some r
                  \/ In k (activeCollections s)).
Proof.
  unfold resubscribeToCollections.
  destruct (negb (isWsConnected s) || negb (ws_is_open s)).
  - cbv zeta. repeat split; auto. exists []. now rewrite app_nil_r.
  - destruct (subscribeNext_frame
                (activeCollections (set_subscriptionRefs [] s)) 0
                (set_subscriptionRefs [] s))
      as (H1 & H2 & H3 & H4 & H5 & H6 & H7).
    cbv zeta. rewrite H1, H2, H3, H4, H5. fields.
    repeat split; auto.
    intros k r H. apply H7 in H as [H|H]; [discriminate|auto].
Qed.

Lemma saveSubscriptions_frame s :
  let s' := saveSubscriptions s in
  userSubscriptions s' = userSubscriptions s
  /\ arrays s' = arrays s
  /\ replies s' = replies s
  /\ (exists extra, sent s' = sent s ++ extra)
  /\ (forall x, In x (activeCollections s') ->
                In x (activeCollections s)
                \/ exists userId a, In (userId, a) (userSubscriptions s)
                                    /\ In x (deref a s))
  /\ (forall k r, JsMap.get k (subscriptionRefs s') = Some r ->
                  JsMap.get k (subscriptionRefs s) = Some r
                  \/ In k (activeCollections s')).
Proof.
  unfold saveSubscriptions.
  set (saved := fold_left (save_user s) (userSubscriptions s)
                  ([], activeCollections s)).
  set (t := set_file _ (set_activeCollections (snd saved) s)).
  assert (Hact : forall x, In x (snd saved) ->
                 In x (activeCollections s)
                 \/ exists userId a, In (userId, a) (userSubscriptions s)
                                     /\ In x (deref a s)).
  { intros x Hx. now apply save_user_active in Hx. }
  cbv zeta. destruct (ws_is_open t).
  - destruct (resubscribe_frame t) as (H1 & H2 & H3 & H4 & H5 & H6 & H7).
    cbv zeta in *. rewrite H1, H2, H3, H4. subst t. fields.
    repeat split; auto.
  - subst t. fields. repeat split; auto. exists []. now rewrite app_nil_r.
Qed.

(** After the subscriber's array is replaced by one without the slug, no
    array in the map holds it when nobody else did. *)
Lemma nobody_holds s userId slug :
  store_inv s ->
  (forall u, u <> userId -> ~ In slug (subs_of s u)) ->
  let t := set_userSubscriptions
             (JsMap.set userId (List.length (arrays s)) (userSubscriptions s))
             (set_arrays (arrays s ++ [without slug (subs_of s userId)]) s) in
  forall u a, In (u, a) (userSubscriptions t) -> ~ In slug (deref a t).
Proof.
  intros (_ & Hnd & Haddr & _) Hothers t u a Hin. subst t.
  fields_in Hin. unfold deref. fields.
  apply set_In_other in Hin as [E|[Hne Hin]]; auto.
  - inversion E; subst. rewrite nth_middle.
    intros [_ H]%without_In. congruence.
  - rewrite app_nth1 by eauto.
    specialize (Hothers u Hne). unfold subs_of in Hothers.
    rewrite (in_get _ _ _ Hnd Hin) in Hothers. exact Hothers.
Qed.

Lemma existsb_false {A : Type} (f : A -> bool) (l : list A) :
  (forall x, In x l -> f x = false) -> existsb f l = false.
Proof.
  induction l as [|x l IH]; simpl; intros H; auto.
  rewrite (H x) by now left. apply IH. auto.
Qed.

(** C8, as amended.  For the unsubscribe command with a well-formed
    slug, in any reachable state: if the pair is absent the command only
    answers [RNotSubscribed]; if it is present and no other subscriber
    holds the collection, then, unless [ws.send] raises, the command ends
    with the pair removed, the collection absent from the active set and
    the caller answered, and when the socket is open and a non-zero ref
    is stored for the collection, a leave frame carrying that ref has been
    sent and no ref is stored for the collection any more. *)
Theorem unsubscribe_last_holder (s : State) (userId slug : string)
    (rest : list string) :
  reachable s ->
  isValidCollectionSlug slug = true ->
  (~ In slug (subs_of s userId) ->
   cmd_unsubscribe userId (slug :: rest) s = say userId RNotSubscribed s)
  /\ (In slug (subs_of s userId) ->
      (forall u, u <> userId -> ~ In slug (subs_of s u)) ->
      sendThrows s = false ->
      let s' := cmd_unsubscribe userId (slug :: rest) s in
      ~ In slug (subs_of s' userId)
      /\ ~ In slug (activeCollections s')
      /\ replies s' = replies s ++ [(userId, RUnsubscribed)]
      /\ (ws_is_open s = true ->
          forall ref, JsMap.get slug (subscriptionRefs s) = Some ref ->
                      ref <> 0 ->
                      In {| on_conn := wsGen s; at_time := now s;
                            frame_of := leave_frame slug ref |} (sent s')
                      /\ JsMap.get slug (subscriptionRefs s') = None)).
Proof.
  intros Hreach Hslug. apply reachable_store_inv in Hreach as Hstore.
  unfold cmd_unsubscribe.
  rewrite (valid_slug_nonempty _ Hslug), Hslug. cbn [negb].
  split.
  - intros Hnot. destruct (includes _ _) eqn:E; auto.
    apply includes_In in E. contradiction.
  - intros Hheld Hothers Hsend.
    apply includes_In in Hheld as Hinc. rewrite Hinc. cbn [negb].
    unfold alloc. cbn [fst snd].
    pose proof (nobody_holds s userId slug Hstore Hothers) as Hnone.
    cbv zeta in Hnone.
    set (t := set_userSubscriptions _ (set_arrays _ s)) in *.
    assert (Hstill : still_subscribed slug t = false).
    { unfold still_subscribed, JsMap.values.
      apply existsb_false. intros a ([u a'] & Ea & Hin)%in_map_iff.
      cbn [snd] in Ea. subst a'.
      destruct (includes (deref a t) slug) eqn:E; auto.
      apply includes_In in E. now apply Hnone in Hin. }
    rewrite Hstill.
    set (t2 := set_activeCollections _ t).
    (* what the command does once [t2] is reached is [unsubscribe_done]
       of a state with the same subscriptions and active set *)
    assert (Hdone : forall t3,
               userSubscriptions t3 = userSubscriptions t ->
               arrays t3 = arrays t ->
               activeCollections t3 = activeCollections t2 ->
               replies t3 = replies s ->
               let s' := unsubscribe_done userId t3 in
               ~ In slug (subs_of s' userId)
               /\ ~ In slug (activeCollections s')
               /\ replies s' = replies s ++ [(userId, RUnsubscribed)]
               /\ (exists extra, sent s' = sent t3 ++ extra)
               /\ (JsMap.get slug (subscriptionRefs t3) = None ->
                   JsMap.get slug (subscriptionRefs s') = None)).
    { intros t3 Hu Ha Hact Hrep. unfold unsubscribe_done, say.
      destruct (saveSubscriptions_frame t3) as (S1 & S2 & S3 & S4 & S5 & S6).
      cbv zeta in *. unfold subs_of, deref. fields.
      rewrite S1, S2, S3, Hu, Ha, Hrep.
      assert (Hactive : ~ In slug (activeCollections (saveSubscriptions t3))).
      { intros [H|(u & a & H1 & H2)]%S5.
        - rewrite Hact in H. subst t2. fields_in H.
          apply delete_In in H as [_ H]. congruence.
        - rewrite Hu in H1. apply Hnone in H1. apply H1.
          unfold deref in *. now rewrite <- Ha. }
      split; [|split; [exact Hactive|split; [reflexivity|split; [exact S4|]]]].
      - subst t. fields. rewrite get_set_same, nth_middle.
        intros [_ H]%without_In. congruence.
      - intros Hnoref.
        destruct (JsMap.get slug (subscriptionRefs (saveSubscriptions t3)))
          as [r|] eqn:E; auto.
        apply S6 in E as [E|E]; [congruence|contradiction]. }
    assert (Hplain : let s' := unsubscribe_done userId t2 in
               ~ In slug (subs_of s' userId)
               /\ ~ In slug (activeCollections s')
               /\ replies s' = replies s ++ [(userId, RUnsubscribed)]).
    { destruct (Hdone t2) as (D1 & D2 & D3 & _); try reflexivity. auto. }
    cbv zeta in Hplain. destruct Hplain as (P1 & P2 & P3).
    destruct (ws_is_open t2) eqn:Eopen.
    + assert (Eopen' : ws_is_open s = true) by exact Eopen.
      change (subscriptionRefs t2) with (subscriptionRefs s).
      destruct (JsMap.get slug (subscriptionRefs s)) as [ref|] eqn:Eref.
      * destruct (Z.eqb_spec ref 0) as [->|Hnz].
        { cbv zeta. split; [exact P1|split; [exact P2|split; [exact P3|]]].
          intros _ r Hr Hr0. congruence. }
        unfold ws_send. change (sendThrows t2) with (sendThrows s).
        rewrite Hsend. unfold ws_is_open in Eopen.
        destruct (ws t2) as [[]|]; try discriminate.
        match goal with
        | |- context [unsubscribe_done userId ?t3] =>
            destruct (Hdone t3) as (D1 & D2 & D3 & [extra D4] & D5);
            try reflexivity
        end.
        cbv zeta. split; [exact D1|]. split; [exact D2|]. split; [exact D3|].
        intros _ r Hr Hr0. inversion Hr; subst r. split.
        { rewrite D4. fields. apply in_or_app. left.
          apply in_or_app. right. now left. }
        { apply D5. fields. apply get_delete_same. }
      * cbv zeta. split; [exact P1|split; [exact P2|split; [exact P3|]]].
        intros _ r Hr. discriminate.
    + cbv zeta. split; [exact P1|split; [exact P2|split; [exact P3|]]].
      intros Hopen. exfalso.
      assert (E : ws_is_open t2 = ws_is_open s) by reflexivity. congruence.
Qed.

Lemma unsubscribe_last_holder_witness :
  In "azuki" (subs_of two_connections "U1")
  /\ ws_is_open two_connections = true
  /\ JsMap.get "azuki" (subscriptionRefs two_connections) = Some 4
  /\ ~ In "azuki" (activeCollections (cmd_unsubscribe "U1" ["azuki"] two_connections))
  /\ In {| on_conn := wsGen two_connections; at_time := now two_connections;
            frame_of := leave_frame "azuki" 4 |}
       (sent (cmd_unsubscribe "U1" ["azuki"] two_connections)).
Proof.
  assert (Hheld : In "azuki" (subs_of two_connections "U1"))
    by (vm_compute; tauto).
  assert (Hopen : ws_is_open two_connections = true) by reflexivity.
  assert (Href : JsMap.get "azuki" (subscriptionRefs two_connections) = Some 4)
    by reflexivity.
  destruct (unsubscribe_last_holder two_connections "U1" "azuki" [])
    as [_ Hlast].
  - exists None, reconnect_cycle. reflexivity.
  - reflexivity.
  - destruct Hlast as (_ & Hactive & _ & Hleave).
    + exact Hheld.
    + intros u Hne. unfold subs_of.
      replace (userSubscriptions two_connections) with [("U1", 2%nat)]
        by reflexivity.
      simpl. destruct (String.eqb_spec u "U1"); [contradiction|tauto].
    + reflexivity.
    + destruct (Hleave Hopen 4 Href) as [Hsent _]; [discriminate|].
      split; [exact Hheld|]. split; [exact Hopen|]. split; [exact Href|].
      split; [exact Hactive|exact Hsent].
Defined.

(** C8 as stated fails: the pair was the only holder of the collection
    and the command succeeded, the collection has left the active set,
    and its stored ref is still there, because the socket was not open. *)
Lemma unsubscribe_offline_keeps_ref :
  replies offline_unsubscribed
  = [("U1", RSubscribedWhenConnected); ("U1", RUnsubscribed)]
  /\ userSubscriptions offline_unsubscribed = [("U1", 1%nat)]
  /\ subs_of offline_unsubscribed "U1" = []
  /\ activeCollections offline_unsubscribed = []
  /\ JsMap.get "azuki" (subscriptionRefs offline_unsubscribed) = Some 1
  /\ JsMap.get "azuki" (subscriptionRefs offline_unsubscribed) <> None.
Proof.
  vm_compute. repeat split; try reflexivity. discriminate.
Qed.

(** ** C9: heartbeats *)

(** C9 fails on the code.  The open handler arms the initial heartbeat
    1000 ms and the interval 30000 ms ahead; when [ws.send] raises for the
    initial heartbeat nothing follows (the attempt counter stays at zero
    and no reconnection is armed), while the same failure of the next
    heartbeat of the interval calls [reconnect]. *)
Theorem initial_heartbeat_failure_ignored :
  map (fun t => (t_due t, t_action t)) (timers connected_idle)
  = [ (300000, TRotation); (1000, TInitialHeartbeat); (30000, THeartbeat);
      (2000, TStartSubscriptions) ]
  /\ sent initial_heartbeat_failed = []
  /\ connectionAttempts initial_heartbeat_failed = 0
  /\ map t_action (timers initial_heartbeat_failed)
     = [TRotation; THeartbeat; TStartSubscriptions]
  /\ connectionAttempts interval_heartbeat_failed = 1
  /\ In {| t_id := 5; t_due := 35000; t_action := TReconnect |}
       (timers interval_heartbeat_failed).
Proof. vm_compute. repeat split; try reflexivity. tauto. Qed.

(** ** C10: join refs over the life of the process *)

Lemma sorted_lt_distinct {A : Type} (f : A -> Z) (l : list A) (a b : A) :
  StronglySorted Z.lt (map f l) -> In a l -> In b l -> f a = f b -> a = b.
Proof.
  induction l as [|x l IH]; simpl; intros Hs Ha Hb E; [contradiction|].
  apply StronglySorted_inv in Hs as [Hs Hx].
  rewrite Forall_map, Forall_forall in Hx.
  destruct Ha as [->|Ha], Hb as [->|Hb]; auto.
  - apply Hx in Hb. lia.
  - apply Hx in Ha. lia.
Qed.

(** C10.  No turn of the event loop lowers [currentRef]; in every
    reachable state the refs of the join frames, over all connections and
    in the order they were sent, are strictly increasing; and two join
    frames written to different sockets never carry the same ref. *)
Theorem join_refs_increase_forever :
  (forall e s, currentRef s <= currentRef (step e s))
  /\ (forall s, reachable s -> StronglySorted Z.lt (join_refs (sent s)))
  /\ (forall s a b,
        reachable s -> In a (sent s) -> In b (sent s) ->
        is_join (frame_of a) = true -> is_join (frame_of b) = true ->
        on_conn a <> on_conn b ->
        f_ref (frame_of a) <> f_ref (frame_of b)).
Proof.
  split; [|split].
  - intros e s. apply step_refs.
  - intros s Hreach. now apply reachable_refs_inv in Hreach as (_ & _ & H & _).
  - intros s a b Hreach Ha Hb Hja Hjb Hconn E.
    apply reachable_refs_inv in Hreach as (_ & _ & Hsorted & _).
    unfold join_refs in Hsorted.
    assert (Hab : frame_of a = frame_of b).
    { apply (sorted_lt_distinct f_ref (filter is_join (map frame_of (sent s))));
        auto; apply filter_In; split; auto; now apply in_map. }
    set (joins := filter (fun sf => is_join (frame_of sf)) (sent s)).
    assert (Hmap : map f_ref (filter is_join (map frame_of (sent s)))
                   = map (fun sf => f_ref (frame_of sf)) joins).
    { subst joins. clear. induction (sent s) as [|sf l IH]; simpl; auto.
      destruct (is_join (frame_of sf)); simpl; congruence. }
    rewrite Hmap in Hsorted.
    apply Hconn. f_equal.
    apply (sorted_lt_distinct (fun sf => f_ref (frame_of sf)) joins); auto;
      subst joins; apply filter_In; auto.
Qed.

Lemma join_refs_increase_forever_witness :
  StronglySorted Z.lt (join_refs (sent two_connections))
  /\ join_refs (sent two_connections) = [1; 2; 3; 4].
Proof.
  split; [|reflexivity].
  apply join_refs_increase_forever.
  exists None, reconnect_cycle. reflexivity.
Defined.

(** * Further properties of the code *)

(** ** Field updates *)

Lemma set_notifications_same s : set_notifications (notifications s) s = s.
Proof. destruct s; reflexivity. Qed.

Lemma set_awaiting_same s : set_awaiting (awaiting s) s = s.
Proof. destruct s; reflexivity. Qed.

Lemma filter_all {A : Type} (f : A -> bool) (l : list A) :
  (forall x, In x l -> f x = true) -> filter f l = l.
Proof.
  induction l as [|x l IH]; simpl; intros H; auto.
  rewrite (H x) by now left. f_equal. apply IH. auto.
Qed.

Lemma NoDup_keys_filter {K V : Type} (f : K * V -> bool) (m : list (K * V)) :
  NoDup (map fst m) -> NoDup (map fst (filter f m)).
Proof.
  induction m as [|kv m IH]; simpl; intros H; [constructor|].
  inversion H as [|? ? Hnin Hnd]; subst.
  destruct (f kv); simpl; auto.
  constructor; auto.
  intros Hin. apply Hnin.
  apply in_map_iff in Hin as (x & Hx & Hin). apply filter_In in Hin as [Hin _].
  apply in_map_iff. now exists x.
Qed.

(** ** The router *)

Lemma route_to_exact event slug s entry :
  route_to event slug s entry =
  set_notifications
    (notifications s
       ++ (if interested event slug s entry then [(fst entry, event)] else [])) s.
Proof.
  unfold route_to, interested.
  destruct (includes _ _); cbn [andb];
    [destruct (JsSet.has _ _)|]; try reflexivity;
    now rewrite app_nil_r, set_notifications_same.
Qed.

Lemma route_all_exact event slug entries : forall s,
  fold_left (route_to event slug) entries s =
  set_notifications
    (notifications s
       ++ map (fun entry => (fst entry, event))
            (filter (interested event slug s) entries)) s.
Proof.
  induction entries as [|entry entries IH]; intros s; cbn [fold_left filter map].
  - now rewrite app_nil_r, set_notifications_same.
  - rewrite IH, route_to_exact. fields.
    rewrite (filter_ext (interested event slug (set_notifications _ s))
               (interested event slug s))
      by (intros e; apply interested_frame; reflexivity).
    rewrite <- app_assoc.
    destruct (interested event slug s entry); reflexivity.
Qed.

Lemma handleOpenSeaEvent_exact event s :
  handleOpenSeaEvent event s
  = set_notifications (notifications s ++ routed event s) s.
Proof.
  unfold handleOpenSeaEvent, routed. destruct (event_slug event).
  - apply route_all_exact.
  - now rewrite app_nil_r, set_notifications_same.
Qed.

(** X1.  [handleOpenSeaEvent] in a reachable state: an event that names a
    collection is handed to [sendNotification] once for every user who
    holds the collection and whose filter (the default when none is
    stored) has the event's kind, for nobody else, and nothing else in the
    state changes. *)
Theorem router_notifies_exactly (s : State) (event : wsmessage) (slug : string) :
  reachable s ->
  event_slug event = Some slug ->
  exists new,
    handleOpenSeaEvent event s = set_notifications (notifications s ++ new) s
    /\ NoDup (map fst new)
    /\ (forall u e, In (u, e) new <->
          e = event /\ In slug (subs_of s u)
          /\ In (m_event event) (filters_or_default s u)).
Proof.
  intros Hreach Hslug.
  apply reachable_store_inv in Hreach as (_ & Hnd & _).
  exists (routed event s). split; [apply handleOpenSeaEvent_exact|].
  unfold routed. rewrite Hslug. split.
  - rewrite map_map. cbn [fst]. now apply NoDup_keys_filter.
  - intros u e. rewrite in_map_iff. split.
    + intros ([u' a] & E & [Hin Hint]%filter_In). inversion E; subst.
      unfold interested in Hint. cbn [fst snd] in Hint.
      apply andb_prop in Hint as [Hinc Hhas].
      apply includes_In in Hinc. apply has_In in Hhas.
      unfold subs_of. rewrite (in_get _ _ _ Hnd Hin). auto.
    + intros (-> & Hheld & Hkind). unfold subs_of in Hheld.
      destruct (JsMap.get u (userSubscriptions s)) as [a|] eqn:E;
        [|contradiction].
      exists (u, a). split; [reflexivity|]. apply filter_In.
      split; [now apply get_in|].
      unfold interested. cbn [fst snd].
      apply andb_true_intro. split; [now apply includes_In|now apply has_In].
Qed.

Lemma router_notifies_exactly_witness :
  reachable three_subscriptions
  /\ event_slug item_sold_azuki = Some "azuki"
  /\ exists new,
       handleOpenSeaEvent item_sold_azuki three_subscriptions
       = set_notifications (notifications three_subscriptions ++ new)
           three_subscriptions
       /\ In ("U1", item_sold_azuki) new.
Proof.
  assert (Hreach : reachable three_subscriptions)
    by (eexists None, _; reflexivity).
  assert (Hslug : event_slug item_sold_azuki = Some "azuki") by reflexivity.
  split; [exact Hreach|]. split; [exact Hslug|].
  destruct (router_notifies_exactly three_subscriptions item_sold_azuki "azuki"
              Hreach Hslug) as (new & Hnew & _ & Hin).
  exists new. split; [exact Hnew|].
  apply Hin. split; [reflexivity|]. split; vm_compute; tauto.
Defined.

(** ** Inbound frames *)

(** X2.  A text frame does one thing: when it decodes to a message that
    is neither a [phx_reply] nor a [phx_close], the message goes through
    the router.  Whatever it holds, no suspended subscribe command is
    resumed by it, and a frame that does not decode, a [phx_reply] and a
    [phx_close] leave the state as it is. *)
Theorem text_frame_only_notifies (s : State) (decoded : option wsmessage) :
  on_message (Text decoded) s
  = set_notifications (notifications s ++ text_routed decoded s) s.
Proof.
  assert (Hmain : main_listener (Text decoded) s
                  = set_notifications (notifications s ++ text_routed decoded s) s).
  { unfold main_listener, text_routed. cbn [JSON_parse].
    destruct decoded as [message|];
      [|now rewrite app_nil_r, set_notifications_same].
    destruct (String.eqb (m_event message) "phx_reply"); cbn [orb];
      [now rewrite app_nil_r, set_notifications_same|].
    destruct (String.eqb (m_event message) "phx_close");
      [now rewrite app_nil_r, set_notifications_same|].
    apply handleOpenSeaEvent_exact. }
  unfold on_message. cbv zeta.
  set (s0 := main_listener (Text decoded) s).
  rewrite (text_data_resolves_nothing decoded s0).
  rewrite (filter_all _ (awaiting s0)).
  - rewrite set_awaiting_same. cbn [fold_left]. exact Hmain.
  - intros p _. unfold ack_matches. cbn [data_event data_ref].
    now rewrite andb_false_r.
Qed.

(** ** Persistence *)

Lemma get_None_keys {V : Type} k (m : list (string * V)) :
  ~ In k (map fst m) -> JsMap.get k m = None.
Proof.
  induction m as [|[k' v] m IH]; simpl; intros H; auto.
  destruct (String.eqb_spec k k') as [->|_]; [tauto|auto].
Qed.

Lemma saved_subscriptions_keys s entries u l :
  In (u, l) (saved_subscriptions s entries) ->
  exists a, In (u, a) entries /\ l = deref a s /\ l <> [].
Proof.
  unfold saved_subscriptions. rewrite in_flat_map.
  intros ([u' a] & Hin & H). cbn [fst snd] in H.
  destruct (0 <? List.length (deref a s))%nat eqn:E; [|contradiction].
  destruct H as [H|[]]. inversion H; subst.
  exists a. repeat split; auto.
  intros E'. rewrite E' in E. discriminate.
Qed.

(** One entry per user, so looking a user up in what is written finds
    the user's array, if it is not empty. *)
Lemma saved_subscriptions_get s entries u :
  NoDup (map fst entries) ->
  JsMap.get u (saved_subscriptions s entries)
  = match JsMap.get u entries with
    | Some a => match deref a s with [] => None | l => Some l end
    | None => None
    end.
Proof.
  induction entries as [|[k a] entries IH]; intros Hnd; [reflexivity|].
  inversion Hnd as [|? ? Hnin Hnd']; subst.
  assert (Hk : JsMap.get k (saved_subscriptions s entries) = None).
  { apply get_None_keys. intros Hin. apply Hnin.
    apply in_map_iff in Hin as ([k' l] & E & Hin). cbn in E. subst k'.
    apply saved_subscriptions_keys in Hin as (a' & Hin & _).
    apply in_map_iff. now exists (k, a'). }
  cbn [saved_subscriptions flat_map fst snd JsMap.get].
  fold (saved_subscriptions s entries).
  destruct (deref a s) as [|x l] eqn:Ed; cbn [List.length Nat.ltb Nat.leb app].
  - destruct (String.eqb_spec u k) as [->|_]; rewrite ?Ed; auto.
  - cbn [JsMap.get]. destruct (String.eqb_spec u k) as [->|_]; rewrite ?Ed; auto.
Qed.

Lemma save_user_fold s entries : forall acc,
  fold_left (save_user s) entries acc
  = (fst acc ++ saved_subscriptions s entries,
     fold_left (fun a slug => JsSet.add slug a)
       (List.concat (map (fun entry => deref (snd entry) s) entries)) (snd acc)).
Proof.
  induction entries as [|[k a] entries IH]; intros [saved active].
  - cbn. now rewrite app_nil_r.
  - cbn [fold_left]. rewrite IH. unfold save_user.
    cbn [fst snd map List.concat saved_subscriptions flat_map].
    fold (saved_subscriptions s entries).
    rewrite fold_left_app.
    destruct (deref a s) as [|x l]; cbn [List.length Nat.ltb Nat.leb fst snd].
    + reflexivity.
    + now rewrite <- app_assoc.
Qed.

Lemma saveSubscriptions_file s :
  file (saveSubscriptions s)
  = Some {| fd_subscriptions := saved_subscriptions s (userSubscriptions s);
            fd_eventFilters :=
              filter (fun kv => (0 <? List.length (snd kv))%nat) (eventFilters s) |}.
Proof.
  unfold saveSubscriptions. cbv zeta.
  match goal with
  | |- context [if ?b then resubscribeToCollections ?t else _] =>
      destruct b; [destruct (resubscribe_frame t) as (_ & _ & _ & _ & -> & _)|]
  end; fields; rewrite save_user_fold; reflexivity.
Qed.

Lemma in_held_arrays s (entries : list (string * nat)) x :
  In x (List.concat (map (fun entry => deref (snd entry) s) entries))
  <-> exists u a, In (u, a) entries /\ In x (deref a s).
Proof.
  rewrite in_concat. split.
  - intros (l & [[u a] [<- Hin]]%in_map_iff & Hx). eauto.
  - intros (u & a & Hin & Hx). exists (deref a s). split; auto.
    apply in_map_iff. now exists (u, a).
Qed.

Lemma saveSubscriptions_active s x :
  In x (activeCollections (saveSubscriptions s))
  <-> In x (activeCollections s)
      \/ exists u a, In (u, a) (userSubscriptions s) /\ In x (deref a s).
Proof.
  unfold saveSubscriptions. cbv zeta.
  match goal with
  | |- context [if ?b then resubscribeToCollections ?t else _] =>
      destruct b; [destruct (resubscribe_frame t) as (_ & _ & -> & _)|]
  end; fields; rewrite save_user_fold; cbn [snd];
    rewrite add_all_In, in_held_arrays; tauto.
Qed.

Lemma held_entry s u x :
  NoDup (map fst (userSubscriptions s)) ->
  (exists a, In (u, a) (userSubscriptions s) /\ In x (deref a s))
  <-> In x (subs_of s u).
Proof.
  intros Hnd. unfold subs_of. split.
  - intros (a & Hin & Hx). now rewrite (in_get _ _ _ Hnd Hin).
  - destruct (JsMap.get u (userSubscriptions s)) as [a|] eqn:E; [|contradiction].
    intros Hx. exists a. split; auto. now apply get_in.
Qed.

(** X3.  [saveSubscriptions] never takes a collection out of the active
    set: in a reachable state, the active set after a save is the one
    before together with every collection that some user holds. *)
Theorem save_never_prunes_active (s : State) (x : string) :
  reachable s ->
  In x (activeCollections (saveSubscriptions s))
  <-> In x (activeCollections s) \/ exists u, In x (subs_of s u).
Proof.
  intros Hreach. apply reachable_store_inv in Hreach as (_ & Hnd & _).
  rewrite saveSubscriptions_active.
  split; (intros [H|H]; [now left|right]).
  - destruct H as (u & a & Hin & Hx). exists u.
    apply (held_entry s u x Hnd). eauto.
  - destruct H as (u & Hx). apply (held_entry s u x Hnd) in Hx as (a & ? & ?).
    eauto.
Qed.

Lemma save_never_prunes_active_witness :
  reachable cleared
  /\ subs_of cleared "U1" = []
  /\ In "azuki" (activeCollections (saveSubscriptions cleared)).
Proof.
  assert (Hreach : reachable cleared).
  { exists None, (reconnect_cycle ++ [ClearConfirm "U1"]).
    unfold cleared, two_connections, run. now rewrite fold_left_app. }
  split; [exact Hreach|]. split; [reflexivity|].
  apply (save_never_prunes_active cleared "azuki" Hreach).
  left. vm_compute. tauto.
Defined.

(** X4.  What [saveSubscriptions] writes, in a reachable state: for each
    user the array of subscriptions unless it is empty, and each stored
    filter unless it is empty. *)
Theorem saved_file_lists_registry (s : State) :
  reachable s ->
  exists data,
    file (saveSubscriptions s) = Some data
    /\ (forall u, JsMap.get u (fd_subscriptions data)
                  = match subs_of s u with [] => None | l => Some l end)
    /\ (forall u kinds, In (u, kinds) (fd_eventFilters data)
                        <-> In (u, kinds) (eventFilters s) /\ kinds <> []).
Proof.
  intros Hreach. apply reachable_store_inv in Hreach as (_ & Hnd & _).
  eexists. split; [apply saveSubscriptions_file|]. cbn [fd_subscriptions
    fd_eventFilters]. split.
  - intros u. rewrite (saved_subscriptions_get s _ u Hnd). unfold subs_of.
    destruct (JsMap.get u (userSubscriptions s)); reflexivity.
  - intros u kinds. rewrite filter_In. cbn [snd].
    destruct kinds; cbn; intuition congruence.
Qed.

Lemma saved_file_lists_registry_witness :
  reachable three_subscriptions
  /\ exists data,
       file (saveSubscriptions three_subscriptions) = Some data
       /\ JsMap.get "U1" (fd_subscriptions data)
          = Some ["azuki"; "doodles-official"; "moonbirds"].
Proof.
  assert (Hreach : reachable three_subscriptions)
    by (eexists None, _; reflexivity).
  split; [exact Hreach|].
  destruct (saved_file_lists_registry three_subscriptions Hreach)
    as (data & Hfile & Hsubs & _).
  exists data. split; [exact Hfile|]. rewrite Hsubs. reflexivity.
Defined.

(** What [loadSubscriptions] keeps of a user's entry in the file. *)
Lemma load_user_subs t k l :
  (forall u a, In (u, a) (userSubscriptions t) ->
               (a < List.length (arrays t))%nat) ->
  let t' := load_user t (k, l) in
  (forall u a, In (u, a) (userSubscriptions t') ->
               (a < List.length (arrays t'))%nat)
  /\ (forall u, subs_of t' u =
                if String.eqb u k
                then match filter isValidCollectionSlug l with
                     | [] => subs_of t u
                     | valid => valid
                     end
                else subs_of t u)
  /\ (forall x, In x (activeCollections t')
                <-> In x (activeCollections t)
                    \/ (In x l /\ isValidCollectionSlug x = true)).
Proof.
  intros Haddr. unfold load_user. cbn [fst snd].
  destruct (filter isValidCollectionSlug l) as [|y valid] eqn:Ev.
  - cbn. split; [assumption|]. split.
    + intros u. now destruct (String.eqb u k).
    + intros x. split; auto. intros [H|[H1 H2]]; auto.
      assert (Hin : In x (filter isValidCollectionSlug l))
        by (apply filter_In; auto).
      rewrite Ev in Hin. contradiction.
  - cbn [List.length Nat.ltb Nat.leb]. unfold alloc. fields. split; [|split].
    + intros u a [E|Hin]%set_In; rewrite length_app; cbn [List.length].
      * inversion E. lia.
      * apply Haddr in Hin. lia.
    + intros u. unfold subs_of, deref. fields. rewrite get_set.
      destruct (String.eqb_spec u k) as [->|Hne].
      * now rewrite nth_middle.
      * destruct (JsMap.get u (userSubscriptions t)) as [a|] eqn:E; auto.
        apply get_in, Haddr in E. now rewrite app_nth1.
    + intros x. rewrite add_all_In, <- Ev, filter_In. tauto.
Qed.

Lemma load_users_subs entries : forall t,
  NoDup (map fst entries) ->
  (forall u a, In (u, a) (userSubscriptions t) ->
               (a < List.length (arrays t))%nat) ->
  let t' := fold_left load_user entries t in
  (forall u, subs_of t' u =
             match JsMap.get u entries with
             | Some l => match filter isValidCollectionSlug l with
                         | [] => subs_of t u
                         | valid => valid
                         end
             | None => subs_of t u
             end)
  /\ (forall x, In x (activeCollections t')
                <-> In x (activeCollections t)
                    \/ exists u l, In (u, l) entries /\ In x l
                                   /\ isValidCollectionSlug x = true).
Proof.
  induction entries as [|[k l] entries IH]; intros t Hnd Haddr.
  - cbn. split; auto. intros x. split; auto. intros [H|(? & ? & [] & _)]; auto.
  - inversion Hnd as [|? ? Hnin Hnd']; subst.
    destruct (load_user_subs t k l Haddr) as (Haddr1 & Hsubs1 & Hact1).
    destruct (IH (load_user t (k, l)) Hnd' Haddr1) as (Hsubs & Hact).
    cbn [fold_left]. cbv zeta. split.
    + intros u. rewrite Hsubs, Hsubs1. cbn [JsMap.get].
      destruct (String.eqb_spec u k) as [->|Hne]; auto.
      now rewrite (get_None_keys k entries Hnin).
    + intros x. rewrite Hact, Hact1. split.
      * intros [[H|[H1 H2]]|(u & l' & H1 & H2)]; auto.
        -- right. exists k, l. split; [now left|auto].
        -- right. exists u, l'. split; [now right|auto].
      * intros [H|(u & l' & [E|H1] & H2)]; auto.
        -- inversion E; subst. auto.
        -- right. eauto.
Qed.

Lemma load_filters_frame entries : forall t,
  let t' := fold_left load_filters entries t in
  userSubscriptions t' = userSubscriptions t /\ arrays t' = arrays t
  /\ activeCollections t' = activeCollections t /\ ws t' = ws t.
Proof.
  induction entries as [|entry entries IH]; intros t; [cbn; auto|].
  cbn [fold_left]. cbv zeta.
  destruct (IH (load_filters t entry)) as (-> & -> & -> & ->).
  unfold load_filters. destruct (0 <? _)%nat; fields; auto.
Qed.

Lemma loadSubscriptions_subs (s : State) (data : FileData) :
  file s = Some data ->
  NoDup (map fst (fd_subscriptions data)) ->
  let s' := loadSubscriptions s in
  (forall u, subs_of s' u =
             filter isValidCollectionSlug
               match JsMap.get u (fd_subscriptions data) with
               | Some l => l
               | None => []
               end)
  /\ (forall x, In x (activeCollections s') <-> exists u, In x (subs_of s' u)).
Proof.
  intros Hfile Hnd. unfold loadSubscriptions. rewrite Hfile. cbv zeta.
  set (t0 := set_subscriptionRefs [] _).
  set (t1 := fold_left load_user (fd_subscriptions data) t0).
  set (t2 := fold_left load_filters (fd_eventFilters data) t1).
  assert (Haddr0 : forall u a, In (u, a) (userSubscriptions t0) ->
                               (a < List.length (arrays t0))%nat)
    by (intros u a []).
  destruct (load_users_subs (fd_subscriptions data) t0 Hnd Haddr0)
    as (Hsubs & Hact). fold t1 in Hsubs, Hact.
  destruct (load_filters_frame (fd_eventFilters data) t1)
    as (Hu & Ha & Hc & _). fold t2 in Hu, Ha, Hc.
  assert (Hsubs2 : forall u, subs_of t2 u =
                     filter isValidCollectionSlug
                       match JsMap.get u (fd_subscriptions data) with
                       | Some l => l
                       | None => []
                       end).
  { intros u.
    assert (E : subs_of t2 u = subs_of t1 u)
      by (unfold subs_of, deref; now rewrite Hu, Ha).
    rewrite E, Hsubs.
    destruct (JsMap.get u (fd_subscriptions data)) as [l|]; [|reflexivity].
    now destruct (filter isValidCollectionSlug l). }
  assert (Hact2 : forall x, In x (activeCollections t2)
                            <-> exists u, In x (subs_of t2 u)).
  { intros x. rewrite Hc, Hact. subst t0. fields. split.
    - intros [[]|(u & l & Hin & Hx & Hv)]. exists u. rewrite Hsubs2.
      rewrite (in_get _ _ _ Hnd Hin). apply filter_In. auto.
    - intros (u & Hx). rewrite Hsubs2 in Hx. right.
      destruct (JsMap.get u (fd_subscriptions data)) as [l|] eqn:E;
        [|contradiction].
      apply filter_In in Hx as [Hx Hv]. exists u, l.
      split; [now apply get_in|auto]. }
  destruct (ws_is_open t2); [|split; assumption].
  destruct (resubscribe_frame t2) as (Hu' & Ha' & Hc' & _).
  cbv zeta in Hu', Ha', Hc'.
  assert (E : forall u, subs_of (resubscribeToCollections t2) u = subs_of t2 u).
  { intros u. unfold subs_of, deref. now rewrite Hu', Ha'. }
  split.
  - intros u. now rewrite E.
  - intros x. rewrite Hc', Hact2. split; intros (u & Hx); exists u;
      [now rewrite E|now rewrite <- E].
Qed.

(** X5.  [loadSubscriptions] next to a file with one entry per user:
    afterwards a user's subscriptions are the well-formed slugs of the
    user's entry in the file, whatever was in memory, and the active set is
    exactly what some user holds. *)
Theorem load_keeps_valid_slugs (s : State) (data : FileData) :
  file s = Some data ->
  NoDup (map fst (fd_subscriptions data)) ->
  let s' := loadSubscriptions s in
  (forall u, subs_of s' u =
             filter isValidCollectionSlug
               match JsMap.get u (fd_subscriptions data) with
               | Some l => l
               | None => []
               end)
  /\ (forall x, In x (activeCollections s') <-> exists u, In x (subs_of s' u)).
Proof. apply loadSubscriptions_subs. Qed.

Lemma load_keeps_valid_slugs_witness :
  file (init (Some file_with_bad_slug)) = Some file_with_bad_slug
  /\ subs_of (loadSubscriptions (init (Some file_with_bad_slug))) "U1"
     = ["azuki"; "doodles"].
Proof.
  split; [reflexivity|].
  destruct (load_keeps_valid_slugs (init (Some file_with_bad_slug))
              file_with_bad_slug) as [Hsubs _].
  - reflexivity.
  - repeat constructor. simpl. tauto.
  - rewrite Hsubs. reflexivity.
Defined.

(** ** Keeping an invariant *)

Lemma keeps_refl inv s : keeps inv s s.
Proof. unfold keeps. auto. Qed.

Lemma keeps_trans inv s t u : keeps inv s t -> keeps inv t u -> keeps inv s u.
Proof. unfold keeps. auto. Qed.

Lemma keeps_fold {A : Type} inv (f : State -> A -> State) (l : list A) :
  (forall s x, In x l -> keeps inv s (f s x)) ->
  forall s, keeps inv s (fold_left f l s).
Proof.
  induction l as [|x l IH]; intros Hf s; cbn [fold_left].
  - apply keeps_refl.
  - eapply keeps_trans; [apply Hf; now left|].
    apply IH. intros t y Hy. apply Hf. now right.
Qed.

(** A handler is taken apart from the outside: a call or an update that
    is known to keep the invariant, an update of a field the invariant
    does not read ([same] says which those are), or a branch. *)
Ltac peel_by same finish :=
  match goal with
  | |- keeps _ ?s ?s => apply keeps_refl
  | |- keeps ?inv ?s (set_nextTimer _ (set_timers (timers ?t ++ _) ?t)) =>
      apply (keeps_trans inv s t); [|solve [finish]]
  | |- keeps ?inv ?s (snd (ws_send _ ?t)) =>
      apply (keeps_trans inv s t); [|solve [finish]]
  | |- keeps ?inv ?s (?f ?t) =>
      first [ apply (keeps_trans inv s t); [|solve [finish]]
            | is_setter f; apply (same s t); [fields; reflexivity ..|] ]
  | |- keeps _ _ ?rhs =>
      match rhs with
      | context [match ?x with _ => _ end] => destruct x eqn:?
      end
  end.

(** An implication between two instances of an invariant, read as a
    transition that keeps it. *)
Ltac as_keeps :=
  match goal with
  | |- ?inv ?s -> ?inv ?t => change (keeps inv s t)
  end.

(** ** Well-formed slugs everywhere *)

Create HintDb slugs.

Lemma slugs_same s t t' :
  arrays t' = arrays t -> activeCollections t' = activeCollections t ->
  timers t' = timers t -> awaiting t' = awaiting t -> sent t' = sent t ->
  keeps slugs_inv s t -> keeps slugs_inv s t'.
Proof. unfold keeps, slugs_inv. intros -> -> -> -> ->. auto. Qed.

Ltac peel_slugs := peel_by slugs_same ltac:(auto with slugs).

Lemma well_formed_filter (f : string -> bool) l :
  well_formed l -> well_formed (filter f l).
Proof.
  unfold well_formed. rewrite !Forall_forall.
  intros H x [Hx _]%filter_In. auto.
Qed.

Lemma well_formed_deref a s :
  Forall well_formed (arrays s) -> well_formed (deref a s).
Proof.
  intros H. unfold deref.
  destruct (nth_in_or_default a (arrays s) []) as [Hin|E]; [|rewrite E; constructor].
  rewrite Forall_forall in H. auto.
Qed.

Lemma well_formed_subs_of s u :
  Forall well_formed (arrays s) -> well_formed (subs_of s u).
Proof.
  intros H. unfold subs_of.
  destruct (JsMap.get u (userSubscriptions s)); [|constructor].
  now apply well_formed_deref.
Qed.

Lemma well_formed_add x l :
  isValidCollectionSlug x = true -> well_formed l -> well_formed (JsSet.add x l).
Proof.
  unfold well_formed. rewrite !Forall_forall.
  intros Hx H y [->|Hy]%add_In; auto.
Qed.

Lemma well_formed_add_all l acc :
  well_formed l -> well_formed acc ->
  well_formed (fold_left (fun a slug => JsSet.add slug a) l acc).
Proof.
  unfold well_formed. rewrite !Forall_forall.
  intros Hl Hacc y [Hy|Hy]%add_all_In; auto.
Qed.

Lemma Forall_update_nth {A : Type} (P : A -> Prop) n (f : A -> A) l :
  (forall x, P x -> P (f x)) -> Forall P l -> Forall P (update_nth n f l).
Proof.
  intros Hf H. revert n.
  induction H as [|x l Hx Hl IH]; intros [|n]; cbn; constructor; auto.
Qed.

Lemma slugs_say userId r s : keeps slugs_inv s (say userId r s).
Proof. unfold say. repeat peel_slugs. Qed.

Lemma slugs_ws_terminate s : keeps slugs_inv s (ws_terminate s).
Proof. unfold ws_terminate. repeat peel_slugs. Qed.

Lemma slugs_clearTimer handle s : keeps slugs_inv s (clearTimer handle s).
Proof.
  unfold clearTimer. destruct handle as [id|]; [|apply keeps_refl].
  unfold keeps, slugs_inv. fields. intros (Ha & Hc & Ht & Hp & Hs).
  repeat split; auto.
  rewrite Forall_forall in *. intros t [Hin _]%cancel_In. auto.
Qed.

Lemma slugs_alloc l s :
  well_formed l -> keeps slugs_inv s (set_arrays (arrays s ++ [l]) s).
Proof.
  intros Hl. unfold keeps, slugs_inv. fields. intros (Ha & Hc & Ht & Hp & Hs).
  repeat split; auto. apply Forall_app. split; auto.
Qed.

Lemma slugs_push a x s :
  isValidCollectionSlug x = true -> keeps slugs_inv s (push a x s).
Proof.
  intros Hx. unfold push, keeps, slugs_inv. fields.
  intros (Ha & Hc & Ht & Hp & Hs). repeat split; auto.
  apply Forall_update_nth; auto.
  intros l Hl. apply Forall_app. split; auto.
Qed.

Lemma slugs_arm delay action s :
  action_wf action ->
  keeps slugs_inv s
    (set_nextTimer (S (nextTimer s))
       (set_timers (timers s ++ [{| t_id := nextTimer s; t_due := now s + delay;
                                    t_action := action |}]) s)).
Proof.
  intros Hact. unfold keeps, slugs_inv. fields.
  intros (Ha & Hc & Ht & Hp & Hs). repeat split; auto.
  apply Forall_app. split; auto.
Qed.

Lemma slugs_send f s : frame_wf f -> keeps slugs_inv s (snd (ws_send f s)).
Proof.
  intros Hf. destruct (ws_send_cases f s) as [E|[E|E]]; rewrite E; cbn [snd];
    try apply keeps_refl.
  unfold keeps, slugs_inv. fields. intros (Ha & Hc & Ht & Hp & Hs).
  repeat split; auto. apply Forall_app. split; auto.
Qed.

Lemma slugs_active v s :
  (slugs_inv s -> well_formed v) ->
  keeps slugs_inv s (set_activeCollections v s).
Proof.
  intros Hv Hinv. specialize (Hv Hinv). revert Hinv.
  unfold slugs_inv. fields. intros (Ha & Hc & Ht & Hp & Hs). repeat split; auto.
Qed.

Lemma slugs_drop (keep : pending -> bool) s :
  keeps slugs_inv s (set_awaiting (filter keep (awaiting s)) s).
Proof.
  unfold keeps, slugs_inv. fields. intros (Ha & Hc & Ht & Hp & Hs).
  repeat split; auto.
  rewrite Forall_forall in *. intros p [Hin _]%filter_In. auto.
Qed.

#[local] Hint Extern 0 (keeps slugs_inv _ (say _ _ _)) =>
  simple apply slugs_say : slugs.
#[local] Hint Extern 0 (keeps slugs_inv _ (ws_terminate _)) =>
  simple apply slugs_ws_terminate : slugs.
#[local] Hint Extern 0 (keeps slugs_inv _ (clearTimer _ _)) =>
  simple apply slugs_clearTimer : slugs.
#[local] Hint Extern 0 (keeps slugs_inv _ (set_awaiting (filter _ _) _)) =>
  simple apply slugs_drop : slugs.
#[local] Hint Extern 1 (keeps slugs_inv _ (set_nextTimer _ (set_timers _ _))) =>
  simple apply slugs_arm; exact I : slugs.
#[local] Hint Extern 1 (keeps slugs_inv _ (set_arrays (arrays _ ++ [ [] ]) _)) =>
  simple apply slugs_alloc; constructor : slugs.
#[local] Hint Extern 1 (keeps slugs_inv _ (set_activeCollections [] _)) =>
  simple apply slugs_active; constructor : slugs.

Lemma slugs_subscribeNext collections index s :
  well_formed collections ->
  keeps slugs_inv s (subscribeNext collections index s).
Proof.
  intros Hc. unfold subscribeNext.
  destruct (nth_error collections index) as [slug|] eqn:E; [|apply keeps_refl].
  assert (Hslug : isValidCollectionSlug slug = true).
  { apply nth_error_In in E. unfold well_formed in Hc.
    rewrite Forall_forall in Hc. auto. }
  unfold setTimeout. cbn [fst snd].
  eapply keeps_trans; [|now apply slugs_arm].
  eapply keeps_trans; [|apply slugs_send; right; eauto].
  repeat peel_slugs.
Qed.

Lemma slugs_resubscribe s : keeps slugs_inv s (resubscribeToCollections s).
Proof.
  unfold resubscribeToCollections.
  destruct (negb (isWsConnected s) || negb (ws_is_open s)); [apply keeps_refl|].
  intros Hinv. apply slugs_subscribeNext.
  - fields. apply Hinv.
  - revert Hinv. change (keeps slugs_inv s (set_subscriptionRefs [] s)).
    repeat peel_slugs.
Qed.
#[local] Hint Extern 0 (keeps slugs_inv _ (resubscribeToCollections _)) =>
  simple apply slugs_resubscribe : slugs.

Lemma slugs_load_user s entry : keeps slugs_inv s (load_user s entry).
Proof.
  unfold load_user. destruct (0 <? _)%nat; [|apply keeps_refl].
  unfold alloc. cbn [fst snd].
  apply (keeps_trans _ _
           (set_arrays (arrays s ++ [filter isValidCollectionSlug (snd entry)]) s)).
  - apply slugs_alloc. unfold well_formed. rewrite Forall_forall.
    now intros x [_ Hx]%filter_In.
  - match goal with
    | |- keeps _ ?t (set_activeCollections ?v ?u) =>
        apply (keeps_trans _ t u); [repeat peel_slugs|]
    end.
    apply slugs_active. intros (_ & Hc & _). fields_in Hc. fields.
    apply well_formed_add_all; auto.
    unfold well_formed. rewrite Forall_forall. now intros x [_ Hx]%filter_In.
Qed.

Lemma slugs_load_filters s entry : keeps slugs_inv s (load_filters s entry).
Proof. unfold load_filters. repeat peel_slugs. Qed.

Lemma slugs_loadSubscriptions s : keeps slugs_inv s (loadSubscriptions s).
Proof.
  unfold loadSubscriptions. destruct (file s) as [data|]; [|apply keeps_refl].
  cbv zeta.
  match goal with
  | |- keeps _ _ (if _ then resubscribeToCollections ?t else _) =>
      assert (H : keeps slugs_inv s t)
  end.
  { eapply keeps_trans;
      [|apply keeps_fold; intros; apply slugs_load_filters].
    eapply keeps_trans;
      [|apply keeps_fold; intros; apply slugs_load_user].
    repeat peel_slugs. }
  destruct (ws_is_open _); auto.
  eapply keeps_trans; [exact H|apply slugs_resubscribe].
Qed.
#[local] Hint Extern 0 (keeps slugs_inv _ (loadSubscriptions _)) =>
  simple apply slugs_loadSubscriptions : slugs.

Lemma slugs_saveSubscriptions s : keeps slugs_inv s (saveSubscriptions s).
Proof.
  unfold saveSubscriptions. cbv zeta.
  match goal with
  | |- keeps _ _ (if _ then resubscribeToCollections ?t else _) =>
      assert (H : keeps slugs_inv s t)
  end.
  { match goal with
    | |- keeps _ _ (set_file _ ?t) =>
        apply (slugs_same s t); [fields; reflexivity ..|]
    end.
    apply slugs_active. intros (Ha & Hc & _).
    unfold well_formed. rewrite Forall_forall.
    intros x [Hx|(u & a & _ & Hx)]%save_user_active.
    - unfold well_formed in Hc. rewrite Forall_forall in Hc. auto.
    - pose proof (well_formed_deref a s Ha) as Hd.
      unfold well_formed in Hd. rewrite Forall_forall in Hd. auto. }
  destruct (ws_is_open _); auto.
  eapply keeps_trans; [exact H|apply slugs_resubscribe].
Qed.
#[local] Hint Extern 0 (keeps slugs_inv _ (saveSubscriptions _)) =>
  simple apply slugs_saveSubscriptions : slugs.

Lemma slugs_reconnect s : keeps slugs_inv s (reconnect s).
Proof. unfold reconnect, setTimeout. cbn [fst snd]. repeat peel_slugs. Qed.
#[local] Hint Extern 0 (keeps slugs_inv _ (reconnect _)) =>
  simple apply slugs_reconnect : slugs.

Lemma slugs_connectToOpenSea s : keeps slugs_inv s (connectToOpenSea s).
Proof. unfold connectToOpenSea, setTimeout. cbn [fst snd]. repeat peel_slugs. Qed.
#[local] Hint Extern 0 (keeps slugs_inv _ (connectToOpenSea _)) =>
  simple apply slugs_connectToOpenSea : slugs.

Lemma slugs_on_open s : keeps slugs_inv s (on_open s).
Proof. unfold on_open, setTimeout. cbn [fst snd]. repeat peel_slugs. Qed.

Lemma slugs_on_error s : keeps slugs_inv s (on_error s).
Proof. unfold on_error. repeat peel_slugs. Qed.

Lemma slugs_on_close s : keeps slugs_inv s (on_close s).
Proof. unfold on_close. repeat peel_slugs. Qed.

Lemma slugs_main_listener data s : keeps slugs_inv s (main_listener data s).
Proof.
  unfold main_listener. repeat peel_slugs.
  rewrite handleOpenSeaEvent_exact. repeat peel_slugs.
Qed.

Lemma slugs_resume_subscribe s p :
  isValidCollectionSlug (p_slug p) = true ->
  keeps slugs_inv s (resume_subscribe s p).
Proof.
  intros Hp. unfold resume_subscribe.
  do 2 peel_slugs.
  match goal with
  | |- keeps _ ?s (set_userSubscriptions _ ?t) =>
      apply (slugs_same s t); [fields; reflexivity ..|]
  end.
  now apply slugs_push.
Qed.

Lemma slugs_on_message data s : keeps slugs_inv s (on_message data s).
Proof.
  intros Hinv. unfold on_message. cbv zeta.
  set (s0 := main_listener data s).
  assert (H0 : slugs_inv s0) by now apply slugs_main_listener.
  assert (Hres : Forall (fun p => isValidCollectionSlug (p_slug p) = true)
                   (filter (ack_matches data s0) (awaiting s0))).
  { destruct H0 as (_ & _ & _ & Hp & _). rewrite Forall_forall in *.
    intros p [Hin _]%filter_In. auto. }
  revert H0. apply keeps_trans with (t := set_awaiting
    (filter (fun p => negb (ack_matches data s0 p)) (awaiting s0)) s0);
    [apply slugs_drop|].
  match goal with
  | |- keeps _ _ (fold_left _ _ ?t) => apply (keeps_trans _ _ t)
  end.
  - apply keeps_fold. intros t p _. apply slugs_clearTimer.
  - apply keeps_fold. intros t p Hin. apply slugs_resume_subscribe.
    rewrite Forall_forall in Hres. auto.
Qed.

Lemma slugs_ack_timeout ref s : keeps slugs_inv s (ack_timeout ref s).
Proof. unfold ack_timeout. repeat peel_slugs. Qed.

Lemma slugs_subscriptions_array userId s :
  keeps slugs_inv s (snd (subscriptions_array userId s)).
Proof.
  unfold subscriptions_array, alloc.
  destruct (JsMap.get userId (userSubscriptions s)); cbn [snd]; repeat peel_slugs.
Qed.

Lemma slugs_suspend p s :
  isValidCollectionSlug (p_slug p) = true ->
  keeps slugs_inv s (set_awaiting (awaiting s ++ [p]) s).
Proof.
  intros Hp. unfold keeps, slugs_inv. fields.
  intros (Ha & Hc & Ht & Hw & Hs). repeat split; auto.
  apply Forall_app. split; auto.
Qed.

Lemma slugs_add_active x s :
  isValidCollectionSlug x = true ->
  keeps slugs_inv s (set_activeCollections (JsSet.add x (activeCollections s)) s).
Proof.
  intros Hx. apply slugs_active. intros (_ & Hc & _).
  now apply well_formed_add.
Qed.

Lemma slugs_cmd_subscribe userId args s :
  keeps slugs_inv s (cmd_subscribe userId args s).
Proof.
  unfold cmd_subscribe.
  destruct args as [|slug eventArgs]; [repeat peel_slugs|].
  destruct (String.length slug =? 0)%nat; [repeat peel_slugs|].
  destruct (isValidCollectionSlug slug) eqn:Hslug; cbn [negb];
    [|repeat peel_slugs].
  destruct (requested_events eventArgs) as [userEvents|e]; [|repeat peel_slugs].
  generalize (slugs_subscriptions_array userId s).
  destruct (subscriptions_array userId s) as [a s0]. cbn [snd]. intros H0.
  apply (keeps_trans _ _ _ _ H0).
  destruct (3 <=? _)%nat; [repeat peel_slugs|].
  destruct (includes _ _); [repeat peel_slugs|].
  cbv zeta.
  set (s1 := set_activeCollections _ _).
  assert (H1 : keeps slugs_inv s0 s1).
  { subst s1.
    match goal with
    | |- keeps _ _ (set_activeCollections _ ?t) =>
        apply (keeps_trans _ _ t); [repeat peel_slugs|]
    end.
    now apply (slugs_add_active slug). }
  apply (keeps_trans _ _ _ _ H1).
  destruct (ws_is_open s1).
  - generalize (slugs_send (join_frame slug (currentRef s0 + 1)) s1).
    change (currentRef s1) with (currentRef s0 + 1).
    destruct (ws_send _ s1) as [threw s2]. cbn [snd]. intros Hs.
    apply (keeps_trans _ _ s2); [apply Hs; right; eauto|].
    destruct threw; [repeat peel_slugs|].
    unfold setTimeout. cbn [fst snd]. fields.
    match goal with
    | |- keeps _ _ (set_awaiting (_ ++ [?p]) ?t) =>
        apply (keeps_trans _ _ t); [repeat peel_slugs|];
        apply (slugs_suspend p t); exact Hslug
    end.
  - do 2 peel_slugs.
    match goal with
    | |- keeps _ _ (set_activeCollections _ ?t) =>
        apply (keeps_trans _ _ t); [|now apply (slugs_add_active slug)]
    end.
    match goal with
    | |- keeps _ _ (set_userSubscriptions _ ?t) =>
        apply (slugs_same _ t); [fields; reflexivity ..|]
    end.
    match goal with
    | |- keeps _ _ (push _ _ ?t) =>
        apply (keeps_trans _ _ t); [repeat peel_slugs|now apply slugs_push]
    end.
Qed.

Lemma slugs_unsubscribe_done userId s :
  keeps slugs_inv s (unsubscribe_done userId s).
Proof. unfold unsubscribe_done. repeat peel_slugs. Qed.
#[local] Hint Extern 0 (keeps slugs_inv _ (unsubscribe_done _ _)) =>
  simple apply slugs_unsubscribe_done : slugs.

(** Replacing a user's array by one without a slug. *)
Lemma slugs_replace userId x s :
  keeps slugs_inv s
    (set_userSubscriptions
       (JsMap.set userId (List.length (arrays s)) (userSubscriptions s))
       (set_arrays (arrays s ++ [without x (subs_of s userId)]) s)).
Proof.
  intros Hinv.
  assert (Hl : well_formed (without x (subs_of s userId))).
  { apply well_formed_filter, well_formed_subs_of, Hinv. }
  revert Hinv.
  match goal with
  | |- slugs_inv _ -> slugs_inv (set_userSubscriptions _ ?t) =>
      apply (slugs_same s t); [fields; reflexivity ..|]
  end.
  now apply slugs_alloc.
Qed.

Lemma slugs_cmd_unsubscribe userId args s :
  keeps slugs_inv s (cmd_unsubscribe userId args s).
Proof.
  unfold cmd_unsubscribe.
  destruct args as [|slug rest]; [repeat peel_slugs|].
  destruct (String.length slug =? 0)%nat; [repeat peel_slugs|].
  destruct (isValidCollectionSlug slug) eqn:Hslug; cbn [negb];
    [|repeat peel_slugs].
  destruct (negb (includes _ _)); [repeat peel_slugs|].
  unfold alloc. cbn [fst snd].
  eapply keeps_trans; [apply (slugs_replace userId slug)|].
  set (s1 := set_userSubscriptions _ _).
  destruct (still_subscribed _ _); [repeat peel_slugs|].
  cbv zeta.
  set (s2 := set_activeCollections _ s1).
  assert (H2 : keeps slugs_inv s1 s2).
  { apply slugs_active. intros (_ & Hc & _).
    now apply well_formed_filter. }
  apply (keeps_trans _ _ _ _ H2).
  destruct (ws_is_open s2); [|repeat peel_slugs].
  destruct (JsMap.get slug _) as [ref|]; [|repeat peel_slugs].
  destruct (ref =? 0); [repeat peel_slugs|].
  generalize (slugs_send (leave_frame slug ref) s2).
  destruct (ws_send _ s2) as [threw s3]. cbn [snd]. intros Hs.
  apply (keeps_trans _ _ s3); [apply Hs; right; eauto|].
  destruct threw; repeat peel_slugs.
Qed.

Lemma slugs_clear_confirm userId s : keeps slugs_inv s (clear_confirm userId s).
Proof. unfold clear_confirm. repeat peel_slugs. Qed.

Lemma slugs_remove_collection userId slug s :
  keeps slugs_inv s (remove_collection userId slug s).
Proof.
  unfold remove_collection, alloc. cbn [fst snd].
  do 2 peel_slugs. fields. apply slugs_replace.
Qed.

Lemma slugs_event_filters_menu userId values s :
  keeps slugs_inv s (event_filters_menu userId values s).
Proof. unfold event_filters_menu. repeat peel_slugs. Qed.

Lemma slugs_filter_button userId subAction s :
  keeps slugs_inv s (filter_button userId subAction s).
Proof. unfold filter_button. repeat peel_slugs. Qed.

Lemma slugs_add_collection_modal userId slug s :
  keeps slugs_inv s (add_collection_modal userId slug s).
Proof.
  unfold add_collection_modal.
  destruct (isValidCollectionSlug slug) eqn:Hslug; cbn [negb];
    [|repeat peel_slugs].
  generalize (slugs_subscriptions_array userId s).
  destruct (subscriptions_array userId s) as [a s0]. cbn [snd]. intros H0.
  apply (keeps_trans _ _ _ _ H0).
  destruct (3 <=? _)%nat; [repeat peel_slugs|].
  destruct (includes _ _); [repeat peel_slugs|].
  do 2 peel_slugs.
  match goal with
  | |- keeps _ _ (set_userSubscriptions _ ?t) =>
      apply (slugs_same _ t); [fields; reflexivity ..|]
  end.
  now apply slugs_push.
Qed.

Lemma slugs_run_timer action s :
  action_wf action -> keeps slugs_inv s (run_timer action s).
Proof.
  intros Hact. destruct action; cbn [run_timer].
  - destruct (ws s) as [[]|]; repeat peel_slugs.
  - apply slugs_send. now left.
  - destruct (isWsConnected s && ws_is_open s); [|apply keeps_refl].
    generalize (slugs_send heartbeat_frame s).
    destruct (ws_send heartbeat_frame s) as [threw s1]. cbn [snd]. intros H.
    specialize (H (or_introl eq_refl)).
    destruct threw; auto.
    eapply keeps_trans; [exact H|apply slugs_reconnect].
  - repeat peel_slugs.
  - now apply slugs_subscribeNext.
  - apply slugs_connectToOpenSea.
  - repeat peel_slugs.
  - apply slugs_ack_timeout.
Qed.

Lemma slugs_fire id s : keeps slugs_inv s (fire id s).
Proof.
  unfold fire.
  destruct (find _ (timers s)) as [t|] eqn:Ef; [|apply keeps_refl].
  destruct (t_due t <=? now s); [|apply keeps_refl].
  apply find_timer in Ef as [Hin _].
  intros Hinv.
  assert (Hact : action_wf (t_action t)).
  { destruct Hinv as (_ & _ & Ht & _). rewrite Forall_forall in Ht. auto. }
  apply slugs_run_timer; [exact Hact|].
  revert Hinv. unfold slugs_inv. fields. intros (Ha & Hc & Ht & Hp & Hs).
  repeat split; auto.
  apply Forall_app. split.
  - rewrite Forall_forall in *. intros t' [Ht' _]%cancel_In. auto.
  - destruct (period (t_action t)); repeat constructor. exact Hact.
Qed.

Lemma slugs_on_ready s : keeps slugs_inv s (on_ready s).
Proof. unfold on_ready, setTimeout. cbn [fst snd]. repeat peel_slugs. Qed.

Lemma slugs_step e s : keeps slugs_inv s (step e s).
Proof.
  destruct e; cbn [step].
  - apply slugs_on_ready.
  - repeat peel_slugs.
  - apply slugs_fire.
  - repeat peel_slugs.
  - destruct (ws s) as [[]|]; try apply keeps_refl.
    eapply keeps_trans; [|apply slugs_on_open]. repeat peel_slugs.
  - destruct (ws s) as [[]|]; try apply keeps_refl;
      (eapply keeps_trans; [|apply slugs_on_error]); repeat peel_slugs.
  - destruct (ws s) as [[]|]; try apply keeps_refl;
      (eapply keeps_trans; [|apply slugs_on_close]); repeat peel_slugs.
  - destruct (ws s) as [[]|]; try apply keeps_refl; apply slugs_on_message.
  - apply slugs_cmd_subscribe.
  - apply slugs_cmd_unsubscribe.
  - apply slugs_clear_confirm.
  - apply slugs_remove_collection.
  - apply slugs_event_filters_menu.
  - apply slugs_filter_button.
  - apply slugs_add_collection_modal.
Qed.

Lemma reachable_slugs_inv s : reachable s -> slugs_inv s.
Proof.
  intros (f & trace & ->). unfold run.
  apply (keeps_fold slugs_inv (fun s e => step e s)).
  - intros t e _. apply slugs_step.
  - unfold slugs_inv. cbn. repeat split; constructor.
Qed.

(** X6.  Whatever [subscriptions.json] holds and whatever users type,
    every slug the process works with has passed [isValidCollectionSlug]:
    in every reachable state the subscriptions of every user and the
    active set hold well-formed slugs only, and every frame that was sent
    is the heartbeat or a join or leave on the topic of a well-formed
    slug. *)
Theorem only_well_formed_slugs (s : State) :
  reachable s ->
  (forall u slug, In slug (subs_of s u) -> isValidCollectionSlug slug = true)
  /\ (forall slug, In slug (activeCollections s) ->
                   isValidCollectionSlug slug = true)
  /\ (forall sf, In sf (sent s) -> frame_wf (frame_of sf)).
Proof.
  intros (Ha & Hc & _ & _ & Hs)%reachable_slugs_inv. split; [|split].
  - intros u. apply Forall_forall. now apply well_formed_subs_of.
  - now apply Forall_forall.
  - now apply Forall_forall.
Qed.

Lemma only_well_formed_slugs_witness :
  reachable started_with_bad_slug
  /\ subs_of started_with_bad_slug "U1" = ["azuki"; "doodles"]
  /\ forall slug, In slug (subs_of started_with_bad_slug "U1") ->
                  isValidCollectionSlug slug = true.
Proof.
  assert (H : reachable started_with_bad_slug)
    by (exists (Some file_with_bad_slug), [Ready]; reflexivity).
  split; [exact H|]. split; [reflexivity|].
  apply (only_well_formed_slugs _ H).
Defined.

Lemma saved_subscriptions_NoDup s entries :
  NoDup (map fst entries) -> NoDup (map fst (saved_subscriptions s entries)).
Proof.
  induction entries as [|[k a] entries IH]; intros Hnd; [constructor|].
  inversion Hnd as [|? ? Hnin Hnd']; subst.
  cbn [saved_subscriptions flat_map fst snd].
  fold (saved_subscriptions s entries).
  destruct (0 <? _)%nat; cbn [app map fst]; auto.
  constructor; auto.
  intros ([k' l] & E & Hin)%in_map_iff. cbn in E. subst k'.
  apply saved_subscriptions_keys in Hin as (a' & Hin & _).
  apply Hnin, in_map_iff. now exists (k, a').
Qed.

(** X7.  What [saveSubscriptions] writes is what [loadSubscriptions]
    reads back: in a reachable state, saving and loading again leaves
    every user with the same subscriptions, in the same order. *)
Theorem save_then_load_round_trip (s : State) (u : string) :
  reachable s ->
  subs_of (loadSubscriptions (saveSubscriptions s)) u = subs_of s u.
Proof.
  intros Hreach.
  pose proof (reachable_store_inv s Hreach) as (_ & Hnd & _).
  pose proof (reachable_slugs_inv s Hreach) as (Ha & _).
  destruct (loadSubscriptions_subs (saveSubscriptions s) _
              (saveSubscriptions_file s)) as [Hsubs _].
  { now apply saved_subscriptions_NoDup. }
  rewrite Hsubs. cbn [fd_subscriptions].
  rewrite (saved_subscriptions_get s _ u Hnd).
  assert (Hv : filter isValidCollectionSlug (subs_of s u) = subs_of s u).
  { apply filter_all. apply Forall_forall. now apply well_formed_subs_of. }
  unfold subs_of in *.
  destruct (JsMap.get u (userSubscriptions s)) as [a|]; [|reflexivity].
  destruct (deref a s); [reflexivity|exact Hv].
Qed.

Lemma save_then_load_round_trip_witness :
  reachable three_subscriptions
  /\ subs_of (loadSubscriptions (saveSubscriptions three_subscriptions)) "U1"
     = ["azuki"; "doodles-official"; "moonbirds"].
Proof.
  assert (Hreach : reachable three_subscriptions)
    by (eexists None, _; reflexivity).
  split; [exact Hreach|].
  now rewrite (save_then_load_round_trip three_subscriptions "U1" Hreach).
Defined.

(** ** The subscribe command *)

Lemma nth_update_nth {A : Type} n (f : A -> A) (l : list A) d :
  (n < List.length l)%nat -> nth n (update_nth n f l) d = f (nth n l d).
Proof.
  revert n. induction l as [|x l IH]; intros [|n] H; cbn in *; try lia; auto.
  apply IH. lia.
Qed.

(** The array a subscribe handler works on is the only thing its lookup
    may add to the state. *)
Lemma subscriptions_array_frame userId s :
  let s0 := snd (subscriptions_array userId s) in
  userSubscriptions s0 = userSubscriptions s
  /\ eventFilters s0 = eventFilters s
  /\ activeCollections s0 = activeCollections s
  /\ subscriptionRefs s0 = subscriptionRefs s
  /\ pendingSubscriptions s0 = pendingSubscriptions s
  /\ currentRef s0 = currentRef s
  /\ ws s0 = ws s
  /\ sent s0 = sent s
  /\ replies s0 = replies s
  /\ sendThrows s0 = sendThrows s.
Proof.
  unfold subscriptions_array.
  destruct (JsMap.get userId (userSubscriptions s)); cbn; repeat split.
Qed.

Lemma saveSubscriptions_offline s :
  ws_is_open s = false ->
  saveSubscriptions s
  = set_file
      (Some {| fd_subscriptions := saved_subscriptions s (userSubscriptions s);
               fd_eventFilters :=
                 filter (fun kv => (0 <? List.length (snd kv))%nat)
                   (eventFilters s) |})
      (set_activeCollections
         (fold_left (fun a slug => JsSet.add slug a)
            (List.concat (map (fun entry => deref (snd entry) s)
                            (userSubscriptions s)))
            (activeCollections s)) s).
Proof.
  intros Hopen. unfold saveSubscriptions. cbv zeta.
  rewrite save_user_fold. cbn [fst snd app].
  match goal with
  | |- context [ws_is_open ?t] => change (ws_is_open t) with (ws_is_open s)
  end.
  now rewrite Hopen.
Qed.

(** X8.  A subscribe command that passes validation while the socket is
    not open takes effect at once: the collection is appended to the
    user's subscriptions and saved, the requested kinds become the user's
    filter, the collection is active, a ref is issued and stored for it
    and a join is noted as pending, although no frame is sent. *)
Theorem subscribe_offline_records_at_once (s : State) (userId slug : string)
    (eventArgs kinds : list string) :
  reachable s ->
  ws_is_open s = false ->
  isValidCollectionSlug slug = true ->
  requested_events eventArgs = inl kinds ->
  (List.length (subs_of s userId) < 3)%nat ->
  ~ In slug (subs_of s userId) ->
  let s' := cmd_subscribe userId (slug :: eventArgs) s in
  subs_of s' userId = subs_of s userId ++ [slug]
  /\ JsMap.get userId (eventFilters s') = Some kinds
  /\ In slug (activeCollections s')
  /\ currentRef s' = currentRef s + 1
  /\ JsMap.get slug (subscriptionRefs s') = Some (currentRef s + 1)
  /\ JsMap.get slug (pendingSubscriptions s') = Some "join"
  /\ sent s' = sent s
  /\ replies s' = replies s ++ [(userId, RSubscribedWhenConnected)]
  /\ exists data,
       file s' = Some data
       /\ JsMap.get userId (fd_subscriptions data)
          = Some (subs_of s userId ++ [slug]).
Proof.
  intros Hreach Hopen Hslug Hkinds Hcap Hnew s'.
  apply reachable_store_inv in Hreach as Hstore.
  destruct (subscriptions_array_store userId s Hstore) as ((_ & Hnd & _) & Ha & _).
  destruct (subscriptions_array_subs userId s) as (Hderef & _ & _).
  destruct (subscriptions_array_frame userId s)
    as (Hu & Hf & Hc & Hr & Hp & Hcur & Hws & Hsent & Hrep & Hth).
  assert (Hlt : (3 <=? List.length (subs_of s userId))%nat = false)
    by (apply Nat.leb_gt; lia).
  assert (Hinc : includes (subs_of s userId) slug = false).
  { destruct (includes _ _) eqn:E; auto. apply includes_In in E. contradiction. }
  subst s'. unfold cmd_subscribe.
  rewrite (valid_slug_nonempty _ Hslug), Hslug, Hkinds. cbn [negb].
  destruct (subscriptions_array userId s) as [a s0]. cbn [fst snd] in *.
  rewrite Hderef, Hlt, Hinc. cbv zeta.
  assert (Hopen0 : ws_is_open s0 = false)
    by (unfold ws_is_open in *; now rewrite Hws).
  match goal with
  | |- context [if ws_is_open ?t then _ else _] =>
      change (ws_is_open t) with (ws_is_open s0); rewrite Hopen0
  end.
  match goal with
  | |- context [saveSubscriptions ?t] => set (t0 := t)
  end.
  assert (Hopen_t : ws_is_open t0 = false) by exact Hopen0.
  rewrite (saveSubscriptions_offline t0 Hopen_t).
  assert (Hsubs : deref a t0 = subs_of s userId ++ [slug]).
  { subst t0. unfold deref, push. fields.
    rewrite nth_update_nth by exact Ha. fold (deref a s0). now rewrite Hderef. }
  assert (Hget : JsMap.get userId (userSubscriptions t0) = Some a).
  { subst t0. fields. apply get_set_same. }
  split; [|split; [|split; [|split; [|split; [|split; [|split; [|split]]]]]]].
  - unfold subs_of, say. fields. change (deref a _) with (deref a t0).
    now rewrite Hget.
  - unfold say. fields. subst t0. fields. apply get_set_same.
  - unfold say. fields. apply add_all_In. right. subst t0. fields.
    apply add_In. now left.
  - unfold say. fields. subst t0. unfold push. fields. now rewrite Hcur.
  - unfold say. fields. subst t0. unfold push. fields.
    rewrite Hcur. apply get_set_same.
  - unfold say. fields. subst t0. unfold push. fields. apply get_set_same.
  - unfold say. fields. subst t0. unfold push. fields. exact Hsent.
  - unfold say. fields. subst t0. unfold push. fields. now rewrite Hrep.
  - eexists. unfold say. fields. split; [reflexivity|]. cbn [fd_subscriptions].
    rewrite saved_subscriptions_get.
    + now rewrite Hget, Hsubs; destruct (subs_of s userId).
    + subst t0. fields. now apply set_keys_NoDup.
Qed.

Lemma subscribe_offline_records_at_once_witness :
  reachable (run [Ready] (init None))
  /\ subs_of subscribed_offline "U1" = ["azuki"]
  /\ JsMap.get "U1" (eventFilters subscribed_offline) = Some ["item_sold"]
  /\ sent subscribed_offline = [].
Proof.
  assert (Hreach : reachable (run [Ready] (init None)))
    by (eexists None, _; reflexivity).
  split; [exact Hreach|].
  destruct (subscribe_offline_records_at_once (run [Ready] (init None))
              "U1" "azuki" ["item_sold"] ["item_sold"])
    as (Hsubs & Hfilter & _ & _ & _ & _ & Hsent & _).
  - exact Hreach.
  - reflexivity.
  - reflexivity.
  - reflexivity.
  - vm_compute. lia.
  - vm_compute. tauto.
  - split; [exact Hsubs|]. split; [exact Hfilter|exact Hsent].
Defined.

(** X9.  A subscribe command on an open socket changes the registry
    before the ack is awaited, and the timeout takes none of it back:
    after the command and its timeout, the requested kinds are the user's
    filter, the collection is active and a ref is stored for it. *)
Theorem subscribe_timeout_leaves_traces (s : State) (userId slug : string)
    (eventArgs kinds : list string) :
  ws_is_open s = true ->
  sendThrows s = false ->
  isValidCollectionSlug slug = true ->
  requested_events eventArgs = inl kinds ->
  (List.length (subs_of s userId) < 3)%nat ->
  ~ In slug (subs_of s userId) ->
  let s1 := cmd_subscribe userId (slug :: eventArgs) s in
  let s2 := run_timer (TAckTimeout (currentRef s + 1)) s1 in
  JsMap.get userId (eventFilters s2) = Some kinds
  /\ In slug (activeCollections s2)
  /\ JsMap.get slug (subscriptionRefs s2) = Some (currentRef s + 1)
  /\ currentRef s2 = currentRef s + 1.
Proof.
  intros Hopen Hsend Hslug Hkinds Hcap Hnew s1 s2.
  assert (Hkeep : eventFilters s2 = eventFilters s1
                  /\ activeCollections s2 = activeCollections s1
                  /\ subscriptionRefs s2 = subscriptionRefs s1
                  /\ currentRef s2 = currentRef s1).
  { subst s2. cbn [run_timer]. unfold ack_timeout.
    destruct (filter _ (awaiting s1)); [auto|]. unfold say. fields. auto. }
  destruct Hkeep as (-> & -> & -> & ->).
  destruct (subscriptions_array_subs userId s) as (Hderef & _ & _).
  destruct (subscriptions_array_frame userId s)
    as (Hu & Hf & Hc & Hr & Hp & Hcur & Hws & Hsent & Hrep & Hth).
  assert (Hlt : (3 <=? List.length (subs_of s userId))%nat = false)
    by (apply Nat.leb_gt; lia).
  assert (Hinc : includes (subs_of s userId) slug = false).
  { destruct (includes _ _) eqn:E; auto. apply includes_In in E. contradiction. }
  subst s1. unfold cmd_subscribe.
  rewrite (valid_slug_nonempty _ Hslug), Hslug, Hkinds. cbn [negb].
  destruct (subscriptions_array userId s) as [a s0]. cbn [fst snd] in *.
  rewrite Hderef, Hlt, Hinc. cbv zeta.
  unfold ws_is_open in *. unfold ws_send, setTimeout. fields.
  rewrite Hws, Hth, Hsend.
  destruct (ws s) as [[]|]; try discriminate. fields.
  rewrite Hf, Hc, Hr, Hcur.
  split; [apply get_set_same|]. split; [apply add_In; now left|].
  split; [apply get_set_same|reflexivity].
Qed.

Lemma subscribe_timeout_leaves_traces_witness :
  ws_is_open connected_idle = true
  /\ JsMap.get "U1" (eventFilters connected_idle) = None
  /\ JsMap.get "U1"
       (eventFilters
          (run_timer (TAckTimeout 1)
             (cmd_subscribe "U1" ["azuki"; "item_sold"] connected_idle)))
     = Some ["item_sold"].
Proof.
  assert (Hopen : ws_is_open connected_idle = true) by reflexivity.
  split; [exact Hopen|]. split; [reflexivity|].
  destruct (subscribe_timeout_leaves_traces connected_idle "U1" "azuki"
              ["item_sold"] ["item_sold"]) as (Hfilter & _).
  - exact Hopen.
  - reflexivity.
  - reflexivity.
  - reflexivity.
  - vm_compute. lia.
  - vm_compute. tauto.
  - exact Hfilter.
Defined.

Lemma parse_events_recognized eventArgs : forall userEvents kinds,
  parse_events eventArgs userEvents = inl kinds ->
  Forall (fun e => In e VALID_EVENTS) eventArgs.
Proof.
  induction eventArgs as [|e rest IH]; intros userEvents kinds; cbn [parse_events].
  - constructor.
  - destruct (includes VALID_EVENTS e) eqn:E; [|discriminate].
    intros H. constructor; [now apply includes_In|eauto].
Qed.

(** X10.  A subscribe command is either turned down, and then nothing
    changes but the answer to its author, or it names a well-formed slug
    that the author does not hold yet, only recognized event kinds, and
    the author holds fewer than three subscriptions. *)
Theorem subscribe_rejected_or_valid (s : State) (userId : string)
    (args : list string) :
  (exists r, is_rejection r = true
             /\ cmd_subscribe userId args s = say userId r s)
  \/ (exists slug eventArgs,
        args = slug :: eventArgs
        /\ isValidCollectionSlug slug = true
        /\ Forall (fun e => In e VALID_EVENTS) eventArgs
        /\ (List.length (subs_of s userId) < 3)%nat
        /\ ~ In slug (subs_of s userId)).
Proof.
  unfold cmd_subscribe.
  destruct args as [|slug eventArgs]; [left; now exists RUsage|].
  destruct (String.length slug =? 0)%nat; [left; now exists RUsage|].
  destruct (isValidCollectionSlug slug) eqn:Hslug; cbn [negb];
    [|left; now exists RInvalidSlug].
  destruct (requested_events eventArgs) as [kinds|e] eqn:Hkinds;
    [|left; now exists (RInvalidEvent e)].
  destruct (subscriptions_array_subs userId s) as (Hderef & _ & _).
  destruct (Nat.leb_spec 3 (List.length (subs_of s userId))) as [Hfull|Hroom].
  - left. exists RCapacityExceeded. split; [reflexivity|].
    destruct (subs_of_array s userId) as (a & _ & -> & Ea); [lia|].
    rewrite Ea. now apply Nat.leb_le in Hfull as ->.
  - destruct (includes (subs_of s userId) slug) eqn:Hinc.
    + left. exists RAlreadySubscribed. split; [reflexivity|].
      assert (Hin : In slug (subs_of s userId)) by now apply includes_In.
      destruct (subs_of_array s userId) as (a & _ & -> & Ea).
      { destruct (subs_of s userId); [contradiction|cbn; lia]. }
      rewrite Ea, Hinc. now apply Nat.leb_gt in Hroom as ->.
    + right. exists slug, eventArgs. repeat split; auto.
      * unfold requested_events in Hkinds. destruct eventArgs; [constructor|].
        eapply parse_events_recognized, Hkinds.
      * intros Hin. apply includes_In in Hin. congruence.
Qed.

(** ** Who sends leave frames *)

Create HintDb quiet.

Section Quiet.
Variable log : list sent_frame.

Lemma quiet_same s t t' :
  sent t' = sent t -> keeps (leaves_are log) s t -> keeps (leaves_are log) s t'.
Proof. unfold keeps, leaves_are. intros ->. auto. Qed.

Lemma quiet_send f s :
  is_leave f = false -> keeps (leaves_are log) s (snd (ws_send f s)).
Proof.
  intros Hf. destruct (ws_send_cases f s) as [E|[E|E]]; rewrite E; cbn [snd];
    try apply keeps_refl.
  unfold keeps, leaves_are, leaves. fields. intros <-.
  rewrite filter_app. cbn [filter frame_of]. rewrite Hf. apply app_nil_r.
Qed.
End Quiet.

Ltac peel_quiet :=
  match goal with
  | |- keeps (leaves_are ?log) _ _ =>
      peel_by (quiet_same log) ltac:(auto with quiet)
  end.

Lemma quiet_say log userId r s : keeps (leaves_are log) s (say userId r s).
Proof. unfold say. repeat peel_quiet. Qed.

Lemma quiet_clearTimer log handle s :
  keeps (leaves_are log) s (clearTimer handle s).
Proof. unfold clearTimer. repeat peel_quiet. Qed.

Lemma quiet_push log a x s : keeps (leaves_are log) s (push a x s).
Proof. unfold push. repeat peel_quiet. Qed.

Lemma quiet_ws_terminate log s : keeps (leaves_are log) s (ws_terminate s).
Proof. unfold ws_terminate. repeat peel_quiet. Qed.

#[local] Hint Extern 0 (keeps (leaves_are _) _ (say _ _ _)) =>
  simple apply quiet_say : quiet.
#[local] Hint Extern 0 (keeps (leaves_are _) _ (clearTimer _ _)) =>
  simple apply quiet_clearTimer : quiet.
#[local] Hint Extern 0 (keeps (leaves_are _) _ (push _ _ _)) =>
  simple apply quiet_push : quiet.
#[local] Hint Extern 0 (keeps (leaves_are _) _ (ws_terminate _)) =>
  simple apply quiet_ws_terminate : quiet.
#[local] Hint Extern 0 (keeps (leaves_are _) _ (snd (ws_send (join_frame _ _) _))) =>
  simple apply quiet_send; reflexivity : quiet.
#[local] Hint Extern 0 (keeps (leaves_are _) _ (snd (ws_send heartbeat_frame _))) =>
  simple apply quiet_send; reflexivity : quiet.

Lemma quiet_subscribeNext log collections index s :
  keeps (leaves_are log) s (subscribeNext collections index s).
Proof. unfold subscribeNext, setTimeout. cbn [fst snd]. repeat peel_quiet. Qed.
#[local] Hint Extern 0 (keeps (leaves_are _) _ (subscribeNext _ _ _)) =>
  simple apply quiet_subscribeNext : quiet.

Lemma quiet_resubscribe log s :
  keeps (leaves_are log) s (resubscribeToCollections s).
Proof. unfold resubscribeToCollections. repeat peel_quiet. Qed.
#[local] Hint Extern 0 (keeps (leaves_are _) _ (resubscribeToCollections _)) =>
  simple apply quiet_resubscribe : quiet.

Lemma quiet_load_user log s entry : keeps (leaves_are log) s (load_user s entry).
Proof. unfold load_user, alloc. cbn [fst snd]. repeat peel_quiet. Qed.

Lemma quiet_load_filters log s entry :
  keeps (leaves_are log) s (load_filters s entry).
Proof. unfold load_filters. repeat peel_quiet. Qed.

Lemma quiet_loadSubscriptions log s :
  keeps (leaves_are log) s (loadSubscriptions s).
Proof.
  unfold loadSubscriptions. destruct (file s) as [data|]; [|apply keeps_refl].
  cbv zeta.
  match goal with
  | |- keeps _ _ (if _ then resubscribeToCollections ?t else _) =>
      assert (H : keeps (leaves_are log) s t)
  end.
  { eapply keeps_trans;
      [|apply keeps_fold; intros; apply quiet_load_filters].
    eapply keeps_trans;
      [|apply keeps_fold; intros; apply quiet_load_user].
    repeat peel_quiet. }
  destruct (ws_is_open _); auto.
  eapply keeps_trans; [exact H|apply quiet_resubscribe].
Qed.
#[local] Hint Extern 0 (keeps (leaves_are _) _ (loadSubscriptions _)) =>
  simple apply quiet_loadSubscriptions : quiet.

Lemma quiet_saveSubscriptions log s :
  keeps (leaves_are log) s (saveSubscriptions s).
Proof. unfold saveSubscriptions. repeat peel_quiet. Qed.
#[local] Hint Extern 0 (keeps (leaves_are _) _ (saveSubscriptions _)) =>
  simple apply quiet_saveSubscriptions : quiet.

Lemma quiet_reconnect log s : keeps (leaves_are log) s (reconnect s).
Proof. unfold reconnect, setTimeout. cbn [fst snd]. repeat peel_quiet. Qed.
#[local] Hint Extern 0 (keeps (leaves_are _) _ (reconnect _)) =>
  simple apply quiet_reconnect : quiet.

Lemma quiet_connectToOpenSea log s :
  keeps (leaves_are log) s (connectToOpenSea s).
Proof. unfold connectToOpenSea, setTimeout. cbn [fst snd]. repeat peel_quiet. Qed.
#[local] Hint Extern 0 (keeps (leaves_are _) _ (connectToOpenSea _)) =>
  simple apply quiet_connectToOpenSea : quiet.

Lemma quiet_on_message log data s :
  keeps (leaves_are log) s (on_message data s).
Proof.
  unfold on_message. cbv zeta.
  match goal with
  | |- keeps _ _ (fold_left _ _ ?t) => apply (keeps_trans _ _ t)
  end.
  - match goal with
    | |- keeps _ _ (fold_left _ _ ?t) => apply (keeps_trans _ _ t)
    end.
    + peel_quiet. unfold main_listener. repeat peel_quiet.
      rewrite handleOpenSeaEvent_exact. repeat peel_quiet.
    + apply keeps_fold. intros. apply quiet_clearTimer.
  - apply keeps_fold. intros t p _. unfold resume_subscribe. repeat peel_quiet.
Qed.

Lemma quiet_subscriptions_array log userId s :
  keeps (leaves_are log) s (snd (subscriptions_array userId s)).
Proof.
  unfold subscriptions_array, alloc.
  destruct (JsMap.get userId (userSubscriptions s)); cbn [snd]; repeat peel_quiet.
Qed.

Lemma quiet_cmd_subscribe log userId args s :
  keeps (leaves_are log) s (cmd_subscribe userId args s).
Proof.
  unfold cmd_subscribe.
  destruct args as [|slug eventArgs]; [repeat peel_quiet|].
  destruct (String.length slug =? 0)%nat; [repeat peel_quiet|].
  destruct (negb _); [repeat peel_quiet|].
  destruct (requested_events eventArgs) as [userEvents|e]; [|repeat peel_quiet].
  generalize (quiet_subscriptions_array log userId s).
  destruct (subscriptions_array userId s) as [a s0]. cbn [snd]. intros H0.
  apply (keeps_trans _ _ _ _ H0).
  destruct (3 <=? _)%nat; [repeat peel_quiet|].
  destruct (includes _ _); [repeat peel_quiet|].
  cbv zeta. destruct (ws_is_open _); [|repeat peel_quiet].
  match goal with
  | |- context [ws_send ?f ?t] =>
      generalize (quiet_send log f t eq_refl);
      destruct (ws_send f t) as [threw s2]
  end.
  cbn [snd]. intros Hs.
  apply (keeps_trans _ _ s2).
  - eapply keeps_trans; [|exact Hs]. repeat peel_quiet.
  - destruct threw; unfold setTimeout; cbn [fst snd]; repeat peel_quiet.
Qed.

Lemma quiet_add_collection_modal log userId slug s :
  keeps (leaves_are log) s (add_collection_modal userId slug s).
Proof.
  unfold add_collection_modal.
  destruct (negb _); [repeat peel_quiet|].
  generalize (quiet_subscriptions_array log userId s).
  destruct (subscriptions_array userId s) as [a s0]. cbn [snd]. intros H0.
  apply (keeps_trans _ _ _ _ H0). repeat peel_quiet.
Qed.

Lemma quiet_run_timer log action s :
  keeps (leaves_are log) s (run_timer action s).
Proof.
  destruct action; cbn [run_timer].
  - destruct (ws s) as [[]|]; repeat peel_quiet.
  - apply quiet_send. reflexivity.
  - destruct (isWsConnected s && ws_is_open s); [|apply keeps_refl].
    generalize (quiet_send log heartbeat_frame s eq_refl).
    destruct (ws_send heartbeat_frame s) as [threw s1]. cbn [snd]. intros H.
    destruct threw; auto.
    eapply keeps_trans; [exact H|apply quiet_reconnect].
  - repeat peel_quiet.
  - apply quiet_subscribeNext.
  - apply quiet_connectToOpenSea.
  - repeat peel_quiet.
  - unfold ack_timeout. repeat peel_quiet.
Qed.

Lemma quiet_step log e s :
  (forall userId args, e <> Unsubscribe userId args) ->
  keeps (leaves_are log) s (step e s).
Proof.
  intros He. destruct e; cbn [step].
  - unfold on_ready, setTimeout. cbn [fst snd]. repeat peel_quiet.
  - repeat peel_quiet.
  - unfold fire.
    destruct (find _ (timers s)) as [t|]; [|apply keeps_refl].
    destruct (t_due t <=? now s); [|apply keeps_refl].
    eapply keeps_trans; [|apply quiet_run_timer]. repeat peel_quiet.
  - repeat peel_quiet.
  - destruct (ws s) as [[]|]; try apply keeps_refl.
    unfold on_open, setTimeout. cbn [fst snd]. repeat peel_quiet.
  - destruct (ws s) as [[]|]; try apply keeps_refl;
      unfold on_error; repeat peel_quiet.
  - destruct (ws s) as [[]|]; try apply keeps_refl;
      unfold on_close; repeat peel_quiet.
  - destruct (ws s) as [[]|]; try apply keeps_refl; apply quiet_on_message.
  - apply quiet_cmd_subscribe.
  - now destruct (He userId args).
  - unfold clear_confirm. repeat peel_quiet.
  - unfold remove_collection, alloc. cbn [fst snd]. repeat peel_quiet.
  - unfold event_filters_menu. repeat peel_quiet.
  - unfold filter_button. repeat peel_quiet.
  - apply quiet_add_collection_modal.
Qed.

(** X11.  Leave frames come from the unsubscribe command and from
    nowhere else: no other turn of the event loop (a timer, a socket
    event, an inbound frame, a subscribe command, a button, a menu or a
    modal) writes one. *)
Theorem only_unsubscribe_leaves (e : event) (s : State) :
  (forall userId args, e <> Unsubscribe userId args) ->
  leaves (sent (step e s)) = leaves (sent s).
Proof.
  intros He. now apply (quiet_step (leaves (sent s)) e s He).
Qed.

Lemma only_unsubscribe_leaves_witness :
  (forall userId args, ClearConfirm "U1" <> Unsubscribe userId args)
  /\ In "azuki" (subs_of two_connections "U1")
  /\ subs_of (step (ClearConfirm "U1") two_connections) "U1" = []
  /\ leaves (sent (step (ClearConfirm "U1") two_connections))
     = leaves (sent two_connections).
Proof.
  assert (H : forall userId args, ClearConfirm "U1" <> Unsubscribe userId args)
    by discriminate.
  split; [exact H|]. split; [vm_compute; tauto|]. split; [reflexivity|].
  apply (only_unsubscribe_leaves _ _ H).
Defined.

(** ** Withdrawing a subscription *)

Lemma subs_of_same s t u :
  userSubscriptions t = userSubscriptions s -> arrays t = arrays s ->
  subs_of t u = subs_of s u.
Proof. unfold subs_of, deref. now intros -> ->. Qed.

(** A user's array is replaced by a new one: the user holds the new
    contents and nobody else is concerned. *)
Lemma replace_array_subs s userId l :
  store_inv s ->
  let t := set_userSubscriptions
             (JsMap.set userId (List.length (arrays s)) (userSubscriptions s))
             (set_arrays (arrays s ++ [l]) s) in
  subs_of t userId = l
  /\ (forall v, v <> userId -> subs_of t v = subs_of s v).
Proof.
  intros (_ & _ & Haddr & _) t. subst t. unfold subs_of, deref. fields. split.
  - now rewrite get_set_same, nth_middle.
  - intros v Hv. rewrite get_set_other by congruence.
    destruct (JsMap.get v (userSubscriptions s)) as [a|] eqn:E; auto.
    apply get_in, Haddr in E. now rewrite app_nth1.
Qed.

Lemma saveSubscriptions_subs s u :
  subs_of (saveSubscriptions s) u = subs_of s u.
Proof.
  destruct (saveSubscriptions_frame s) as (Hu & Ha & _).
  now apply subs_of_same.
Qed.

Lemma saveSubscriptions_replies s : replies (saveSubscriptions s) = replies s.
Proof. now destruct (saveSubscriptions_frame s) as (_ & _ & Hr & _). Qed.

Lemma set_preserves_other {V : Type} k (v : V) k' v' m :
  k' <> k -> In (k', v') m -> In (k', v') (JsMap.set k v m).
Proof.
  intros Hne. induction m as [|[k0 v0] m IH]; cbn [JsMap.set]; [intros []|].
  destruct (String.eqb_spec k k0) as [->|_]; intros [E|Hin].
  - inversion E; subst. congruence.
  - now right.
  - now left.
  - right. auto.
Qed.

(** X12.  Unsubscribing from a collection that another user still holds:
    the collection leaves the author's subscriptions and nobody else's, it
    stays in the active set, and no leave frame is written. *)
Theorem unsubscribe_shared_collection (s : State) (userId other slug : string)
    (rest : list string) :
  reachable s ->
  isValidCollectionSlug slug = true ->
  In slug (subs_of s userId) ->
  other <> userId ->
  In slug (subs_of s other) ->
  let s' := cmd_unsubscribe userId (slug :: rest) s in
  (forall x, In x (subs_of s' userId) <-> In x (subs_of s userId) /\ x <> slug)
  /\ (forall v, v <> userId -> subs_of s' v = subs_of s v)
  /\ In slug (activeCollections s')
  /\ leaves (sent s') = leaves (sent s)
  /\ replies s' = replies s ++ [(userId, RUnsubscribed)].
Proof.
  intros Hreach Hslug Hheld Hother Hshared s'.
  apply reachable_store_inv in Hreach as Hstore.
  destruct (replace_array_subs s userId (without slug (subs_of s userId)) Hstore)
    as (Hmine & Hothers).
  subst s'. unfold cmd_unsubscribe.
  rewrite (valid_slug_nonempty _ Hslug), Hslug.
  rewrite (proj2 (includes_In _ _) Hheld). cbn [negb].
  unfold alloc. cbn [fst snd]. fields.
  set (s1 := set_userSubscriptions _ _) in *.
  assert (Hstill : still_subscribed slug s1 = true).
  { unfold still_subscribed, JsMap.values. apply existsb_exists.
    unfold subs_of in Hshared.
    destruct (JsMap.get other (userSubscriptions s)) as [a|] eqn:E;
      [|contradiction].
    exists a. split.
    - apply in_map_iff. exists (other, a). split; [reflexivity|].
      subst s1. fields. apply set_preserves_other; auto. now apply get_in.
    - apply includes_In. specialize (Hothers other Hother).
      unfold subs_of in Hothers. subst s1. fields_in Hothers.
      rewrite get_set_other in Hothers by congruence.
      rewrite E in Hothers. unfold deref in *. fields.
      fields_in Hothers. rewrite Hothers. exact Hshared. }
  rewrite Hstill. unfold unsubscribe_done, say. fields.
  split; [|split; [|split; [|split]]].
  - intros x. rewrite (subs_of_same (saveSubscriptions s1)
                         (set_replies _ (saveSubscriptions s1)))
      by reflexivity.
    rewrite saveSubscriptions_subs, Hmine. apply without_In.
  - intros v Hv. rewrite (subs_of_same (saveSubscriptions s1)
                            (set_replies _ (saveSubscriptions s1)))
      by reflexivity.
    rewrite saveSubscriptions_subs. auto.
  - apply saveSubscriptions_active. right.
    unfold subs_of in Hshared.
    destruct (JsMap.get other (userSubscriptions s)) as [a|] eqn:E;
      [|contradiction].
    exists other, a. split.
    + subst s1. fields. apply set_preserves_other; auto. now apply get_in.
    + destruct Hstore as (_ & _ & Haddr & _).
      subst s1. unfold deref in *. fields.
      rewrite app_nth1 by (apply get_in in E; eauto). exact Hshared.
  - apply (quiet_saveSubscriptions (leaves (sent s)) s1). subst s1.
    unfold leaves_are. now fields.
  - now rewrite saveSubscriptions_replies.
Qed.

Lemma unsubscribe_shared_collection_witness :
  reachable shared_collection
  /\ In "azuki" (subs_of shared_collection "U1")
  /\ In "azuki" (subs_of shared_collection "U2")
  /\ In "azuki"
       (activeCollections (cmd_unsubscribe "U1" ["azuki"] shared_collection))
  /\ leaves (sent (cmd_unsubscribe "U1" ["azuki"] shared_collection))
     = leaves (sent shared_collection).
Proof.
  assert (Hreach : reachable shared_collection)
    by (eexists None, _; reflexivity).
  assert (H1 : In "azuki" (subs_of shared_collection "U1"))
    by (vm_compute; tauto).
  assert (H2 : In "azuki" (subs_of shared_collection "U2"))
    by (vm_compute; tauto).
  split; [exact Hreach|]. split; [exact H1|]. split; [exact H2|].
  destruct (unsubscribe_shared_collection shared_collection "U1" "U2" "azuki" []
              Hreach eq_refl H1) as (_ & _ & Hact & Hleave & _).
  - discriminate.
  - exact H2.
  - split; [exact Hact|exact Hleave].
Defined.

(** X13.  The [remove_collection] menu takes the selected value out of
    the author's subscriptions, whatever it is, and answers that the
    subscription is withdrawn; nobody else's subscriptions change, the
    active set loses nothing and no leave frame is written. *)
Theorem remove_collection_keeps_active (s : State) (userId slug : string) :
  reachable s ->
  let s' := remove_collection userId slug s in
  (forall x, In x (subs_of s' userId) <-> In x (subs_of s userId) /\ x <> slug)
  /\ (forall v, v <> userId -> subs_of s' v = subs_of s v)
  /\ (forall x, In x (activeCollections s) -> In x (activeCollections s'))
  /\ leaves (sent s') = leaves (sent s)
  /\ replies s' = replies s ++ [(userId, RUnsubscribed)].
Proof.
  intros Hreach s'.
  apply reachable_store_inv in Hreach as Hstore.
  destruct (replace_array_subs s userId (without slug (subs_of s userId)) Hstore)
    as (Hmine & Hothers).
  subst s'. unfold remove_collection, alloc. cbn [fst snd]. fields.
  set (s1 := set_userSubscriptions _ _) in *.
  unfold say. fields.
  split; [|split; [|split; [|split]]].
  - intros x. rewrite (subs_of_same (saveSubscriptions s1)
                         (set_replies _ (saveSubscriptions s1)))
      by reflexivity.
    rewrite saveSubscriptions_subs, Hmine. apply without_In.
  - intros v Hv. rewrite (subs_of_same (saveSubscriptions s1)
                            (set_replies _ (saveSubscriptions s1)))
      by reflexivity.
    rewrite saveSubscriptions_subs. auto.
  - intros x Hx. apply saveSubscriptions_active. now left.
  - apply (quiet_saveSubscriptions (leaves (sent s)) s1). subst s1.
    unfold leaves_are. now fields.
  - now rewrite saveSubscriptions_replies.
Qed.

Lemma remove_collection_keeps_active_witness :
  reachable two_connections
  /\ subs_of two_connections "U1" = ["azuki"]
  /\ subs_of (remove_collection "U1" "azuki" two_connections) "U1" = []
  /\ In "azuki"
       (activeCollections (remove_collection "U1" "azuki" two_connections))
  /\ leaves (sent (remove_collection "U1" "azuki" two_connections))
     = leaves (sent two_connections).
Proof.
  assert (Hreach : reachable two_connections)
    by (exists None, reconnect_cycle; reflexivity).
  split; [exact Hreach|]. split; [reflexivity|]. split; [reflexivity|].
  destruct (remove_collection_keeps_active two_connections "U1" "azuki" Hreach)
    as (_ & _ & Hact & Hleave & _).
  split; [|exact Hleave]. apply Hact. vm_compute. tauto.
Defined.

(** ** The connection supervisor *)

Lemma reachable_step e s : reachable s -> reachable (step e s).
Proof.
  intros (f & trace & ->). exists f, (trace ++ [e]).
  unfold run. now rewrite fold_left_app.
Qed.

(** What [reconnect] leaves armed: the reconnection it has just armed,
    or none when the attempts are used up. *)
Lemma reconnect_only s :
  (forall t, In t (timers s) -> t_action t = TReconnect ->
             reconnectTimeout s = Some (t_id t)) ->
  filter is_reconnect (timers (reconnect s))
  = (if connectionAttempts s + 1 <=? MAX_RECONNECT_ATTEMPTS
     then [reconnection (nextTimer s) (now s) (connectionAttempts s + 1)]
     else [])
  /\ connectionAttempts (reconnect s) = connectionAttempts s + 1
  /\ ws (reconnect s) = ws s
  /\ isWsConnected (reconnect s) = isWsConnected s
  /\ now (reconnect s) = now s.
Proof.
  intros Hre.
  assert (Hnone : filter is_reconnect
                    (timers (clearTimer (reconnectTimeout s) s)) = []).
  { unfold clearTimer. destruct (reconnectTimeout s) as [id|] eqn:E; fields.
    - apply filter_none. intros t [Hin Hid]%cancel_In.
      unfold is_reconnect. destruct (t_action t) eqn:Ea; auto.
      apply Hre in Ea; auto. congruence.
    - apply filter_none. intros t Hin.
      unfold is_reconnect. destruct (t_action t) eqn:Ea; auto.
      apply Hre in Ea; auto. discriminate. }
  unfold reconnect, setTimeout. cbn [fst snd]. fields.
  assert (Hsame : connectionAttempts (clearTimer (reconnectTimeout s) s)
                  = connectionAttempts s
                  /\ nextTimer (clearTimer (reconnectTimeout s) s) = nextTimer s
                  /\ now (clearTimer (reconnectTimeout s) s) = now s
                  /\ ws (clearTimer (reconnectTimeout s) s) = ws s
                  /\ isWsConnected (clearTimer (reconnectTimeout s) s)
                     = isWsConnected s).
  { unfold clearTimer. destruct (reconnectTimeout s); repeat split. }
  destruct Hsame as (Ha & Hn & Hnow & Hws & Hconn).
  rewrite Ha. destruct (connectionAttempts s + 1 <=? MAX_RECONNECT_ATTEMPTS);
    fields; rewrite ?filter_app, ?Hnone, ?Ha, ?Hn, ?Hnow, ?Hws, ?Hconn;
    repeat split.
Qed.

(** A socket that errs and closes, as a handshake that fails does. *)
Lemma error_then_close s :
  reachable s ->
  ws s = Some CONNECTING \/ ws s = Some OPEN ->
  let s' := run [WsError; WsClose] s in
  connectionAttempts s' = connectionAttempts s + 2
  /\ ws s' = Some CLOSED
  /\ isWsConnected s' = false
  /\ exists id,
       filter is_reconnect (timers s')
       = if connectionAttempts s + 2 <=? MAX_RECONNECT_ATTEMPTS
         then [reconnection id (now s) (connectionAttempts s + 2)]
         else [].
Proof.
  intros Hreach Hws s'.
  set (s1 := step WsError s).
  assert (Hreach1 : reachable s1) by now apply reachable_step.
  assert (H1 : connectionAttempts s1 = connectionAttempts s + 1
               /\ ws s1 = Some CLOSING /\ now s1 = now s).
  { subst s1. cbn [step].
    assert (E : on_error (set_ws (Some CLOSING) s)
                = reconnect (set_isWsConnected false
                               (clearTimer (connectionTimeout s)
                                  (set_ws (Some CLOSING) s)))) by reflexivity.
    destruct Hws as [-> | ->]; rewrite E; unfold reconnect, setTimeout;
      cbn [fst snd]; fields;
      destruct (_ <=? _); destruct (reconnectTimeout _), (connectionTimeout s);
      cbn; auto. }
  destruct H1 as (Ha1 & Hws1 & Hnow1).
  apply reachable_timers_inv in Hreach1 as (_ & Hre1 & _).
  subst s'. change (run [WsError; WsClose] s) with (step WsClose s1).
  cbn [step]. rewrite Hws1. unfold on_close. cbv zeta.
  match goal with
  | |- context [reconnect ?t] => set (t0 := t)
  end.
  assert (Ht0 : connectionAttempts t0 = connectionAttempts s1
                /\ now t0 = now s1 /\ ws t0 = Some CLOSED
                /\ isWsConnected t0 = false
                /\ reconnectTimeout t0 = reconnectTimeout s1
                /\ forall t, In t (timers t0) -> In t (timers s1)).
  { subst t0. unfold clearTimer.
    destruct (connectionTimeout _), (heartbeatInterval _); fields;
      repeat (split; [reflexivity|]);
      intros t Ht; repeat (apply cancel_In in Ht as [Ht _]); exact Ht. }
  destruct Ht0 as (Ha0 & Hnow0 & Hws0 & Hconn0 & Hrt0 & Hin0).
  destruct (reconnect_only t0) as (Hf & Ha & Hw & Hc & _).
  { intros t Ht Hact. rewrite Hrt0. apply Hre1; auto. }
  rewrite Ha, Hw, Hc, Ha0, Ha1, Hws0, Hconn0.
  split; [lia|]. split; [reflexivity|]. split; [reflexivity|].
  exists (nextTimer t0). rewrite Hf, Ha0, Ha1, Hnow0, Hnow1.
  replace (connectionAttempts s + 1 + 1) with (connectionAttempts s + 2) by lia.
  reflexivity.
Qed.

(** X14.  A connection that fails raises ['error'] and then ['close'],
    and each of the two listeners calls [reconnect]: the failure uses up
    two attempts, and what is armed afterwards is the one reconnection of
    the second call, or nothing when the attempts are used up.  So the
    first retry after a failure waits 10 s, and after three failures in a
    row nothing is armed any more. *)
Theorem failed_connection_costs_two_attempts (s : State) :
  reachable s ->
  ws s = Some CONNECTING \/ ws s = Some OPEN ->
  let s' := run [WsError; WsClose] s in
  connectionAttempts s' = connectionAttempts s + 2
  /\ ws s' = Some CLOSED
  /\ isWsConnected s' = false
  /\ exists id,
       filter is_reconnect (timers s')
       = if connectionAttempts s + 2 <=? MAX_RECONNECT_ATTEMPTS
         then [reconnection id (now s) (connectionAttempts s + 2)]
         else [].
Proof. apply error_then_close. Qed.

Lemma failed_connection_costs_two_attempts_witness :
  reachable (run [Ready] (init None))
  /\ connectionAttempts (run [WsError; WsClose] (run [Ready] (init None))) = 2
  /\ filter is_reconnect (timers (run [WsError; WsClose] (run [Ready] (init None))))
     = [reconnection 3 0 2]
  /\ t_due (reconnection 3 0 2) = 10000.
Proof.
  assert (Hreach : reachable (run [Ready] (init None)))
    by (eexists None, _; reflexivity).
  split; [exact Hreach|].
  destruct (failed_connection_costs_two_attempts (run [Ready] (init None)) Hreach)
    as (Ha & _ & _ & id & Hid).
  - left. reflexivity.
  - split; [exact Ha|]. split; reflexivity.
Defined.

(** ** One heartbeat interval *)

Create HintDb beat.

Lemma beat_same s t t' :
  timers t' = timers t -> nextTimer t' = nextTimer t ->
  heartbeatInterval t' = heartbeatInterval t -> ws t' = ws t ->
  keeps beat_inv s t -> keeps beat_inv s t'.
Proof. unfold keeps, beat_inv. intros -> -> -> ->. auto. Qed.

Ltac peel_beat := peel_by beat_same ltac:(auto with beat).

Lemma cancel_ids id l : NoDup (map t_id l) -> NoDup (map t_id (cancel id l)).
Proof.
  unfold cancel. induction l as [|t l IH]; cbn [filter map]; intros H; auto.
  inversion H as [|? ? Hnin Hnd]; subst.
  destruct (negb (t_id t =? id)%nat); cbn [map]; auto.
  constructor; auto.
  intros (x & E & [Hx _]%filter_In)%in_map_iff.
  apply Hnin, in_map_iff. now exists x.
Qed.

Lemma beat_arm delay action s :
  action <> THeartbeat ->
  keeps beat_inv s
    (set_nextTimer (S (nextTimer s))
       (set_timers (timers s ++ [{| t_id := nextTimer s; t_due := now s + delay;
                                    t_action := action |}]) s)).
Proof.
  intros Ha. unfold keeps, beat_inv. fields. intros (Hid & Hnd & Hhb & Hws).
  split; [|split; [|split]].
  - intros t [Ht|[<-|[]]]%in_app_iff; cbn; [apply Hid in Ht|]; lia.
  - rewrite map_app. cbn [map t_id]. apply NoDup_snoc; auto.
    intros (x & E & Hx)%in_map_iff. apply Hid in Hx. lia.
  - intros t [Ht|[<-|[]]]%in_app_iff; cbn; auto. congruence.
  - intros Hw t [Ht|[<-|[]]]%in_app_iff; cbn; auto.
Qed.

Lemma beat_clearTimer handle s : keeps beat_inv s (clearTimer handle s).
Proof.
  unfold clearTimer. destruct handle as [id|]; [|apply keeps_refl].
  unfold keeps, beat_inv. fields. intros (Hid & Hnd & Hhb & Hws).
  split; [|split; [|split]].
  - intros t [Ht _]%cancel_In. auto.
  - now apply cancel_ids.
  - intros t [Ht _]%cancel_In. auto.
  - intros Hw t [Ht _]%cancel_In. auto.
Qed.

(** A socket that is open, closing or closed may have its heartbeat. *)
Lemma beat_set_ws r s :
  r <> CONNECTING -> keeps beat_inv s (set_ws (Some r) s).
Proof.
  intros Hr. unfold keeps, beat_inv. fields. intros (Hid & Hnd & Hhb & _).
  repeat split; auto. intros [H|H]; congruence.
Qed.

Lemma beat_ws_terminate s : keeps beat_inv s (ws_terminate s).
Proof.
  unfold ws_terminate. destruct (ws s) as [r|] eqn:E; cbn [option_map].
  - apply beat_set_ws. now destruct r.
  - unfold keeps, beat_inv. fields. now rewrite E.
Qed.

Lemma beat_say userId r s : keeps beat_inv s (say userId r s).
Proof. unfold say. repeat peel_beat. Qed.

Lemma beat_push a x s : keeps beat_inv s (push a x s).
Proof. unfold push. repeat peel_beat. Qed.

Lemma beat_send f s : keeps beat_inv s (snd (ws_send f s)).
Proof.
  destruct (ws_send_cases f s) as [E|[E|E]]; rewrite E; cbn [snd];
    repeat peel_beat.
Qed.

#[local] Hint Extern 0 (keeps beat_inv _ (say _ _ _)) =>
  simple apply beat_say : beat.
#[local] Hint Extern 0 (keeps beat_inv _ (push _ _ _)) =>
  simple apply beat_push : beat.
#[local] Hint Extern 0 (keeps beat_inv _ (clearTimer _ _)) =>
  simple apply beat_clearTimer : beat.
#[local] Hint Extern 0 (keeps beat_inv _ (ws_terminate _)) =>
  simple apply beat_ws_terminate : beat.
#[local] Hint Extern 0 (keeps beat_inv _ (snd (ws_send _ _))) =>
  simple apply beat_send : beat.
#[local] Hint Extern 1 (keeps beat_inv _ (set_nextTimer _ (set_timers _ _))) =>
  simple apply beat_arm; discriminate : beat.
#[local] Hint Extern 1 (keeps beat_inv _ (set_ws (Some _) _)) =>
  simple apply beat_set_ws; discriminate : beat.

Lemma beat_subscribeNext collections index s :
  keeps beat_inv s (subscribeNext collections index s).
Proof. unfold subscribeNext, setTimeout. cbn [fst snd]. repeat peel_beat. Qed.
#[local] Hint Extern 0 (keeps beat_inv _ (subscribeNext _ _ _)) =>
  simple apply beat_subscribeNext : beat.

Lemma beat_resubscribe s : keeps beat_inv s (resubscribeToCollections s).
Proof. unfold resubscribeToCollections. repeat peel_beat. Qed.
#[local] Hint Extern 0 (keeps beat_inv _ (resubscribeToCollections _)) =>
  simple apply beat_resubscribe : beat.

Lemma beat_loadSubscriptions s : keeps beat_inv s (loadSubscriptions s).
Proof.
  unfold loadSubscriptions. destruct (file s) as [data|]; [|apply keeps_refl].
  cbv zeta.
  match goal with
  | |- keeps _ _ (if _ then resubscribeToCollections ?t else _) =>
      assert (H : keeps beat_inv s t)
  end.
  { eapply keeps_trans;
      [|apply keeps_fold; intros; unfold load_filters; repeat peel_beat].
    eapply keeps_trans;
      [|apply keeps_fold; intros; unfold load_user, alloc; cbn [fst snd];
        repeat peel_beat].
    repeat peel_beat. }
  destruct (ws_is_open _); auto.
  eapply keeps_trans; [exact H|apply beat_resubscribe].
Qed.
#[local] Hint Extern 0 (keeps beat_inv _ (loadSubscriptions _)) =>
  simple apply beat_loadSubscriptions : beat.

Lemma beat_saveSubscriptions s : keeps beat_inv s (saveSubscriptions s).
Proof. unfold saveSubscriptions. repeat peel_beat. Qed.
#[local] Hint Extern 0 (keeps beat_inv _ (saveSubscriptions _)) =>
  simple apply beat_saveSubscriptions : beat.

Lemma beat_reconnect s : keeps beat_inv s (reconnect s).
Proof. unfold reconnect, setTimeout. cbn [fst snd]. repeat peel_beat. Qed.
#[local] Hint Extern 0 (keeps beat_inv _ (reconnect _)) =>
  simple apply beat_reconnect : beat.

(** Before a socket is created the heartbeat of the previous one is
    cleared, so a connecting socket has none. *)
Lemma beat_connecting s :
  keeps beat_inv s
    (set_ws (Some CONNECTING) (ws_terminate (clearTimer (heartbeatInterval s) s))).
Proof.
  unfold keeps, beat_inv, ws_terminate, clearTimer.
  intros (Hid & Hnd & Hhb & _).
  destruct (heartbeatInterval s) as [id|] eqn:E; fields; rewrite ?E.
  - split; [|split; [|split]].
    + intros t [Ht _]%cancel_In. auto.
    + now apply cancel_ids.
    + intros t [Ht _]%cancel_In. auto.
    + intros _ t [Ht Hne]%cancel_In Ha. apply Hhb in Ha; auto. congruence.
  - repeat split; auto.
    intros _ t Ht Ha. apply Hhb in Ha; auto. discriminate.
Qed.

Lemma beat_connectToOpenSea s : keeps beat_inv s (connectToOpenSea s).
Proof.
  unfold connectToOpenSea. destruct (ws_is_open s); [apply keeps_refl|].
  unfold setTimeout. cbn [fst snd].
  do 3 peel_beat.
  match goal with
  | |- keeps _ _ (set_ws _ (ws_terminate (clearTimer _ ?t))) =>
      apply (keeps_trans _ _ t); [repeat peel_beat|apply beat_connecting]
  end.
Qed.
#[local] Hint Extern 0 (keeps beat_inv _ (connectToOpenSea _)) =>
  simple apply beat_connectToOpenSea : beat.

(** The open handler arms the heartbeat of a socket that had none. *)
Lemma beat_on_open s :
  ws s = Some CONNECTING -> keeps beat_inv s (on_open (set_ws (Some OPEN) s)).
Proof.
  intros Hws (Hid & Hnd & Hhb & Hnone).
  specialize (Hnone (or_intror Hws)).
  unfold on_open, setTimeout, clearTimer. cbn [fst snd]. fields.
  set (old := match connectionTimeout s with
              | Some id => cancel id (timers s)
              | None => timers s
              end).
  assert (Hold : forall t, In t old -> In t (timers s)).
  { subst old. destruct (connectionTimeout s); auto.
    now intros t [Ht _]%cancel_In. }
  assert (Hnd' : NoDup (map t_id old)).
  { subst old. destruct (connectionTimeout s); auto. now apply cancel_ids. }
  assert (Hfresh : forall k, (nextTimer s <= k)%nat -> ~ In k (map t_id old)).
  { intros k Hk (x & E & Hx)%in_map_iff. apply Hold, Hid in Hx. lia. }
  unfold beat_inv.
  destruct (connectionTimeout s); fold old; fields;
    (split; [|split; [|split]]).
  all: try (intros [H|H]; discriminate).
  all: try (intros t [[[Ht|[<-|[]]]%in_app_iff|[<-|[]]]%in_app_iff|[<-|[]]]%in_app_iff;
            cbn; try lia; apply Hold, Hid in Ht; lia).
  all: try (intros t [[[Ht|[<-|[]]]%in_app_iff|[<-|[]]]%in_app_iff|[<-|[]]]%in_app_iff;
            cbn; try discriminate; auto; intros Ha;
            now apply Hold, Hnone in Ht).
  all: rewrite !map_app; cbn [map t_id];
    repeat apply NoDup_snoc; auto;
    rewrite ?in_app_iff; cbn [In];
    intros H; repeat destruct H as [H|H]; try lia;
    try (apply Hfresh in H; auto; lia).
Qed.

Lemma beat_on_error s : keeps beat_inv s (on_error s).
Proof. unfold on_error. repeat peel_beat. Qed.

Lemma beat_on_close s : keeps beat_inv s (on_close s).
Proof. unfold on_close. repeat peel_beat. Qed.

Lemma beat_on_message data s : keeps beat_inv s (on_message data s).
Proof.
  unfold on_message. cbv zeta.
  match goal with
  | |- keeps _ _ (fold_left _ _ ?t) => apply (keeps_trans _ _ t)
  end.
  - match goal with
    | |- keeps _ _ (fold_left _ _ ?t) => apply (keeps_trans _ _ t)
    end.
    + peel_beat. unfold main_listener. repeat peel_beat.
      rewrite handleOpenSeaEvent_exact. repeat peel_beat.
    + apply keeps_fold. intros. apply beat_clearTimer.
  - apply keeps_fold. intros t p _. unfold resume_subscribe. repeat peel_beat.
Qed.

Lemma beat_subscriptions_array userId s :
  keeps beat_inv s (snd (subscriptions_array userId s)).
Proof.
  unfold subscriptions_array, alloc.
  destruct (JsMap.get userId (userSubscriptions s)); cbn [snd]; repeat peel_beat.
Qed.

Lemma beat_cmd_subscribe userId args s :
  keeps beat_inv s (cmd_subscribe userId args s).
Proof.
  unfold cmd_subscribe.
  destruct args as [|slug eventArgs]; [repeat peel_beat|].
  destruct (String.length slug =? 0)%nat; [repeat peel_beat|].
  destruct (negb _); [repeat peel_beat|].
  destruct (requested_events eventArgs) as [userEvents|e]; [|repeat peel_beat].
  generalize (beat_subscriptions_array userId s).
  destruct (subscriptions_array userId s) as [a s0]. cbn [snd]. intros H0.
  apply (keeps_trans _ _ _ _ H0).
  destruct (3 <=? _)%nat; [repeat peel_beat|].
  destruct (includes _ _); [repeat peel_beat|].
  cbv zeta. destruct (ws_is_open _); [|repeat peel_beat].
  match goal with
  | |- context [ws_send ?f ?t] =>
      generalize (beat_send f t); destruct (ws_send f t) as [threw s2]
  end.
  cbn [snd]. intros Hs.
  apply (keeps_trans _ _ s2).
  - eapply keeps_trans; [|exact Hs]. repeat peel_beat.
  - destruct threw; unfold setTimeout; cbn [fst snd]; repeat peel_beat.
Qed.

Lemma beat_unsubscribe_done userId s : keeps beat_inv s (unsubscribe_done userId s).
Proof. unfold unsubscribe_done. repeat peel_beat. Qed.
#[local] Hint Extern 0 (keeps beat_inv _ (unsubscribe_done _ _)) =>
  simple apply beat_unsubscribe_done : beat.

Lemma beat_cmd_unsubscribe userId args s :
  keeps beat_inv s (cmd_unsubscribe userId args s).
Proof.
  unfold cmd_unsubscribe.
  destruct args as [|slug rest]; [repeat peel_beat|].
  destruct (String.length slug =? 0)%nat; [repeat peel_beat|].
  destruct (negb (isValidCollectionSlug _)); [repeat peel_beat|].
  destruct (negb (includes _ _)); [repeat peel_beat|].
  unfold alloc. cbn [fst snd].
  destruct (still_subscribed _ _); [repeat peel_beat|].
  destruct (ws_is_open _); [|repeat peel_beat].
  destruct (JsMap.get slug _) as [ref|]; [|repeat peel_beat].
  destruct (ref =? 0); [repeat peel_beat|].
  match goal with
  | |- context [ws_send ?f ?t] =>
      generalize (beat_send f t); destruct (ws_send f t) as [threw s2]
  end.
  cbn [snd]. intros Hs.
  apply (keeps_trans _ _ s2).
  - eapply keeps_trans; [|exact Hs]. repeat peel_beat.
  - destruct threw; repeat peel_beat.
Qed.

Lemma beat_add_collection_modal userId slug s :
  keeps beat_inv s (add_collection_modal userId slug s).
Proof.
  unfold add_collection_modal.
  destruct (negb _); [repeat peel_beat|].
  generalize (beat_subscriptions_array userId s).
  destruct (subscriptions_array userId s) as [a s0]. cbn [snd]. intros H0.
  apply (keeps_trans _ _ _ _ H0). repeat peel_beat.
Qed.

Lemma beat_run_timer action s : keeps beat_inv s (run_timer action s).
Proof.
  destruct action; cbn [run_timer].
  - destruct (ws s) as [[]|]; repeat peel_beat.
  - apply beat_send.
  - destruct (isWsConnected s && ws_is_open s); [|apply keeps_refl].
    generalize (beat_send heartbeat_frame s).
    destruct (ws_send heartbeat_frame s) as [threw s1]. cbn [snd]. intros H.
    destruct threw; auto.
    eapply keeps_trans; [exact H|apply beat_reconnect].
  - repeat peel_beat.
  - apply beat_subscribeNext.
  - apply beat_connectToOpenSea.
  - repeat peel_beat.
  - unfold ack_timeout. repeat peel_beat.
Qed.

(** A timer that fires leaves the queue; an interval comes back under
    its own handle. *)
Lemma beat_fire id s : keeps beat_inv s (fire id s).
Proof.
  unfold fire.
  destruct (find _ (timers s)) as [t|] eqn:Ef; [|apply keeps_refl].
  destruct (t_due t <=? now s); [|apply keeps_refl].
  eapply keeps_trans; [|apply beat_run_timer].
  apply find_timer in Ef as [Hin Hid].
  unfold keeps, beat_inv. fields. intros (Hfresh & Hnd & Hhb & Hws).
  assert (Hagain : forall t',
             In t' (match period (t_action t) with
                    | Some p => [{| t_id := id; t_due := now s + p;
                                    t_action := t_action t |}]
                    | None => []
                    end) ->
             t_id t' = id /\ t_action t' = t_action t).
  { intros t' Ht'. destruct (period (t_action t)); [|contradiction].
    destruct Ht' as [<-|[]]. auto. }
  split; [|split; [|split]].
  - intros t' [[Ht' _]%cancel_In|Ht']%in_app_iff; auto.
    apply Hagain in Ht' as [-> _]. subst id. auto.
  - rewrite map_app. destruct (period (t_action t)); cbn [map t_id].
    + apply NoDup_snoc; [now apply cancel_ids|].
      intros (x & E & [_ Hx]%cancel_In)%in_map_iff. congruence.
    + rewrite app_nil_r. now apply cancel_ids.
  - intros t' [[Ht' _]%cancel_In|Ht']%in_app_iff Ha; auto.
    apply Hagain in Ht' as [-> Et]. rewrite Et in Ha. subst id. auto.
  - intros Hw t' [[Ht' _]%cancel_In|Ht']%in_app_iff; auto.
    apply Hagain in Ht' as [_ ->]. auto.
Qed.

Lemma beat_step e s : keeps beat_inv s (step e s).
Proof.
  destruct e; cbn [step].
  - unfold on_ready, setTimeout. cbn [fst snd]. repeat peel_beat.
  - repeat peel_beat.
  - apply beat_fire.
  - repeat peel_beat.
  - destruct (ws s) as [[]|] eqn:E; try apply keeps_refl. now apply beat_on_open.
  - destruct (ws s) as [[]|]; try apply keeps_refl;
      (eapply keeps_trans; [|apply beat_on_error]); repeat peel_beat.
  - destruct (ws s) as [[]|]; try apply keeps_refl;
      (eapply keeps_trans; [|apply beat_on_close]); repeat peel_beat.
  - destruct (ws s) as [[]|]; try apply keeps_refl; apply beat_on_message.
  - apply beat_cmd_subscribe.
  - apply beat_cmd_unsubscribe.
  - unfold clear_confirm. repeat peel_beat.
  - unfold remove_collection, alloc. cbn [fst snd]. repeat peel_beat.
  - unfold event_filters_menu. repeat peel_beat.
  - unfold filter_button. repeat peel_beat.
  - apply beat_add_collection_modal.
Qed.

Lemma reachable_beat_inv s : reachable s -> beat_inv s.
Proof.
  intros (f & trace & ->). unfold run.
  apply (keeps_fold beat_inv (fun s e => step e s)).
  - intros t e _. apply beat_step.
  - unfold beat_inv. cbn. repeat split; try constructor; intros; contradiction.
Qed.

Lemma at_most_one (p : timer -> bool) (handle : option nat) (l : list timer) :
  NoDup (map t_id l) ->
  (forall t, In t l -> p t = true -> handle = Some (t_id t)) ->
  (List.length (filter p l) <= 1)%nat.
Proof.
  intros Hnd Hp. induction l as [|t l IH]; cbn [filter]; [cbn; lia|].
  inversion Hnd as [|? ? Hnin Hnd']; subst.
  destruct (p t) eqn:Et.
  - rewrite (filter_none p l); [cbn; lia|].
    intros x Hx. destruct (p x) eqn:Ex; auto. exfalso.
    apply Hnin, in_map_iff. exists x. split; auto.
    assert (E1 : handle = Some (t_id t)) by (apply Hp; cbn; auto).
    assert (E2 : handle = Some (t_id x)) by (apply Hp; cbn; auto).
    congruence.
  - apply IH; auto. intros x Hx. apply Hp. now right.
Qed.

(** X15.  Timers never pile up in the supervisor: in every reachable
    state no two armed timers share a handle, at most one heartbeat
    interval and at most one reconnection are armed, and a socket that is
    still connecting has no heartbeat. *)
Theorem one_heartbeat_one_reconnection (s : State) :
  reachable s ->
  NoDup (map t_id (timers s))
  /\ (List.length (filter is_beat (timers s)) <= 1)%nat
  /\ (List.length (filter is_reconnect (timers s)) <= 1)%nat
  /\ (ws s = Some CONNECTING -> filter is_beat (timers s) = []).
Proof.
  intros Hreach.
  pose proof (reachable_beat_inv s Hreach) as (_ & Hnd & Hhb & Hws).
  pose proof (reachable_timers_inv s Hreach) as (_ & Hre & _).
  split; [exact Hnd|]. split; [|split].
  - apply (at_most_one _ (heartbeatInterval s)); auto.
    intros t Ht Hp. apply Hhb; auto.
    unfold is_beat in Hp. now destruct (t_action t).
  - apply (at_most_one _ (reconnectTimeout s)); auto.
    intros t Ht Hp. apply Hre; auto.
    unfold is_reconnect in Hp. now destruct (t_action t).
  - intros Hc. apply filter_none. intros t Ht.
    unfold is_beat. destruct (t_action t) eqn:Ea; auto.
    now apply (Hws (or_intror Hc)) in Ea.
Qed.

Lemma one_heartbeat_one_reconnection_witness :
  reachable two_connections
  /\ map t_action (timers two_connections) = [TRotation; THeartbeat]
  /\ (List.length (filter is_beat (timers two_connections)) <= 1)%nat.
Proof.
  assert (Hreach : reachable two_connections)
    by (exists None, reconnect_cycle; reflexivity).
  split; [exact Hreach|]. split; [reflexivity|].
  apply (one_heartbeat_one_reconnection two_connections Hreach).
Defined.

(** ** Arrays are not shared *)

Create HintDb own.

Lemma reg_same s t t' :
  userSubscriptions t' = userSubscriptions t -> arrays t' = arrays t ->
  awaiting t' = awaiting t -> currentRef t' = currentRef t ->
  eventFilters t' = eventFilters t ->
  keeps reg_inv s t -> keeps reg_inv s t'.
Proof.
  unfold keeps, reg_inv, store_inv, own_inv, owned_by.
  intros -> -> -> -> ->. auto.
Qed.

Ltac peel_own := peel_by reg_same ltac:(auto with own).

Lemma owned_by_same userId a s t :
  userSubscriptions t = userSubscriptions s -> awaiting t = awaiting s ->
  (List.length (arrays s) <= List.length (arrays t))%nat ->
  owned_by userId a s -> owned_by userId a t.
Proof.
  unfold owned_by. intros -> -> Hl (H1 & H2 & H3). repeat split; auto. lia.
Qed.

(** A transition that keeps the store and leaves the users' entries, the
    suspended commands and the filters as they are. *)
Lemma reg_of_store s s' :
  keeps_store s s' ->
  userSubscriptions s' = userSubscriptions s -> awaiting s' = awaiting s ->
  eventFilters s' = eventFilters s ->
  keeps reg_inv s s'.
Proof.
  intros Hk Hu Hw Hf (Hs & Ha & Hp & Hnd).
  destruct (Hk Hs) as (Hs' & _ & Hl). split; [exact Hs'|].
  unfold own_inv. rewrite Hu, Hw, Hf. split; [|split; [|exact Hnd]].
  - intros u a Hin. apply (owned_by_same u a s); auto.
  - intros p Hin. apply (owned_by_same _ _ s); auto.
Qed.

Lemma own_say userId r s : keeps reg_inv s (say userId r s).
Proof. unfold say. repeat peel_own. Qed.

Lemma own_clearTimer handle s : keeps reg_inv s (clearTimer handle s).
Proof. unfold clearTimer. repeat peel_own. Qed.

Lemma own_ws_terminate s : keeps reg_inv s (ws_terminate s).
Proof. unfold ws_terminate. repeat peel_own. Qed.

Lemma own_send f s : keeps reg_inv s (snd (ws_send f s)).
Proof.
  destruct (ws_send_cases f s) as [E|[E|E]]; rewrite E; cbn [snd];
    repeat peel_own.
Qed.

Lemma own_arm id due action s :
  keeps reg_inv s
    (set_nextTimer id
       (set_timers (timers s ++ [{| t_id := nextTimer s; t_due := due;
                                    t_action := action |}]) s)).
Proof.
  match goal with
  | |- keeps _ ?s (set_nextTimer _ ?t) =>
      apply (reg_same s t); [fields; reflexivity ..|];
      apply (reg_same s s); [fields; reflexivity ..|apply keeps_refl]
  end.
Qed.

Lemma own_alloc l s : keeps reg_inv s (set_arrays (arrays s ++ [l]) s).
Proof. apply reg_of_store; [apply keeps_store_alloc|reflexivity ..]. Qed.

Lemma own_push a x s : keeps reg_inv s (push a x s).
Proof. apply reg_of_store; [apply keeps_store_push|reflexivity ..]. Qed.

Lemma own_bump s : keeps reg_inv s (set_currentRef (currentRef s + 1) s).
Proof. apply reg_of_store; [apply keeps_store_bump|reflexivity ..]. Qed.

Lemma own_filters (filters : JsMap.t (list string)) s :
  (reg_inv s -> NoDup (map fst filters)) ->
  keeps reg_inv s (set_eventFilters filters s).
Proof.
  intros Hf Hinv. specialize (Hf Hinv). destruct Hinv as (Hs & Ha & Hp & _).
  split; [exact Hs|].
  unfold own_inv. fields. split; [|split; [|exact Hf]].
  - intros u a Hin. exact (Ha u a Hin).
  - intros p Hin. exact (Hp p Hin).
Qed.

(** Entries that go away take no owner with them. *)
Lemma own_fewer s t :
  (forall u a, In (u, a) (userSubscriptions t) -> In (u, a) (userSubscriptions s)) ->
  (forall p, In p (awaiting t) -> In p (awaiting s)) ->
  (List.length (arrays s) <= List.length (arrays t))%nat ->
  eventFilters t = eventFilters s ->
  own_inv s -> own_inv t.
Proof.
  intros Hu Hw Hl Hf (Ha & Hp & Hnd). unfold own_inv. rewrite Hf.
  assert (Hless : forall u a, owned_by u a s -> owned_by u a t).
  { intros u a (O1 & O2 & O3). unfold owned_by. split; [|split].
    - intros v Hv. auto.
    - intros p Hin. auto.
    - lia. }
  split; [|split; [|exact Hnd]].
  - intros u a Hin. auto.
  - intros p Hin. auto.
Qed.

Lemma own_users_clear s : keeps reg_inv s (set_userSubscriptions [] s).
Proof.
  intros (Hs & Ho). split; [now apply keeps_store_clear_users|].
  revert Ho. apply own_fewer; fields; auto. intros u a [].
Qed.

Lemma own_users_delete userId s :
  keeps reg_inv s
    (set_userSubscriptions (JsMap.delete userId (userSubscriptions s)) s).
Proof.
  intros (Hs & Ho). split; [now apply keeps_store_delete_user|].
  revert Ho. apply own_fewer; fields; auto.
  intros u a. apply delete_entry_In.
Qed.

Lemma own_drop (keep : pending -> bool) s :
  keeps reg_inv s (set_awaiting (filter keep (awaiting s)) s).
Proof.
  intros (Hs & Ho). split; [now apply keeps_store_drop|].
  revert Ho. apply own_fewer; fields; auto.
  now intros p [Hin _]%filter_In.
Qed.

(** A user's entry is set to an array that is the user's. *)
Lemma own_set_owned userId a s :
  (reg_inv s -> owned_by userId a s) ->
  keeps reg_inv s
    (set_userSubscriptions (JsMap.set userId a (userSubscriptions s)) s).
Proof.
  intros Hown Hinv. specialize (Hown Hinv).
  destruct Hinv as (Hs & Ha & Hp & Hnd). destruct Hown as (O1 & O2 & O3).
  split; [now apply keeps_store_set_user|].
  assert (Hentry : forall u b,
             In (u, b) (JsMap.set userId a (userSubscriptions s)) ->
             (u = userId /\ b = a) \/ In (u, b) (userSubscriptions s)).
  { intros u b [E|H]%set_In; [inversion E|]; auto. }
  unfold own_inv, owned_by. fields. split; [|split; [|exact Hnd]].
  - intros u b [[-> ->]|Hin]%Hentry; (split; [|split]); auto.
    + intros v [[-> _]|Hv]%Hentry; auto.
    + destruct (Ha u b Hin) as (A1 & _).
      intros v [[-> ->]|Hv]%Hentry; auto. symmetry. auto.
    + now destruct (Ha u b Hin) as (_ & A2 & _).
    + now destruct (Ha u b Hin) as (_ & _ & A3).
  - intros p Hin. destruct (Hp p Hin) as (P1 & P2 & P3).
    split; [|split]; auto.
    intros v [[-> E]|Hv]%Hentry; auto. symmetry. auto.
Qed.

#[local] Hint Extern 0 (keeps reg_inv _ (say _ _ _)) =>
  simple apply own_say : own.
#[local] Hint Extern 0 (keeps reg_inv _ (clearTimer _ _)) =>
  simple apply own_clearTimer : own.
#[local] Hint Extern 0 (keeps reg_inv _ (ws_terminate _)) =>
  simple apply own_ws_terminate : own.
#[local] Hint Extern 0 (keeps reg_inv _ (snd (ws_send _ _))) =>
  simple apply own_send : own.
#[local] Hint Extern 0 (keeps reg_inv _ (set_nextTimer _ (set_timers _ _))) =>
  simple apply own_arm : own.
#[local] Hint Extern 0 (keeps reg_inv _ (set_arrays (arrays _ ++ _) _)) =>
  simple apply own_alloc : own.
#[local] Hint Extern 0 (keeps reg_inv _ (push _ _ _)) =>
  simple apply own_push : own.
#[local] Hint Extern 0 (keeps reg_inv _ (set_currentRef (currentRef _ + 1) _)) =>
  simple apply own_bump : own.
#[local] Hint Extern 0 (keeps reg_inv _ (set_userSubscriptions [] _)) =>
  simple apply own_users_clear : own.
#[local] Hint Extern 0
  (keeps reg_inv _ (set_userSubscriptions (JsMap.delete _ _) _)) =>
  simple apply own_users_delete : own.
#[local] Hint Extern 0 (keeps reg_inv _ (set_awaiting (filter _ _) _)) =>
  simple apply own_drop : own.
#[local] Hint Extern 0 (keeps reg_inv _ (set_eventFilters [] _)) =>
  simple apply own_filters; constructor : own.
#[local] Hint Extern 0 (keeps reg_inv _ (set_eventFilters (JsMap.set _ _ _) _)) =>
  simple apply own_filters; intros (_ & _ & _ & ?);
  apply set_keys_NoDup; assumption : own.
#[local] Hint Extern 0 (keeps reg_inv _ (set_eventFilters (JsMap.delete _ _) _)) =>
  simple apply own_filters; intros (_ & _ & _ & ?);
  apply delete_keys_NoDup; assumption : own.

(** A user's entry is set to a new array. *)
Lemma own_replace userId l s :
  keeps reg_inv s
    (set_userSubscriptions
       (JsMap.set userId (List.length (arrays s)) (userSubscriptions s))
       (set_arrays (arrays s ++ [l]) s)).
Proof.
  intros Hinv. pose proof Hinv as ((_ & _ & Haddr & Haw & _) & _).
  apply (own_set_owned userId (List.length (arrays s))
           (set_arrays (arrays s ++ [l]) s)); [|now apply own_alloc].
  intros _. unfold owned_by. fields. split; [|split].
  - intros v Hv. apply Haddr in Hv. lia.
  - intros p Hp E. rewrite Forall_forall in Haw. apply Haw in Hp. lia.
  - rewrite length_app. cbn. lia.
Qed.

Lemma own_subscribeNext collections index s :
  keeps reg_inv s (subscribeNext collections index s).
Proof. unfold subscribeNext, setTimeout. cbn [fst snd]. repeat peel_own. Qed.
#[local] Hint Extern 0 (keeps reg_inv _ (subscribeNext _ _ _)) =>
  simple apply own_subscribeNext : own.

Lemma own_resubscribe s : keeps reg_inv s (resubscribeToCollections s).
Proof. unfold resubscribeToCollections. repeat peel_own. Qed.
#[local] Hint Extern 0 (keeps reg_inv _ (resubscribeToCollections _)) =>
  simple apply own_resubscribe : own.

Lemma own_load_user s entry : keeps reg_inv s (load_user s entry).
Proof.
  unfold load_user, alloc. destruct (0 <? _)%nat; [|apply keeps_refl].
  cbn [fst snd]. fields. peel_own. apply own_replace.
Qed.

Lemma own_load_filters s entry : keeps reg_inv s (load_filters s entry).
Proof. unfold load_filters. repeat peel_own. Qed.

Lemma own_loadSubscriptions s : keeps reg_inv s (loadSubscriptions s).
Proof.
  unfold loadSubscriptions. destruct (file s) as [data|]; [|apply keeps_refl].
  cbv zeta.
  match goal with
  | |- keeps _ _ (if _ then resubscribeToCollections ?t else _) =>
      assert (H : keeps reg_inv s t)
  end.
  { eapply keeps_trans;
      [|apply keeps_fold; intros; apply own_load_filters].
    eapply keeps_trans;
      [|apply keeps_fold; intros; apply own_load_user].
    repeat peel_own. }
  destruct (ws_is_open _); auto.
  eapply keeps_trans; [exact H|apply own_resubscribe].
Qed.
#[local] Hint Extern 0 (keeps reg_inv _ (loadSubscriptions _)) =>
  simple apply own_loadSubscriptions : own.

Lemma own_saveSubscriptions s : keeps reg_inv s (saveSubscriptions s).
Proof. unfold saveSubscriptions. repeat peel_own. Qed.
#[local] Hint Extern 0 (keeps reg_inv _ (saveSubscriptions _)) =>
  simple apply own_saveSubscriptions : own.

Lemma own_reconnect s : keeps reg_inv s (reconnect s).
Proof. unfold reconnect, setTimeout. cbn [fst snd]. repeat peel_own. Qed.
#[local] Hint Extern 0 (keeps reg_inv _ (reconnect _)) =>
  simple apply own_reconnect : own.

Lemma own_connectToOpenSea s : keeps reg_inv s (connectToOpenSea s).
Proof. unfold connectToOpenSea, setTimeout. cbn [fst snd]. repeat peel_own. Qed.
#[local] Hint Extern 0 (keeps reg_inv _ (connectToOpenSea _)) =>
  simple apply own_connectToOpenSea : own.

Lemma own_main_listener data s : keeps reg_inv s (main_listener data s).
Proof.
  unfold main_listener. repeat peel_own.
  rewrite handleOpenSeaEvent_exact. repeat peel_own.
Qed.

(** A suspended command resumes on its own array. *)
Lemma own_resume_subscribe s p :
  owned_by (p_user p) (p_array p) s ->
  keeps reg_inv s (resume_subscribe s p).
Proof.
  intros Hp. unfold resume_subscribe. do 2 peel_own.
  match goal with
  | |- keeps _ _ (set_userSubscriptions _ ?t) =>
      apply (keeps_trans _ _ t); [apply own_push|]
  end.
  apply own_set_owned. intros _. revert Hp.
  apply owned_by_same; unfold push; fields; auto.
  rewrite update_nth_length. lia.
Qed.

(** Refs tell suspended commands apart, so a frame resolves one of them
    at most. *)
Lemma one_key {A K : Type} (key : A -> K) (p : A -> bool) (k : K) (l : list A) :
  NoDup (map key l) ->
  (forall x, In x l -> p x = true -> key x = k) ->
  filter p l = [] \/ exists x, In x l /\ filter p l = [x].
Proof.
  intros Hnd Hp. induction l as [|x l IH]; cbn [filter]; [now left|].
  inversion Hnd as [|? ? Hnin Hnd']; subst.
  destruct (p x) eqn:Ex.
  - right. exists x. split; [now left|]. f_equal.
    apply filter_none. intros y Hy. destruct (p y) eqn:Ey; auto. exfalso.
    apply Hnin, in_map_iff. exists y. split; auto.
    rewrite (Hp x), (Hp y); cbn; auto.
  - destruct IH as [->|(y & Hy & ->)]; auto.
    + intros y Hy. apply Hp. now right.
    + right. exists y. split; [now right|reflexivity].
Qed.

Lemma ack_resolves_one data s :
  NoDup (map p_ref (awaiting s)) ->
  filter (ack_matches data s) (awaiting s) = []
  \/ exists p, In p (awaiting s)
               /\ filter (ack_matches data s) (awaiting s) = [p].
Proof.
  intros Hnd. destruct (data_ref data) as [r|] eqn:Er.
  - apply (one_key p_ref _ r); auto.
    intros p _ Hm. unfold ack_matches in Hm. rewrite Er in Hm.
    apply andb_prop in Hm as [_ Hm]. apply Z.eqb_eq in Hm. auto.
  - left. apply filter_none. intros p _. unfold ack_matches. rewrite Er.
    apply andb_false_r.
Qed.

Lemma own_on_message data s : keeps reg_inv s (on_message data s).
Proof.
  intros Hinv. apply (own_main_listener data) in Hinv. revert Hinv.
  unfold on_message. cbv zeta. generalize (main_listener data s).
  clear s. intros s Hinv.
  pose proof Hinv as ((_ & _ & _ & _ & Hnd) & _ & Hp & _).
  set (s1 := set_awaiting _ s).
  assert (H1 : reg_inv s1) by now apply own_drop.
  destruct (ack_resolves_one data s Hnd) as [->|(p & Hin & ->)];
    cbn [fold_left]; [exact H1|].
  apply own_resume_subscribe; [|now apply own_clearTimer].
  specialize (Hp p Hin). destruct Hp as (P1 & P2 & P3).
  unfold owned_by, clearTimer. subst s1. fields. split; [|split]; auto.
  intros q [Hq _]%filter_In. auto.
Qed.

Lemma own_ack_timeout ref s : keeps reg_inv s (ack_timeout ref s).
Proof. unfold ack_timeout. repeat peel_own. Qed.

(** The array a subscribe handler works on is its user's. *)
Lemma subscriptions_array_own userId s :
  reg_inv s ->
  reg_inv (snd (subscriptions_array userId s))
  /\ owned_by userId (fst (subscriptions_array userId s))
       (snd (subscriptions_array userId s)).
Proof.
  intros Hinv. pose proof Hinv as ((_ & _ & Haddr & Haw & _) & Ha & _).
  unfold subscriptions_array.
  destruct (JsMap.get userId (userSubscriptions s)) as [a|] eqn:E; cbn [fst snd].
  - split; [exact Hinv|]. apply Ha. now apply get_in.
  - unfold alloc. cbn [fst snd]. split; [now apply own_alloc|].
    unfold owned_by. fields. split; [|split].
    + intros v Hv. apply Haddr in Hv. lia.
    + intros p Hp Ep. rewrite Forall_forall in Haw. apply Haw in Hp. lia.
    + rewrite length_app. cbn. lia.
Qed.

(** A subscribe command suspends on its user's array. *)
Lemma reg_suspend s t p :
  reg_inv s ->
  userSubscriptions t = userSubscriptions s ->
  arrays t = arrays s ->
  awaiting t = awaiting s ++ [p] ->
  currentRef t = currentRef s + 1 ->
  NoDup (map fst (eventFilters t)) ->
  owned_by (p_user p) (p_array p) s ->
  p_ref p = currentRef s + 1 ->
  reg_inv t.
Proof.
  intros (Hs & Ha & Hp & _) Hu Harr Hw Hc Hf (O1 & O2 & O3) Hr.
  split; [now apply (store_inv_suspend s t p)|].
  unfold own_inv, owned_by. rewrite Hu, Harr, Hw. split; [|split; [|exact Hf]].
  - intros u a Hin. destruct (Ha u a Hin) as (A1 & A2 & A3).
    split; [|split]; auto.
    intros q [Hq|[<-|[]]]%in_app_iff E; auto.
    subst a. symmetry. auto.
  - intros q [Hq|[<-|[]]]%in_app_iff.
    + destruct (Hp q Hq) as (P1 & P2 & P3). split; [|split]; auto.
      intros q' [Hq'|[<-|[]]]%in_app_iff E; auto.
      symmetry. auto.
    + split; [|split]; auto.
      intros q' [Hq'|[<-|[]]]%in_app_iff E; auto.
Qed.

Lemma own_cmd_subscribe userId args s :
  keeps reg_inv s (cmd_subscribe userId args s).
Proof.
  unfold cmd_subscribe.
  destruct args as [|slug eventArgs]; [repeat peel_own|].
  destruct (String.length slug =? 0)%nat; [repeat peel_own|].
  destruct (negb _); [repeat peel_own|].
  destruct (requested_events eventArgs) as [userEvents|e]; [|repeat peel_own].
  intros Hinv. destruct (subscriptions_array_own userId s Hinv) as (H0 & Hown).
  destruct (subscriptions_array userId s) as [a s0]. cbn [fst snd] in *.
  clear Hinv. revert H0. as_keeps.
  destruct (3 <=? _)%nat; [repeat peel_own|].
  destruct (includes _ _); [repeat peel_own|].
  cbv zeta. intros H0.
  set (s1 := set_activeCollections _ _).
  assert (H1 : reg_inv s1) by (revert H0; subst s1; as_keeps; repeat peel_own).
  assert (Hown1 : owned_by userId a s1).
  { revert Hown. apply owned_by_same; subst s1; fields; auto. }
  destruct (ws_is_open s1).
  - match goal with
    | |- context [ws_send ?f s1] =>
        destruct (ws_send_cases f s1) as [E|[E|E]]; rewrite E
    end.
    + revert H1. as_keeps. repeat peel_own.
    + unfold setTimeout. cbn [fst snd]. fields.
      eapply (reg_suspend s0); [exact H0|subst s1; fields; reflexivity ..| | |].
      * destruct H0 as (_ & _ & _ & Hnd). subst s1. fields.
        now apply set_keys_NoDup.
      * exact Hown.
      * subst s1. reflexivity.
    + unfold setTimeout. cbn [fst snd]. fields.
      eapply (reg_suspend s0); [exact H0|subst s1; fields; reflexivity ..| | |].
      * destruct H0 as (_ & _ & _ & Hnd). subst s1. fields.
        now apply set_keys_NoDup.
      * exact Hown.
      * subst s1. reflexivity.
  - revert H1. as_keeps. do 3 peel_own.
    match goal with
    | |- keeps _ _ (set_userSubscriptions _ ?t) =>
        apply (keeps_trans _ _ t); [repeat peel_own|]
    end.
    apply own_set_owned. intros _. revert Hown1.
    apply owned_by_same; unfold push; fields; auto.
    rewrite update_nth_length. lia.
Qed.

Lemma own_unsubscribe_done userId s : keeps reg_inv s (unsubscribe_done userId s).
Proof. unfold unsubscribe_done. repeat peel_own. Qed.
#[local] Hint Extern 0 (keeps reg_inv _ (unsubscribe_done _ _)) =>
  simple apply own_unsubscribe_done : own.

Lemma own_cmd_unsubscribe userId args s :
  keeps reg_inv s (cmd_unsubscribe userId args s).
Proof.
  unfold cmd_unsubscribe.
  destruct args as [|slug rest]; [repeat peel_own|].
  destruct (String.length slug =? 0)%nat; [repeat peel_own|].
  destruct (negb (isValidCollectionSlug _)); [repeat peel_own|].
  destruct (negb (includes _ _)); [repeat peel_own|].
  unfold alloc. cbn [fst snd]. fields.
  eapply keeps_trans;
    [apply (own_replace userId (without slug (subs_of s userId)))|].
  set (s1 := set_userSubscriptions _ _).
  destruct (still_subscribed _ _); [repeat peel_own|].
  cbv zeta. destruct (ws_is_open _); [|repeat peel_own].
  destruct (JsMap.get slug _) as [ref|]; [|repeat peel_own].
  destruct (ref =? 0); [repeat peel_own|].
  match goal with
  | |- context [ws_send ?f ?t] =>
      generalize (own_send f t); destruct (ws_send f t) as [threw s2]
  end.
  cbn [snd]. intros Hs.
  apply (keeps_trans _ _ s2).
  - eapply keeps_trans; [|exact Hs]. repeat peel_own.
  - destruct threw; repeat peel_own.
Qed.

Lemma own_add_collection_modal userId slug s :
  keeps reg_inv s (add_collection_modal userId slug s).
Proof.
  unfold add_collection_modal.
  destruct (negb _); [repeat peel_own|].
  intros Hinv. destruct (subscriptions_array_own userId s Hinv) as (H0 & Hown).
  destruct (subscriptions_array userId s) as [a s0]. cbn [fst snd] in *.
  clear Hinv. revert H0. as_keeps.
  destruct (3 <=? _)%nat; [repeat peel_own|].
  destruct (includes _ _); [repeat peel_own|].
  do 2 peel_own.
  match goal with
  | |- keeps _ _ (set_userSubscriptions _ ?t) =>
      apply (keeps_trans _ _ t); [repeat peel_own|]
  end.
  apply own_set_owned. intros _. revert Hown.
  apply owned_by_same; unfold push; fields; auto.
  rewrite update_nth_length. lia.
Qed.

Lemma own_run_timer action s : keeps reg_inv s (run_timer action s).
Proof.
  destruct action; cbn [run_timer].
  - destruct (ws s) as [[]|]; repeat peel_own.
  - apply own_send.
  - destruct (isWsConnected s && ws_is_open s); [|apply keeps_refl].
    generalize (own_send heartbeat_frame s).
    destruct (ws_send heartbeat_frame s) as [threw s1]. cbn [snd]. intros H.
    destruct threw; auto.
    eapply keeps_trans; [exact H|apply own_reconnect].
  - repeat peel_own.
  - apply own_subscribeNext.
  - apply own_connectToOpenSea.
  - repeat peel_own.
  - apply own_ack_timeout.
Qed.

Lemma own_step e s : keeps reg_inv s (step e s).
Proof.
  destruct e; cbn [step].
  - unfold on_ready, setTimeout. cbn [fst snd]. repeat peel_own.
  - repeat peel_own.
  - unfold fire.
    destruct (find _ (timers s)) as [t|]; [|apply keeps_refl].
    destruct (t_due t <=? now s); [|apply keeps_refl].
    eapply keeps_trans; [|apply own_run_timer]. repeat peel_own.
  - repeat peel_own.
  - destruct (ws s) as [[]|]; try apply keeps_refl.
    unfold on_open, setTimeout. cbn [fst snd]. repeat peel_own.
  - destruct (ws s) as [[]|]; try apply keeps_refl;
      unfold on_error; repeat peel_own.
  - destruct (ws s) as [[]|]; try apply keeps_refl;
      unfold on_close; repeat peel_own.
  - destruct (ws s) as [[]|]; try apply keeps_refl; apply own_on_message.
  - apply own_cmd_subscribe.
  - apply own_cmd_unsubscribe.
  - unfold clear_confirm. repeat peel_own.
  - unfold remove_collection, alloc. cbn [fst snd]. fields.
    do 2 peel_own. apply own_replace.
  - unfold event_filters_menu. repeat peel_own.
  - unfold filter_button. repeat peel_own.
  - apply own_add_collection_modal.
Qed.

Lemma reachable_reg_inv s : reachable s -> reg_inv s.
Proof.
  intros (f & trace & ->). unfold run.
  apply (keeps_fold reg_inv (fun s e => step e s)).
  - intros t e _. apply own_step.
  - split.
    + apply (reachable_store_inv (init f)). now exists f, [].
    + unfold own_inv. cbn. repeat split; try constructor; intros; contradiction.
Qed.

(** ** One user's commands and another user's registry *)

Lemma get_delete_other {V : Type} k k' (m : list (string * V)) :
  k' <> k -> JsMap.get k' (JsMap.delete k m) = JsMap.get k' m.
Proof.
  intros Hne. unfold JsMap.delete.
  induction m as [|[k0 v0] m IH]; cbn [filter JsMap.get fst]; auto.
  destruct (String.eqb_spec k k0) as [->|_]; cbn [negb JsMap.get].
  - destruct (String.eqb_spec k' k0); [congruence|auto].
  - now rewrite IH.
Qed.

Lemma nth_update_nth_other {A : Type} n m (f : A -> A) (l : list A) d :
  n <> m -> nth n (update_nth m f l) d = nth n l d.
Proof.
  revert n m. induction l as [|x l IH]; intros [|n] [|m] H; cbn; auto;
    try congruence.
Qed.

Section Apart.
Variables (other : string) (subscriptions : list string).
Variable kinds : option (list string).

Create HintDb hold.

Lemma hold_same s t t' :
  userSubscriptions t' = userSubscriptions t -> arrays t' = arrays t ->
  eventFilters t' = eventFilters t ->
  keeps (holds other subscriptions kinds) s t ->
  keeps (holds other subscriptions kinds) s t'.
Proof. unfold keeps, holds, subs_of, deref. intros -> -> ->. auto. Qed.

Ltac peel_hold := peel_by hold_same ltac:(auto with hold).

Lemma hold_say userId r s :
  keeps (holds other subscriptions kinds) s (say userId r s).
Proof. unfold say. repeat peel_hold. Qed.

Lemma hold_send f s :
  keeps (holds other subscriptions kinds) s (snd (ws_send f s)).
Proof.
  destruct (ws_send_cases f s) as [E|[E|E]]; rewrite E; cbn [snd];
    repeat peel_hold.
Qed.

Lemma hold_arm id due action s :
  keeps (holds other subscriptions kinds) s
    (set_nextTimer id
       (set_timers (timers s ++ [{| t_id := nextTimer s; t_due := due;
                                    t_action := action |}]) s)).
Proof.
  match goal with
  | |- keeps _ ?s (set_nextTimer _ ?t) =>
      apply (hold_same s t); [fields; reflexivity ..|];
      apply (hold_same s s); [fields; reflexivity ..|apply keeps_refl]
  end.
Qed.

#[local] Hint Extern 0 (keeps (holds _ _ _) _ (say _ _ _)) =>
  simple apply hold_say : hold.
#[local] Hint Extern 0 (keeps (holds _ _ _) _ (snd (ws_send _ _))) =>
  simple apply hold_send : hold.
#[local] Hint Extern 0 (keeps (holds _ _ _) _ (set_nextTimer _ (set_timers _ _))) =>
  simple apply hold_arm : hold.

Lemma hold_saveSubscriptions s :
  keeps (holds other subscriptions kinds) s (saveSubscriptions s).
Proof.
  unfold saveSubscriptions, resubscribeToCollections, subscribeNext, setTimeout.
  cbn [fst snd]. repeat peel_hold.
Qed.
#[local] Hint Extern 0 (keeps (holds _ _ _) _ (saveSubscriptions _)) =>
  simple apply hold_saveSubscriptions : hold.

(** The updates of another user's entries. *)
Lemma hold_filters_set userId filter s :
  userId <> other ->
  keeps (holds other subscriptions kinds) s
    (set_eventFilters (JsMap.set userId filter (eventFilters s)) s).
Proof.
  intros Hne [H1 H2]. split; [exact H1|]. fields.
  now rewrite get_set_other.
Qed.

Lemma hold_filters_delete userId s :
  userId <> other ->
  keeps (holds other subscriptions kinds) s
    (set_eventFilters (JsMap.delete userId (eventFilters s)) s).
Proof.
  intros Hne [H1 H2]. split; [exact H1|]. fields.
  rewrite get_delete_other; auto.
Qed.

Lemma hold_users_delete userId s :
  userId <> other ->
  keeps (holds other subscriptions kinds) s
    (set_userSubscriptions (JsMap.delete userId (userSubscriptions s)) s).
Proof.
  intros Hne [H1 H2]. split; [|exact H2]. unfold subs_of, deref in *. fields.
  rewrite get_delete_other; auto.
Qed.

Lemma hold_users_set userId a s :
  userId <> other ->
  keeps (holds other subscriptions kinds) s
    (set_userSubscriptions (JsMap.set userId a (userSubscriptions s)) s).
Proof.
  intros Hne [H1 H2]. split; [|exact H2]. unfold subs_of, deref in *. fields.
  now rewrite get_set_other.
Qed.

Lemma hold_alloc l s :
  store_inv s ->
  keeps (holds other subscriptions kinds) s (set_arrays (arrays s ++ [l]) s).
Proof.
  intros (_ & _ & Haddr & _) [H1 H2]. split; [|exact H2].
  unfold subs_of, deref in *. fields.
  destruct (JsMap.get other (userSubscriptions s)) as [a|] eqn:E; auto.
  apply get_in, Haddr in E. now rewrite app_nth1.
Qed.

Lemma hold_push userId a x s :
  userId <> other -> owned_by userId a s ->
  keeps (holds other subscriptions kinds) s (push a x s).
Proof.
  intros Hne (O1 & _) [H1 H2]. split; [|exact H2].
  unfold subs_of, deref, push in *. fields.
  destruct (JsMap.get other (userSubscriptions s)) as [b|] eqn:E; auto.
  rewrite nth_update_nth_other; auto.
  intros ->. apply get_in, O1 in E. congruence.
Qed.

Lemma hold_subscriptions_array userId s :
  store_inv s ->
  keeps (holds other subscriptions kinds) s (snd (subscriptions_array userId s)).
Proof.
  intros Hs. unfold subscriptions_array, alloc.
  destruct (JsMap.get userId (userSubscriptions s)); cbn [snd];
    [apply keeps_refl|now apply hold_alloc].
Qed.

Lemma hold_cmd_subscribe userId args s :
  reg_inv s -> userId <> other ->
  keeps (holds other subscriptions kinds) s (cmd_subscribe userId args s).
Proof.
  intros Hinv Hne. unfold cmd_subscribe.
  destruct args as [|slug eventArgs]; [repeat peel_hold|].
  destruct (String.length slug =? 0)%nat; [repeat peel_hold|].
  destruct (negb _); [repeat peel_hold|].
  destruct (requested_events eventArgs) as [userEvents|e]; [|repeat peel_hold].
  destruct (subscriptions_array_own userId s Hinv) as (_ & Hown).
  generalize (hold_subscriptions_array userId s (proj1 Hinv)).
  destruct (subscriptions_array userId s) as [a s0]. cbn [fst snd] in *.
  intros H0. apply (keeps_trans _ _ _ _ H0).
  destruct (3 <=? _)%nat; [repeat peel_hold|].
  destruct (includes _ _); [repeat peel_hold|].
  cbv zeta.
  set (s1 := set_activeCollections _ _).
  assert (H1 : keeps (holds other subscriptions kinds) s0 s1).
  { subst s1. do 3 peel_hold. now apply hold_filters_set. }
  assert (Hown1 : owned_by userId a s1).
  { revert Hown. apply owned_by_same; subst s1; fields; auto. }
  apply (keeps_trans _ _ _ _ H1).
  destruct (ws_is_open s1).
  - match goal with
    | |- context [ws_send ?f s1] =>
        generalize (hold_send f s1); destruct (ws_send f s1) as [threw s2]
    end.
    cbn [snd]. intros Hs. apply (keeps_trans _ _ _ _ Hs).
    destruct threw; unfold setTimeout; cbn [fst snd]; repeat peel_hold.
  - do 3 peel_hold.
    match goal with
    | |- keeps _ _ (set_userSubscriptions _ ?t) =>
        apply (keeps_trans _ _ t); [|now apply hold_users_set]
    end.
    match goal with
    | |- keeps _ _ (push _ _ ?t) =>
        apply (keeps_trans _ _ t); [repeat peel_hold|]
    end.
    apply (hold_push userId); auto.
Qed.

Lemma hold_replace userId l s :
  store_inv s -> userId <> other ->
  keeps (holds other subscriptions kinds) s
    (set_userSubscriptions
       (JsMap.set userId (List.length (arrays s)) (userSubscriptions s))
       (set_arrays (arrays s ++ [l]) s)).
Proof.
  intros Hs Hne [H1 H2]. split; [|exact H2].
  destruct (replace_array_subs s userId l Hs) as (_ & Hothers).
  rewrite Hothers; auto.
Qed.

Lemma hold_cmd_unsubscribe userId args s :
  reg_inv s -> userId <> other ->
  keeps (holds other subscriptions kinds) s (cmd_unsubscribe userId args s).
Proof.
  intros Hinv Hne. unfold cmd_unsubscribe.
  destruct args as [|slug rest]; [repeat peel_hold|].
  destruct (String.length slug =? 0)%nat; [repeat peel_hold|].
  destruct (negb (isValidCollectionSlug _)); [repeat peel_hold|].
  destruct (negb (includes _ _)); [repeat peel_hold|].
  unfold alloc. cbn [fst snd]. fields.
  eapply keeps_trans;
    [apply (hold_replace userId (without slug (subs_of s userId)) s);
     [apply Hinv|exact Hne]|].
  set (s1 := set_userSubscriptions _ _).
  unfold unsubscribe_done.
  destruct (still_subscribed _ _); [repeat peel_hold|].
  cbv zeta. destruct (ws_is_open _); [|repeat peel_hold].
  destruct (JsMap.get slug _) as [ref|]; [|repeat peel_hold].
  destruct (ref =? 0); [repeat peel_hold|].
  match goal with
  | |- context [ws_send ?f ?t] =>
      generalize (hold_send f t); destruct (ws_send f t) as [threw s2]
  end.
  cbn [snd]. intros Hs.
  apply (keeps_trans _ _ s2).
  - eapply keeps_trans; [|exact Hs]. repeat peel_hold.
  - destruct threw; repeat peel_hold.
Qed.

Lemma hold_add_collection_modal userId slug s :
  reg_inv s -> userId <> other ->
  keeps (holds other subscriptions kinds) s (add_collection_modal userId slug s).
Proof.
  intros Hinv Hne. unfold add_collection_modal.
  destruct (negb _); [repeat peel_hold|].
  destruct (subscriptions_array_own userId s Hinv) as (_ & Hown).
  generalize (hold_subscriptions_array userId s (proj1 Hinv)).
  destruct (subscriptions_array userId s) as [a s0]. cbn [fst snd] in *.
  intros H0. apply (keeps_trans _ _ _ _ H0).
  destruct (3 <=? _)%nat; [repeat peel_hold|].
  destruct (includes _ _); [repeat peel_hold|].
  do 2 peel_hold.
  match goal with
  | |- keeps _ _ (set_userSubscriptions _ ?t) =>
      apply (keeps_trans _ _ t); [|now apply hold_users_set]
  end.
  now apply (hold_push userId).
Qed.

Lemma hold_step e userId s :
  reg_inv s -> author e = Some userId -> userId <> other ->
  keeps (holds other subscriptions kinds) s (step e s).
Proof.
  intros Hinv He Hne.
  destruct e; cbn [author] in He; try discriminate;
    inversion He; subst; cbn [step].
  - now apply hold_cmd_subscribe.
  - now apply hold_cmd_unsubscribe.
  - unfold clear_confirm. do 2 peel_hold.
    match goal with
    | |- keeps _ _ (set_eventFilters _ ?t) =>
        apply (keeps_trans _ _ t);
        [now apply hold_users_delete|now apply hold_filters_delete]
    end.
  - unfold remove_collection, alloc. cbn [fst snd]. fields. do 2 peel_hold.
    apply hold_replace; [apply Hinv|exact Hne].
  - unfold event_filters_menu.
    destruct (forallb _ _); repeat peel_hold; now apply hold_filters_set.
  - unfold filter_button.
    repeat (destruct (String.eqb _ _); [do 2 peel_hold; now apply hold_filters_set|]).
    apply keeps_refl.
  - now apply hold_add_collection_modal.
Qed.
End Apart.

(** X16.  A command or an interaction changes the registry of its author
    only: in a reachable state, whatever one user sends, every other
    user's subscriptions and filter are afterwards what they were. *)
Theorem commands_touch_only_their_author (s : State) (e : event)
    (userId other : string) :
  reachable s ->
  author e = Some userId ->
  other <> userId ->
  subs_of (step e s) other = subs_of s other
  /\ JsMap.get other (eventFilters (step e s)) = JsMap.get other (eventFilters s).
Proof.
  intros Hreach He Hne.
  apply (hold_step other _ _ e userId s); auto.
  - now apply reachable_reg_inv.
  - split; reflexivity.
Qed.

Lemma commands_touch_only_their_author_witness :
  reachable shared_collection
  /\ author (AddCollectionModal "U1" "doodles") = Some "U1"
  /\ subs_of (step (AddCollectionModal "U1" "doodles") shared_collection) "U1"
     = ["azuki"; "doodles"]
  /\ subs_of (step (AddCollectionModal "U1" "doodles") shared_collection) "U2"
     = subs_of shared_collection "U2".
Proof.
  assert (Hreach : reachable shared_collection)
    by (eexists None, _; reflexivity).
  split; [exact Hreach|]. split; [reflexivity|]. split; [reflexivity|].
  apply (commands_touch_only_their_author shared_collection
           (AddCollectionModal "U1" "doodles") "U1" "U2" Hreach eq_refl).
  discriminate.
Defined.

(** ** Filters across a reload *)

Lemma get_filter_keys {V : Type} (keep : string * V -> bool) u
    (m : list (string * V)) :
  NoDup (map fst m) ->
  JsMap.get u (filter keep m)
  = match JsMap.get u m with
    | Some v => if keep (u, v) then Some v else None
    | None => None
    end.
Proof.
  induction m as [|[k v] m IH]; intros Hnd; [reflexivity|].
  inversion Hnd as [|? ? Hnin Hnd']; subst.
  cbn [filter JsMap.get].
  destruct (String.eqb_spec u k) as [->|Hne].
  - destruct (keep (k, v)); cbn [JsMap.get]; [now rewrite String.eqb_refl|].
    apply get_None_keys. intros Hin. apply Hnin.
    apply in_map_iff in Hin as (x & E & [Hx _]%filter_In).
    apply in_map_iff. now exists x.
  - destruct (keep (k, v)); cbn [JsMap.get]; [|auto].
    destruct (String.eqb_spec u k); [congruence|auto].
Qed.

Lemma load_filters_get u entries : forall t,
  NoDup (map fst entries) ->
  JsMap.get u (eventFilters (fold_left load_filters entries t))
  = match JsMap.get u entries with
    | Some f => match filter (includes VALID_EVENTS) f with
                | [] => JsMap.get u (eventFilters t)
                | valid => Some (JsSet.of_list valid)
                end
    | None => JsMap.get u (eventFilters t)
    end.
Proof.
  induction entries as [|[k f] entries IH]; intros t Hnd; [reflexivity|].
  inversion Hnd as [|? ? Hnin Hnd']; subst.
  cbn [fold_left JsMap.get]. rewrite IH by assumption.
  assert (Hone : JsMap.get u (eventFilters (load_filters t (k, f)))
                 = if String.eqb u k
                   then match filter (includes VALID_EVENTS) f with
                        | [] => JsMap.get u (eventFilters t)
                        | valid => Some (JsSet.of_list valid)
                        end
                   else JsMap.get u (eventFilters t)).
  { unfold load_filters. cbn [fst snd].
    destruct (filter (includes VALID_EVENTS) f) as [|x valid];
      cbn [List.length Nat.ltb Nat.leb]; fields.
    - now destruct (String.eqb u k).
    - apply get_set. }
  rewrite Hone.
  destruct (String.eqb_spec u k) as [->|Hne]; [|reflexivity].
  now rewrite (get_None_keys k entries Hnin).
Qed.

Lemma load_user_filters entries : forall t,
  eventFilters (fold_left load_user entries t) = eventFilters t.
Proof.
  induction entries as [|entry entries IH]; intros t; [reflexivity|].
  cbn [fold_left]. rewrite IH. unfold load_user, alloc.
  destruct (0 <? _)%nat; reflexivity.
Qed.

Lemma resubscribe_filters s :
  eventFilters (resubscribeToCollections s) = eventFilters s.
Proof.
  unfold resubscribeToCollections, subscribeNext, setTimeout.
  destruct (_ || _); [reflexivity|].
  destruct (nth_error _ _); [|reflexivity]. cbn [fst snd].
  match goal with
  | |- context [ws_send ?f ?t] =>
      destruct (ws_send_cases f t) as [E|[E|E]]; rewrite E
  end; reflexivity.
Qed.

(** X17.  Filters across a save and a reload, in a reachable state: a
    stored filter comes back as the set of its recognized kinds, and a
    filter without any recognized kind, the empty one included, does not
    come back at all. *)
Theorem filters_after_reload (s : State) (u : string) :
  reachable s ->
  JsMap.get u (eventFilters (loadSubscriptions (saveSubscriptions s)))
  = match JsMap.get u (eventFilters s) with
    | Some f => match filter (includes VALID_EVENTS) f with
                | [] => None
                | valid => Some (JsSet.of_list valid)
                end
    | None => None
    end.
Proof.
  intros Hreach. apply reachable_reg_inv in Hreach as (_ & _ & _ & Hnd).
  unfold loadSubscriptions. rewrite saveSubscriptions_file. cbv zeta.
  cbn [fd_subscriptions fd_eventFilters].
  match goal with
  | |- context [if ws_is_open ?t then _ else _] =>
      assert (E : JsMap.get u (eventFilters
                    (if ws_is_open t then resubscribeToCollections t else t))
                  = JsMap.get u (eventFilters t))
        by (destruct (ws_is_open t); [now rewrite resubscribe_filters|reflexivity]);
      rewrite E; clear E
  end.
  rewrite load_filters_get by now apply NoDup_keys_filter.
  rewrite load_user_filters. fields. rewrite (get_filter_keys _ u _ Hnd).
  destruct (JsMap.get u (eventFilters s)) as [f|]; [|reflexivity].
  cbn [snd]. destruct f as [|x f]; [reflexivity|].
  cbn [List.length Nat.ltb Nat.leb]. reflexivity.
Qed.

Lemma filters_after_reload_witness :
  reachable empty_filter
  /\ JsMap.get "U1" (eventFilters empty_filter) = Some []
  /\ JsMap.get "U1"
       (eventFilters (loadSubscriptions (saveSubscriptions empty_filter)))
     = None.
Proof.
  assert (Hreach : reachable empty_filter) by (eexists None, _; reflexivity).
  split; [exact Hreach|]. split; [reflexivity|].
  now rewrite (filters_after_reload empty_filter "U1" Hreach).
Defined.

(** ** A subscribe command whose ack arrives *)

(** X18.  When the listener of a suspended subscribe command is handed
    an object that is the [phx_reply] to its ref, on the socket the
    command was sent on, the command resumes: the collection is appended
    to the array the command started from, which becomes the user's entry
    and is saved, the command is no longer suspended, and its author is
    told that the subscription succeeded. *)
Theorem ack_completes_subscribe (s : State) (p : pending) (m : wsmessage) :
  reachable s ->
  In p (awaiting s) ->
  p_conn p = wsGen s ->
  m_event m = "phx_reply" ->
  m_ref m = Some (p_ref p) ->
  let s' := on_message (Obj m) s in
  subs_of s' (p_user p) = deref (p_array p) s ++ [p_slug p]
  /\ ~ In p (awaiting s')
  /\ replies s' = replies s ++ [(p_user p, RSubscriptionSuccessful)]
  /\ exists data,
       file s' = Some data
       /\ JsMap.get (p_user p) (fd_subscriptions data)
          = Some (deref (p_array p) s ++ [p_slug p]).
Proof.
  intros Hreach Hin Hconn Hev Href s'.
  pose proof (reachable_store_inv s Hreach) as (_ & Hnd & _ & Haw & Hrefs).
  assert (Hm : ack_matches (Obj m) s p = true).
  { unfold ack_matches. cbn [data_event data_ref].
    now rewrite Hconn, Nat.eqb_refl, Hev, Href, Z.eqb_refl. }
  assert (Hres : filter (ack_matches (Obj m) s) (awaiting s) = [p]).
  { destruct (ack_resolves_one (Obj m) s Hrefs) as [E|(q & _ & E)].
    - assert (H : In p (filter (ack_matches (Obj m) s) (awaiting s)))
        by (apply filter_In; auto).
      rewrite E in H. contradiction.
    - assert (H : In p (filter (ack_matches (Obj m) s) (awaiting s)))
        by (apply filter_In; auto).
      rewrite E in H. destruct H as [->|[]]. exact E. }
  assert (Harr : (p_array p < List.length (arrays s))%nat).
  { rewrite Forall_forall in Haw. now apply Haw in Hin. }
  subst s'. unfold on_message. cbn [main_listener JSON_parse]. cbv zeta.
  rewrite Hres. cbn [fold_left]. unfold resume_subscribe, say.
  match goal with
  | |- context [saveSubscriptions ?t] => set (t0 := t)
  end.
  assert (Hget : JsMap.get (p_user p) (userSubscriptions t0) = Some (p_array p)).
  { subst t0. fields. apply get_set_same. }
  assert (Hderef : deref (p_array p) t0 = deref (p_array p) s ++ [p_slug p]).
  { subst t0. unfold deref, push, clearTimer. fields.
    now rewrite nth_update_nth. }
  assert (Hsubs : subs_of t0 (p_user p) = deref (p_array p) s ++ [p_slug p]).
  { unfold subs_of. now rewrite Hget. }
  split; [|split; [|split]].
  - rewrite (subs_of_same (saveSubscriptions t0)
               (set_replies _ (saveSubscriptions t0))) by reflexivity.
    now rewrite saveSubscriptions_subs.
  - fields.
    assert (E : awaiting (saveSubscriptions t0) = awaiting t0).
    { unfold saveSubscriptions, resubscribeToCollections, subscribeNext,
        setTimeout. cbv zeta.
      destruct (ws_is_open _); [|reflexivity].
      destruct (_ || _); [reflexivity|].
      destruct (nth_error _ _); [|reflexivity]. cbn [fst snd].
      match goal with
      | |- context [ws_send ?f ?t] =>
          destruct (ws_send_cases f t) as [E|[E|E]]; rewrite E
      end; reflexivity. }
    rewrite E. subst t0. unfold push, clearTimer. fields.
    intros [_ H]%filter_In. now rewrite Hm in H.
  - fields. rewrite saveSubscriptions_replies. subst t0.
    unfold push, clearTimer. now fields.
  - eexists. fields. split; [apply saveSubscriptions_file|].
    cbn [fd_subscriptions]. rewrite saved_subscriptions_get.
    + rewrite Hget, Hderef. now destruct (deref (p_array p) s).
    + subst t0. unfold push, clearTimer. fields. now apply set_keys_NoDup.
Qed.

Lemma ack_completes_subscribe_witness :
  reachable awaiting_ack
  /\ subs_of awaiting_ack "U1" = []
  /\ subs_of (on_message (Obj ack_of_first_join) awaiting_ack) "U1" = ["azuki"].
Proof.
  assert (Hreach : reachable awaiting_ack) by (eexists None, _; reflexivity).
  split; [exact Hreach|]. split; [reflexivity|].
  destruct (ack_completes_subscribe awaiting_ack
              {| p_user := "U1"; p_slug := "azuki"; p_ref := 1; p_array := 0;
                 p_conn := 1; p_timer := 5 |} ack_of_first_join Hreach)
    as (Hsubs & _).
  - vm_compute. tauto.
  - reflexivity.
  - reflexivity.
  - reflexivity.
  - exact Hsubs.
Defined.

(** ** The scheduled reconnect and the exit handler *)

Lemma find_unique id (l : list timer) (t : timer) :
  NoDup (map t_id l) -> In t l -> t_id t = id ->
  find (fun x => (t_id x =? id)%nat) l = Some t.
Proof.
  intros Hnd Hin Hid. induction l as [|x l IH]; [contradiction|].
  inversion Hnd as [|? ? Hnin Hnd']; subst. cbn [find].
  destruct Hin as [->|Hin].
  - now rewrite Nat.eqb_refl.
  - destruct (Nat.eqb_spec (t_id x) (t_id t)) as [E|_]; auto.
    exfalso. apply Hnin. rewrite E. now apply in_map.
Qed.

Lemma no_beat_after_clear s :
  beat_inv s -> filter is_beat (timers (clearTimer (heartbeatInterval s) s)) = [].
Proof.
  intros (_ & _ & Hhb & _). apply filter_none. intros t Ht.
  unfold is_beat. destruct (t_action t) eqn:Ea; auto. exfalso.
  unfold clearTimer in Ht. destruct (heartbeatInterval s) as [id|] eqn:E.
  - fields_in Ht. apply cancel_In in Ht as [Ht Hne].
    apply Hhb in Ea; auto. congruence.
  - apply Hhb in Ea; auto. discriminate.
Qed.

(** What [reconnect] adds to the queue is a reconnection. *)
Lemma reconnect_timers s t :
  In t (timers (reconnect s)) -> In t (timers s) \/ is_reconnect t = true.
Proof.
  unfold reconnect, setTimeout, clearTimer. cbn [fst snd].
  destruct (reconnectTimeout s) as [id|]; fields;
    destruct (_ <=? _); fields; rewrite ?in_app_iff;
    intros H; repeat destruct H as [H|H];
    try (apply cancel_In in H as [H _]); auto;
    try (subst t; now right); contradiction.
Qed.

(** The ['close'] listener: the heartbeat stops and [reconnect] arms the
    one reconnection there is. *)
Lemma close_reconnects s :
  reachable s ->
  ws s = Some OPEN \/ ws s = Some CLOSING \/ ws s = Some CONNECTING ->
  let s' := step WsClose s in
  ws s' = Some CLOSED
  /\ isWsConnected s' = false
  /\ connectionAttempts s' = connectionAttempts s + 1
  /\ filter is_beat (timers s') = []
  /\ exists id,
       filter is_reconnect (timers s')
       = if connectionAttempts s + 1 <=? MAX_RECONNECT_ATTEMPTS
         then [reconnection id (now s) (connectionAttempts s + 1)]
         else [].
Proof.
  intros Hreach Hws s'.
  pose proof (reachable_timers_inv s Hreach) as (_ & Hre & _).
  pose proof (reachable_beat_inv s Hreach) as Hbeat.
  assert (E : s' = on_close (set_ws (Some CLOSED) s)).
  { subst s'. cbn [step]. now destruct Hws as [-> |[-> | ->]]. }
  rewrite E. clear E s'. unfold on_close. cbv zeta.
  set (u0 := set_isWsConnected false
               (clearTimer (connectionTimeout (set_ws (Some CLOSED) s))
                  (set_ws (Some CLOSED) s))).
  set (u := clearTimer (heartbeatInterval u0) u0).
  assert (Hu0 : beat_inv u0).
  { revert Hbeat. as_keeps. subst u0. peel_beat. apply keeps_trans with
      (t := set_ws (Some CLOSED) s); [|apply beat_clearTimer].
    apply beat_set_ws. discriminate. }
  assert (Hnone : filter is_beat (timers u) = [])
    by now apply no_beat_after_clear.
  assert (Hfacts : connectionAttempts u = connectionAttempts s
                   /\ now u = now s /\ ws u = Some CLOSED
                   /\ isWsConnected u = false
                   /\ reconnectTimeout u = reconnectTimeout s
                   /\ forall t, In t (timers u) -> In t (timers s)).
  { subst u u0. unfold clearTimer. fields.
    destruct (connectionTimeout s); fields;
      destruct (heartbeatInterval s); fields;
      repeat (split; [reflexivity|]);
      intros t Ht; repeat (apply cancel_In in Ht as [Ht _]); exact Ht. }
  destruct Hfacts as (Ha & Hnow & Hw & Hconn & Hrt & Hin).
  destruct (reconnect_only u) as (Hf & Ha' & Hw' & Hc' & _).
  { intros t Ht Hact. rewrite Hrt. apply Hre; auto. }
  rewrite Hw', Hc', Ha', Ha, Hw, Hconn.
  split; [reflexivity|]. split; [reflexivity|]. split; [reflexivity|]. split.
  - apply filter_none. intros t [Ht|Ht]%reconnect_timers.
    + destruct (is_beat t) eqn:Eb; auto.
      assert (Hb : In t (filter is_beat (timers u))) by (apply filter_In; auto).
      rewrite Hnone in Hb. contradiction.
    + unfold is_reconnect in Ht. unfold is_beat. now destruct (t_action t).
  - exists (nextTimer u). now rewrite Hf, Ha, Hnow.
Qed.

(** X19.  The scheduled reconnect.  When the five-minute interval armed
    at start-up runs on an open socket, the socket is closed and the
    interval is armed again; once the socket reports the close, the
    heartbeat is stopped and one reconnection is armed after the backoff
    of the next attempt, or none when the attempts are used up. *)
Theorem scheduled_rotation_cycles_connection (s : State) (t : timer) :
  reachable s ->
  In t (timers s) ->
  t_action t = TRotation ->
  t_due t <= now s ->
  ws_is_open s = true ->
  let s1 := step (Fire (t_id t)) s in
  let s2 := step WsClose s1 in
  ws s1 = Some CLOSING
  /\ In {| t_id := t_id t; t_due := now s + 300000; t_action := TRotation |}
        (timers s1)
  /\ ws s2 = Some CLOSED
  /\ isWsConnected s2 = false
  /\ connectionAttempts s2 = connectionAttempts s + 1
  /\ filter is_beat (timers s2) = []
  /\ exists id,
       filter is_reconnect (timers s2)
       = if connectionAttempts s + 1 <=? MAX_RECONNECT_ATTEMPTS
         then [reconnection id (now s) (connectionAttempts s + 1)]
         else [].
Proof.
  intros Hreach Hin Hact Hdue Hopen s1 s2.
  pose proof (reachable_beat_inv s Hreach) as (_ & Hnd & _).
  assert (E1 : s1 = set_ws (Some CLOSING)
                      (set_timers
                         (cancel (t_id t) (timers s)
                            ++ [{| t_id := t_id t; t_due := now s + 300000;
                                   t_action := TRotation |}]) s)).
  { subst s1. cbn [step]. unfold fire.
    rewrite (find_unique (t_id t) (timers s) t Hnd Hin eq_refl).
    apply Z.leb_le in Hdue. rewrite Hdue, Hact. cbn [period run_timer].
    unfold ws_is_open in *. fields. now rewrite Hopen. }
  assert (Hreach1 : reachable s1) by now apply reachable_step.
  destruct (close_reconnects s1 Hreach1) as (H1 & H2 & H3 & H4 & H5).
  { right. left. now rewrite E1. }
  fold s2 in H1, H2, H3, H4, H5.
  assert (Ha : connectionAttempts s1 = connectionAttempts s)
    by now rewrite E1.
  assert (Hn : now s1 = now s) by now rewrite E1.
  rewrite Ha, Hn in *.
  split; [now rewrite E1|]. split; [|auto 10].
  rewrite E1. fields. apply in_or_app. right. now left.
Qed.

Lemma scheduled_rotation_cycles_connection_witness :
  reachable rotation_due
  /\ ws_is_open rotation_due = true
  /\ ws (step WsClose (step (Fire 1) rotation_due)) = Some CLOSED
  /\ filter is_beat (timers (step WsClose (step (Fire 1) rotation_due))) = [].
Proof.
  assert (Hreach : reachable rotation_due) by (eexists None, _; reflexivity).
  split; [exact Hreach|]. split; [reflexivity|].
  destruct (scheduled_rotation_cycles_connection rotation_due
              {| t_id := 1; t_due := 300000; t_action := TRotation |} Hreach)
    as (_ & _ & Hws & _ & _ & Hbeat & _).
  - vm_compute. tauto.
  - reflexivity.
  - vm_compute. discriminate.
  - reflexivity.
  - split; [exact Hws|exact Hbeat].
Defined.

(** X20.  The exit handler: what is on disk when the process exits is
    every user's array of subscriptions that is not empty; no heartbeat
    interval is left armed and the socket is neither open nor
    connecting. *)
Theorem exit_saves_registry (s : State) :
  reachable s ->
  let s' := on_sigint s in
  (exists data,
      file s' = Some data
      /\ forall u, JsMap.get u (fd_subscriptions data)
                   = match subs_of s u with [] => None | l => Some l end)
  /\ filter is_beat (timers s') = []
  /\ ws s' <> Some OPEN
  /\ ws s' <> Some CONNECTING.
Proof.
  intros Hreach s'.
  pose proof (reachable_store_inv s Hreach) as (_ & Hnd & _).
  pose proof (beat_saveSubscriptions s (reachable_beat_inv s Hreach)) as Hbeat.
  subst s'. unfold on_sigint. cbv zeta.
  set (s1 := saveSubscriptions s) in *.
  assert (Hbeat2 : beat_inv (ws_terminate s1)) by now apply beat_ws_terminate.
  pose proof (no_beat_after_clear _ Hbeat2) as Hnone.
  set (s3 := clearTimer (heartbeatInterval (ws_terminate s1)) (ws_terminate s1))
    in *.
  split; [|split; [|split]].
  - eexists. split.
    + assert (E : file (clearTimer (reconnectInterval s3) s3) = file s1).
      { subst s3. unfold clearTimer, ws_terminate.
        destruct (reconnectInterval _), (heartbeatInterval _); reflexivity. }
      rewrite E. apply saveSubscriptions_file.
    + intros u. cbn [fd_subscriptions].
      rewrite (saved_subscriptions_get s _ u Hnd). unfold subs_of.
      destruct (JsMap.get u (userSubscriptions s)); reflexivity.
  - apply filter_none. intros t Ht.
    destruct (is_beat t) eqn:Eb; auto.
    assert (Hin : In t (timers s3)).
    { unfold clearTimer in Ht. destruct (reconnectInterval s3); auto.
      fields_in Ht. now apply cancel_In in Ht. }
    assert (Hb : In t (filter is_beat (timers s3))) by (apply filter_In; auto).
    rewrite Hnone in Hb. contradiction.
  - assert (E : ws (clearTimer (reconnectInterval s3) s3) = option_map closing (ws s1)).
    { subst s3. unfold clearTimer, ws_terminate.
      destruct (reconnectInterval _), (heartbeatInterval _); reflexivity. }
    rewrite E. destruct (ws s1) as [[]|]; discriminate.
  - assert (E : ws (clearTimer (reconnectInterval s3) s3) = option_map closing (ws s1)).
    { subst s3. unfold clearTimer, ws_terminate.
      destruct (reconnectInterval _), (heartbeatInterval _); reflexivity. }
    rewrite E. destruct (ws s1) as [[]|]; discriminate.
Qed.

Lemma exit_saves_registry_witness :
  reachable two_connections
  /\ (exists data,
         file (on_sigint two_connections) = Some data
         /\ JsMap.get "U1" (fd_subscriptions data) = Some ["azuki"])
  /\ filter is_beat (timers (on_sigint two_connections)) = [].
Proof.
  assert (Hreach : reachable two_connections)
    by (exists None, reconnect_cycle; reflexivity).
  split; [exact Hreach|].
  destruct (exit_saves_registry two_connections Hreach)
    as ((data & Hfile & Hsubs) & Hbeat & _).
  split; [|exact Hbeat].
  exists data. split; [exact Hfile|]. rewrite Hsubs. reflexivity.
Defined.

(** ** Choosing a filter *)

Lemma saveSubscriptions_filters s :
  eventFilters (saveSubscriptions s) = eventFilters s.
Proof.
  unfold saveSubscriptions. cbv zeta.
  destruct (ws_is_open _); [now rewrite resubscribe_filters|reflexivity].
Qed.

Lemma add_NoDup x l : NoDup l -> NoDup (JsSet.add x l).
Proof.
  intros H. unfold JsSet.add. destruct (JsSet.has x l) eqn:E; auto.
  apply NoDup_snoc; auto. intros Hin. apply has_In in Hin. congruence.
Qed.

Lemma add_all_NoDup l : forall acc,
  NoDup acc -> NoDup (fold_left (fun a x => JsSet.add x a) l acc).
Proof.
  induction l as [|x l IH]; intros acc H; cbn [fold_left]; auto.
  apply IH. now apply add_NoDup.
Qed.

(** X21.  The buttons of the quick filter row: "sales" and "listings"
    replace the author's filter by the one kind, "all" adds every
    recognized kind to what the filter held, and any other button of the
    row changes nothing. *)
Theorem filter_buttons_set_filter (s : State) (userId : string) :
  JsMap.get userId (eventFilters (filter_button userId "sales" s))
  = Some ["item_sold"]
  /\ JsMap.get userId (eventFilters (filter_button userId "listings" s))
     = Some ["item_listed"]
  /\ (exists f,
        JsMap.get userId (eventFilters (filter_button userId "all" s)) = Some f
        /\ forall e, In e f <->
             In e VALID_EVENTS
             \/ In e match JsMap.get userId (eventFilters s) with
                     | Some old => old
                     | None => []
                     end)
  /\ (forall subAction,
        subAction <> "sales" -> subAction <> "listings" -> subAction <> "all" ->
        filter_button userId subAction s = s).
Proof.
  unfold filter_button. cbn [String.eqb Ascii.eqb Bool.eqb andb].
  unfold say. fields. rewrite !saveSubscriptions_filters. fields.
  split; [apply get_set_same|]. split; [apply get_set_same|]. split.
  - eexists. split; [apply get_set_same|]. intros e. apply add_all_In.
  - intros subAction H1 H2 H3.
    destruct (String.eqb_spec subAction "sales"); [contradiction|].
    destruct (String.eqb_spec subAction "listings"); [contradiction|].
    destruct (String.eqb_spec subAction "all"); [contradiction|reflexivity].
Qed.

Lemma of_list_In l e : In e (JsSet.of_list l) <-> In e l.
Proof.
  unfold JsSet.of_list. rewrite add_all_In. cbn. tauto.
Qed.

Lemma of_list_NoDup l : NoDup (JsSet.of_list l).
Proof. apply add_all_NoDup. constructor. Qed.

Lemma event_type_defined_In e :
  event_type_defined e = true
  <-> In e VALID_EVENTS \/ In e OBJECT_PROTOTYPE_KEYS.
Proof.
  unfold event_type_defined.
  rewrite orb_true_iff.
  split; (intros [H|H]; [left|right]; now apply includes_In).
Qed.

(** X22.  The [event_filters] menu stores what was selected, each value
    once, as the author's filter, whatever the values are.  The author is
    answered when every value is a key of [EVENT_TYPES] or a name that
    every plain object inherits; when some value is neither, the lookup
    raises after the filter is stored and nobody is answered. *)
Theorem menu_stores_selection (s : State) (userId : string)
    (values : list string) :
  let s' := event_filters_menu userId values s in
  (exists f,
      JsMap.get userId (eventFilters s') = Some f
      /\ NoDup f
      /\ forall e, In e f <-> In e values)
  /\ ((forall e, In e values ->
                 In e VALID_EVENTS \/ In e OBJECT_PROTOTYPE_KEYS) ->
      replies s' = replies s ++ [(userId, RFiltersUpdated)])
  /\ ((exists e, In e values /\ ~ In e VALID_EVENTS
                 /\ ~ In e OBJECT_PROTOTYPE_KEYS) ->
      replies s' = replies s).
Proof.
  unfold event_filters_menu. cbv zeta.
  destruct (forallb event_type_defined values) eqn:Hall;
    unfold say; fields;
    rewrite saveSubscriptions_filters, saveSubscriptions_replies; fields;
    (split; [eexists; split; [apply get_set_same|];
             split; [apply of_list_NoDup|apply of_list_In]|]).
  - split; [reflexivity|].
    intros (e & Hin & Hv & Hp).
    rewrite forallb_forall in Hall.
    apply Hall, event_type_defined_In in Hin. tauto.
  - split; [|reflexivity].
    intros Hdef.
    assert (forallb event_type_defined values = true) as E.
    { apply forallb_forall. intros e Hin.
      now apply event_type_defined_In, Hdef. }
    congruence.
Qed.

(** ** A reconciliation pass *)

(** X23.  A pass of [resubscribeToCollections] on an open socket, when
    nothing else happens and [send] does not raise: it writes one join for
    each collection of the active set, in order, with consecutive fresh
    refs and 500 ms between two joins, and when it is over it has left no
    timer behind. *)
Theorem pass_walks_active_set (s : State) :
  reachable s ->
  ws s = Some OPEN -> isWsConnected s = true -> sendThrows s = false ->
  let s' := run (pass_turns (nextTimer s) (List.length (activeCollections s)))
              (resubscribeToCollections s) in
  sent s' = sent s ++ joins_from (wsGen s) (activeCollections s)
                        (currentRef s + 1) (now s)
  /\ currentRef s' = currentRef s + Z.of_nat (List.length (activeCollections s))
  /\ timers s' = timers s.
Proof.
  intros Hreach Hws Hconn Hth.
  apply reachable_timers_inv in Hreach as (Hfresh & _).
  unfold resubscribeToCollections, ws_is_open. rewrite Hws, Hconn. cbn [negb orb].
  apply (pass_from (activeCollections s) (activeCollections s) []
           (set_subscriptionRefs [] s)); auto.
Qed.

Lemma pass_walks_active_set_witness :
  reachable offline_three
  /\ activeCollections offline_three = ["azuki"; "doodles"; "moonbirds"]
  /\ map (fun sf => (f_topic (frame_of sf), f_ref (frame_of sf), at_time sf))
       (sent (run (pass_turns (nextTimer offline_three) 3)
                (resubscribeToCollections offline_three)))
     = [ ("collection:azuki", 1, 0); ("collection:doodles", 2, 500);
         ("collection:moonbirds", 3, 1000) ].
Proof.
  assert (Hreach : reachable offline_three) by (eexists None, _; reflexivity).
  split; [exact Hreach|]. split; [reflexivity|].
  destruct (pass_walks_active_set offline_three Hreach eq_refl eq_refl eq_refl)
    as (Hsent & _).
  change (List.length (activeCollections offline_three)) with 3%nat in Hsent.
  rewrite Hsent. reflexivity.
Defined.

(** ** Stored filters are never empty *)

Create HintDb filled.

Lemma filled_same s t t' :
  eventFilters t' = eventFilters t -> keeps filled s t -> keeps filled s t'.
Proof. unfold keeps, filled. intros ->. auto. Qed.

Ltac peel_filled := peel_by filled_same ltac:(auto with filled).

Lemma filled_send f s : keeps filled s (snd (ws_send f s)).
Proof.
  destruct (ws_send_cases f s) as [E|[E|E]]; rewrite E; cbn [snd];
    repeat peel_filled.
Qed.

Lemma filled_set u f s :
  f <> [] ->
  keeps filled s (set_eventFilters (JsMap.set u f (eventFilters s)) s).
Proof.
  intros Hf. unfold keeps, filled. fields.
  intros H v g [E|Hin]%set_In; [|eauto].
  congruence.
Qed.

Lemma filled_delete u s :
  keeps filled s (set_eventFilters (JsMap.delete u (eventFilters s)) s).
Proof.
  unfold keeps, filled. fields. intros H v g Hin%delete_entry_In. eauto.
Qed.

Lemma filled_clear s : keeps filled s (set_eventFilters [] s).
Proof. unfold keeps, filled. fields. intros _ v g []. Qed.

Lemma of_list_nonempty l : l <> [] -> JsSet.of_list l <> [].
Proof.
  destruct l as [|x l]; [congruence|]. intros _ E.
  assert (H : In x (JsSet.of_list (x :: l))) by (apply of_list_In; now left).
  now rewrite E in H.
Qed.

Lemma add_all_nonempty l acc :
  l <> [] -> fold_left (fun a e => JsSet.add e a) l acc <> [].
Proof.
  destruct l as [|x l]; [congruence|]. intros _ E.
  assert (H : In x (fold_left (fun a e => JsSet.add e a) (x :: l) acc))
    by (apply add_all_In; left; now left).
  now rewrite E in H.
Qed.

Lemma parse_events_nonempty eventArgs acc kinds :
  parse_events eventArgs acc = inl kinds ->
  eventArgs <> [] \/ acc <> [] -> kinds <> [].
Proof.
  revert acc. induction eventArgs as [|e rest IH]; intros acc;
    cbn [parse_events].
  - intros [= <-] [H|H]; congruence.
  - destruct (includes VALID_EVENTS e); [|intros H; discriminate H].
    intros H _. apply (IH _ H). right.
    intros E. assert (Hin : In e (JsSet.add e acc)) by (apply add_In; now left).
    now rewrite E in Hin.
Qed.

Lemma requested_events_nonempty eventArgs kinds :
  requested_events eventArgs = inl kinds -> kinds <> [].
Proof.
  unfold requested_events. destruct eventArgs as [|e rest].
  - intros [= <-]. discriminate.
  - intros H. apply (parse_events_nonempty _ _ _ H). left. discriminate.
Qed.

Lemma filled_say userId r s : keeps filled s (say userId r s).
Proof. unfold say. repeat peel_filled. Qed.

Lemma filled_clearTimer handle s : keeps filled s (clearTimer handle s).
Proof. unfold clearTimer. repeat peel_filled. Qed.

Lemma filled_push a x s : keeps filled s (push a x s).
Proof. unfold push. repeat peel_filled. Qed.

Lemma filled_ws_terminate s : keeps filled s (ws_terminate s).
Proof. unfold ws_terminate. repeat peel_filled. Qed.

#[local] Hint Extern 0 (keeps filled _ (say _ _ _)) =>
  simple apply filled_say : filled.
#[local] Hint Extern 0 (keeps filled _ (clearTimer _ _)) =>
  simple apply filled_clearTimer : filled.
#[local] Hint Extern 0 (keeps filled _ (push _ _ _)) =>
  simple apply filled_push : filled.
#[local] Hint Extern 0 (keeps filled _ (ws_terminate _)) =>
  simple apply filled_ws_terminate : filled.
#[local] Hint Extern 0 (keeps filled _ (snd (ws_send _ _))) =>
  simple apply filled_send : filled.
#[local] Hint Extern 0 (keeps filled _ (set_eventFilters (JsMap.delete _ _) _)) =>
  simple apply filled_delete : filled.
#[local] Hint Extern 0 (keeps filled _ (set_eventFilters [] _)) =>
  simple apply filled_clear : filled.

Lemma filled_subscribeNext collections index s :
  keeps filled s (subscribeNext collections index s).
Proof. unfold subscribeNext, setTimeout. cbn [fst snd]. repeat peel_filled. Qed.
#[local] Hint Extern 0 (keeps filled _ (subscribeNext _ _ _)) =>
  simple apply filled_subscribeNext : filled.

Lemma filled_resubscribe s : keeps filled s (resubscribeToCollections s).
Proof. unfold resubscribeToCollections. repeat peel_filled. Qed.
#[local] Hint Extern 0 (keeps filled _ (resubscribeToCollections _)) =>
  simple apply filled_resubscribe : filled.

Lemma filled_load_user s entry : keeps filled s (load_user s entry).
Proof. unfold load_user, alloc. cbn [fst snd]. repeat peel_filled. Qed.

Lemma filled_load_filters s entry : keeps filled s (load_filters s entry).
Proof.
  unfold load_filters. cbv zeta.
  destruct (0 <? _)%nat eqn:E; [|apply keeps_refl].
  apply filled_set, of_list_nonempty.
  intros E'. rewrite E' in E. discriminate.
Qed.

Lemma filled_loadSubscriptions s : keeps filled s (loadSubscriptions s).
Proof.
  unfold loadSubscriptions. destruct (file s) as [data|]; [|apply keeps_refl].
  cbv zeta.
  match goal with
  | |- keeps _ _ (if _ then resubscribeToCollections ?t else _) =>
      assert (H : keeps filled s t)
  end.
  { eapply keeps_trans;
      [|apply keeps_fold; intros; apply filled_load_filters].
    eapply keeps_trans;
      [|apply keeps_fold; intros; apply filled_load_user].
    repeat peel_filled. }
  destruct (ws_is_open _); auto.
  eapply keeps_trans; [exact H|apply filled_resubscribe].
Qed.
#[local] Hint Extern 0 (keeps filled _ (loadSubscriptions _)) =>
  simple apply filled_loadSubscriptions : filled.

Lemma filled_saveSubscriptions s : keeps filled s (saveSubscriptions s).
Proof. unfold saveSubscriptions. repeat peel_filled. Qed.
#[local] Hint Extern 0 (keeps filled _ (saveSubscriptions _)) =>
  simple apply filled_saveSubscriptions : filled.

Lemma filled_reconnect s : keeps filled s (reconnect s).
Proof. unfold reconnect, setTimeout. cbn [fst snd]. repeat peel_filled. Qed.
#[local] Hint Extern 0 (keeps filled _ (reconnect _)) =>
  simple apply filled_reconnect : filled.

Lemma filled_connectToOpenSea s : keeps filled s (connectToOpenSea s).
Proof. unfold connectToOpenSea, setTimeout. cbn [fst snd]. repeat peel_filled. Qed.
#[local] Hint Extern 0 (keeps filled _ (connectToOpenSea _)) =>
  simple apply filled_connectToOpenSea : filled.

Lemma filled_on_message data s : keeps filled s (on_message data s).
Proof.
  unfold on_message. cbv zeta.
  match goal with
  | |- keeps _ _ (fold_left _ _ ?t) => apply (keeps_trans _ _ t)
  end.
  - match goal with
    | |- keeps _ _ (fold_left _ _ ?t) => apply (keeps_trans _ _ t)
    end.
    + peel_filled. unfold main_listener. repeat peel_filled.
      rewrite handleOpenSeaEvent_exact. repeat peel_filled.
    + apply keeps_fold. intros. apply filled_clearTimer.
  - apply keeps_fold. intros t p _. unfold resume_subscribe. repeat peel_filled.
Qed.

Lemma filled_subscriptions_array userId s :
  keeps filled s (snd (subscriptions_array userId s)).
Proof.
  unfold subscriptions_array, alloc.
  destruct (JsMap.get userId (userSubscriptions s)); cbn [snd]; repeat peel_filled.
Qed.

Lemma filled_cmd_subscribe userId args s :
  keeps filled s (cmd_subscribe userId args s).
Proof.
  unfold cmd_subscribe.
  destruct args as [|slug eventArgs]; [repeat peel_filled|].
  destruct (String.length slug =? 0)%nat; [repeat peel_filled|].
  destruct (negb _); [repeat peel_filled|].
  destruct (requested_events eventArgs) as [userEvents|e] eqn:Ekinds;
    [|repeat peel_filled].
  apply requested_events_nonempty in Ekinds.
  generalize (filled_subscriptions_array userId s).
  destruct (subscriptions_array userId s) as [a s0]. cbn [snd]. intros H0.
  apply (keeps_trans _ _ _ _ H0).
  destruct (3 <=? _)%nat; [repeat peel_filled|].
  destruct (includes _ _); [repeat peel_filled|].
  cbv zeta.
  assert (Hset : keeps filled s0
            (set_eventFilters (JsMap.set userId userEvents (eventFilters s0)) s0))
    by now apply filled_set.
  destruct (ws_is_open _).
  - match goal with
    | |- context [ws_send ?f ?t] =>
        generalize (filled_send f t); destruct (ws_send f t) as [threw s2]
    end.
    cbn [snd]. intros Hs.
    apply (keeps_trans _ _ s2).
    + eapply keeps_trans; [|exact Hs].
      eapply keeps_trans; [exact Hset|]. repeat peel_filled.
    + destruct threw; unfold setTimeout; cbn [fst snd]; repeat peel_filled.
  - repeat (peel_filled; try exact Hset).
Qed.

Lemma filled_add_collection_modal userId slug s :
  keeps filled s (add_collection_modal userId slug s).
Proof.
  unfold add_collection_modal.
  destruct (negb _); [repeat peel_filled|].
  generalize (filled_subscriptions_array userId s).
  destruct (subscriptions_array userId s) as [a s0]. cbn [snd]. intros H0.
  apply (keeps_trans _ _ _ _ H0). repeat peel_filled.
Qed.

Lemma filled_unsubscribe_done userId s :
  keeps filled s (unsubscribe_done userId s).
Proof. unfold unsubscribe_done. repeat peel_filled. Qed.
#[local] Hint Extern 0 (keeps filled _ (unsubscribe_done _ _)) =>
  simple apply filled_unsubscribe_done : filled.

Lemma filled_cmd_unsubscribe userId args s :
  keeps filled s (cmd_unsubscribe userId args s).
Proof.
  unfold cmd_unsubscribe.
  destruct args as [|slug rest]; [repeat peel_filled|].
  destruct (String.length slug =? 0)%nat; [repeat peel_filled|].
  destruct (negb (isValidCollectionSlug _)); [repeat peel_filled|].
  destruct (negb (includes _ _)); [repeat peel_filled|].
  unfold alloc. cbn [fst snd].
  destruct (still_subscribed _ _); [repeat peel_filled|].
  destruct (ws_is_open _); [|repeat peel_filled].
  destruct (JsMap.get slug _) as [ref|]; [|repeat peel_filled].
  destruct (ref =? 0); [repeat peel_filled|].
  match goal with
  | |- context [ws_send ?f ?t] =>
      generalize (filled_send f t); destruct (ws_send f t) as [threw s2]
  end.
  cbn [snd]. intros Hs.
  apply (keeps_trans _ _ s2).
  - eapply keeps_trans; [|exact Hs]. repeat peel_filled.
  - destruct threw; repeat peel_filled.
Qed.

Lemma filled_run_timer action s : keeps filled s (run_timer action s).
Proof.
  destruct action; cbn [run_timer].
  - destruct (ws s) as [[]|]; repeat peel_filled.
  - apply filled_send.
  - destruct (isWsConnected s && ws_is_open s); [|apply keeps_refl].
    generalize (filled_send heartbeat_frame s).
    destruct (ws_send heartbeat_frame s) as [threw s1]. cbn [snd]. intros H.
    destruct threw; auto.
    eapply keeps_trans; [exact H|apply filled_reconnect].
  - repeat peel_filled.
  - apply filled_subscribeNext.
  - apply filled_connectToOpenSea.
  - repeat peel_filled.
  - unfold ack_timeout. repeat peel_filled.
Qed.

Lemma filled_filter_button userId subAction s :
  keeps filled s (filter_button userId subAction s).
Proof.
  assert (Hstore : forall f, f <> [] ->
            keeps filled s
              (say userId RFiltersUpdated
                 (saveSubscriptions
                    (set_eventFilters (JsMap.set userId f (eventFilters s)) s)))).
  { intros f Hf.
    eapply keeps_trans; [apply (filled_set userId f s Hf)|].
    repeat peel_filled. }
  unfold filter_button. cbv zeta.
  destruct (String.eqb subAction "sales"); [apply Hstore; discriminate|].
  destruct (String.eqb subAction "listings"); [apply Hstore; discriminate|].
  destruct (String.eqb subAction "all"); [|apply keeps_refl].
  apply Hstore, add_all_nonempty. discriminate.
Qed.

Lemma filled_step e s : min_values e -> keeps filled s (step e s).
Proof.
  intros He. destruct e; cbn [step].
  - unfold on_ready, setTimeout. cbn [fst snd]. repeat peel_filled.
  - repeat peel_filled.
  - unfold fire.
    destruct (find _ (timers s)) as [t|]; [|apply keeps_refl].
    destruct (t_due t <=? now s); [|apply keeps_refl].
    eapply keeps_trans; [|apply filled_run_timer]. repeat peel_filled.
  - repeat peel_filled.
  - destruct (ws s) as [[]|]; try apply keeps_refl.
    unfold on_open, setTimeout. cbn [fst snd]. repeat peel_filled.
  - destruct (ws s) as [[]|]; try apply keeps_refl;
      unfold on_error; repeat peel_filled.
  - destruct (ws s) as [[]|]; try apply keeps_refl;
      unfold on_close; repeat peel_filled.
  - destruct (ws s) as [[]|]; try apply keeps_refl; apply filled_on_message.
  - apply filled_cmd_subscribe.
  - apply filled_cmd_unsubscribe.
  - unfold clear_confirm. repeat peel_filled.
  - unfold remove_collection, alloc. cbn [fst snd]. repeat peel_filled.
  - unfold event_filters_menu. cbv zeta.
    eapply keeps_trans;
      [apply (filled_set userId (JsSet.of_list values) s),
         of_list_nonempty, He|].
    repeat peel_filled.
  - apply filled_filter_button.
  - apply filled_add_collection_modal.
Qed.

Lemma served_reachable s : served s -> reachable s.
Proof. intros (f & trace & _ & ->). now exists f, trace. Qed.

Lemma served_filled s : served s -> filled s.
Proof.
  intros (f & trace & Hall & ->). unfold run.
  assert (H0 : filled (init f)) by (intros u g []).
  revert H0. generalize (init f).
  induction Hall as [|e trace He _ IH]; intros s0 H0; cbn [fold_left]; auto.
  apply IH. now apply (filled_step e s0 He).
Qed.

(** ** C7: the default filter *)


